(** * The JSON / simplified-JSON tokenizer of foundation/json.c

    A shallow embedding of [src/foundation/json.c] and the properties of
    its two entry points [json_parse] and [sjson_parse].

    - [size_t] values are integers reduced modulo 2^64 ([sz]),
      [unsigned int] values integers reduced modulo 2^32 ([u32]);
    - the input is what the C code gets: a pointer, modelled as the
      memory [buffer : Z -> ascii] addressed from it, and a declared
      [length]; every byte the code inspects is recorded, in order, in
      the [reads] component of the state, so that a read at an index
      [>= length] is visible;
    - the output array is a list of tokens written in place through
      [get_token], which yields no slot at an index [>= capacity];
    - the three mutually recursive parsers take a [fuel] that bounds the
      nesting of calls and loop iterations; [None] means that the fuel
      did not suffice.  The strict parser returns whenever the fuel
      exceeds twice the size of the buffer, a result does not depend
      on the fuel, and the permissive parser does not return on every
      input (see the end of the file).

    The file has the model first, then the predicates of the proofs,
    then the proofs: what every run preserves outside the capacity, the
    facts about the lexical scans, the lockstep of two runs that differ
    in array and capacity, the shape of the tokens by induction over
    the mutual recursion, examples evaluated in the model, termination,
    the claims C1 to C10 and further properties of the scans and of the
    entry points, and last the strict grammar of the specification,
    which the strict parser accepts (claim C2). *)

From Stdlib Require Import ZArith Ascii String Lia Bool.
From stdpp Require Import base list.

Open Scope Z_scope.

(** ** Machine integers *)

Definition sz (z : Z) : Z := z mod 18446744073709551616.
Definition u32 (z : Z) : Z := z mod 4294967296.

(** Modelled from the spec: STRING_NPOS is declared in a header of the
    library that is not part of the sources at hand; the spec calls it
    the failure sentinel, "the maximum representable length". *)
Definition STRING_NPOS : Z := 18446744073709551615.

Notation "a ⊕ b" := (sz (a + b)) (at level 50, left associativity).
Notation "a ⊖ b" := (sz (a - b)) (at level 50, left associativity).

(** ** Tokens *)

(** Modelled from the spec: the enumeration json_type_t is declared in
    the missing header; the spec lists the kinds Undefined, Object,
    Array, Primitive and String. *)
Inductive json_type_t : Set :=
  | JSON_UNDEFINED
  | JSON_OBJECT
  | JSON_ARRAY
  | JSON_STRING
  | JSON_PRIMITIVE.

Definition json_type_eqb (a b : json_type_t) : bool :=
  match a, b with
  | JSON_UNDEFINED, JSON_UNDEFINED
  | JSON_OBJECT, JSON_OBJECT
  | JSON_ARRAY, JSON_ARRAY
  | JSON_STRING, JSON_STRING
  | JSON_PRIMITIVE, JSON_PRIMITIVE => true
  | _, _ => false
  end.

(** Modelled from the spec: the structure json_token_t is declared in
    the missing header; its fields are the ones json.c assigns.  In the
    spec's words [id]/[id_length] is the key span, [value]/[value_length]
    the value span, [child] the first child and [sibling] the next
    sibling; all six are [unsigned int]. *)
Record json_token_t : Set := mk_token {
  id : Z;
  id_length : Z;
  value : Z;
  value_length : Z;
  child : Z;
  sibling : Z;
  type : json_type_t
}.

(** ** Characters *)

Notation "c =c= d" := (Ascii.eqb c d) (at level 70, no associativity).

Definition dquote : ascii := "034"%char.
Definition code (c : ascii) : Z := Z.of_N (N_of_ascii c).

Definition is_whitespace (c : ascii) : bool :=
  (c =c= " ") || (c =c= "009") || (c =c= "010") || (c =c= "013").

Definition is_token_delimiter (c : ascii) : bool :=
  is_whitespace c || (c =c= "]") || (c =c= "}") || (c =c= ",").

(** ** The lexical layer: pure scans that log the bytes they inspect *)

Definition W (A : Type) : Type := (A * list Z)%type.
Definition wret {A} (a : A) : W A := (a, []).
Definition wbind {A B} (m : W A) (f : A → W B) : W B :=
  let (a, l1) := m in let (b, l2) := f a in (b, l1 ++ l2).

Declare Scope lex_scope.
Delimit Scope lex_scope with lex.
Notation "'let*' x ':=' m 'in' f" := (wbind m (fun x => f))
  (at level 10, x name, m at level 100, f at level 200, only parsing)
  : lex_scope.

Section Lexer.

Variable buffer : Z → ascii.
Variable length : Z.

Definition peek (pos : Z) : W ascii := (buffer pos, [pos]).

Local Open Scope lex_scope.

(** [while (pos < length)]: the loop runs at most [length - pos] times,
    which is the fuel [skip_whitespace] hands to it. *)
Fixpoint skip_whitespace_loop (n : nat) (pos : Z) : W Z :=
  match n with
  | O => wret pos
  | S n' =>
      if pos <? length then
        let* c := peek pos in
        if is_whitespace c then skip_whitespace_loop n' (pos ⊕ 1)
        else wret pos
      else wret pos
  end.

Definition skip_whitespace (pos : Z) : W Z :=
  skip_whitespace_loop (Z.to_nat (length - pos)) pos.

Definition is_hex_digit (c : ascii) : bool :=
  ((48 <=? code c) && (code c <=? 57)) ||
  ((65 <=? code c) && (code c <=? 70)) ||
  ((97 <=? code c) && (code c <=? 102)).

Definition is_simple_escape (c : ascii) : bool :=
  (c =c= dquote) || (c =c= "/") || (c =c= "\") || (c =c= "b") ||
  (c =c= "f") || (c =c= "r") || (c =c= "n") || (c =c= "t").

(** [for (esc = 0; esc < 4 && pos < length; ++esc)] with [n = 4 - esc];
    [None] is the [return STRING_NPOS] of the loop body.  The byte at
    [++pos] is inspected without a bound check of its own. *)
Fixpoint unicode_escape (n : nat) (pos : Z) : W (option Z) :=
  match n with
  | O => wret (Some pos)
  | S n' =>
      if pos <? length then
        let pos := pos ⊕ 1 in
        let* c := peek pos in
        if is_hex_digit c then unicode_escape n' pos else wret None
      else wret (Some pos)
  end.

Fixpoint parse_string_loop (n : nat) (start pos : Z) (simple : bool) : W Z :=
  match n with
  | O => wret (if simple then pos ⊖ start else STRING_NPOS)
  | S n' =>
      if pos <? length then
        let* c := peek pos in
        if simple && (is_token_delimiter c || (c =c= "=") || (c =c= ":"))
        then wret (pos ⊖ start)
        else if c =c= dquote then wret (pos ⊖ start)
        else
          let pos := pos ⊕ 1 in
          if (c =c= "\") && (pos <? length) then
            let* e := peek pos in
            if is_simple_escape e then parse_string_loop n' start pos simple
            else if e =c= "u" then
              let* r := unicode_escape 4 pos in
              match r with
              | Some pos => parse_string_loop n' start pos simple
              | None => wret STRING_NPOS
              end
            else wret STRING_NPOS
          else parse_string_loop n' start pos simple
      else wret (if simple then pos ⊖ start else STRING_NPOS)
  end.

Definition parse_string (pos : Z) (simple : bool) : W Z :=
  parse_string_loop (Z.to_nat (length - pos)) pos pos simple.

Fixpoint parse_number_loop (n : nat) (start pos : Z)
    (has_dot has_digit has_exp : bool) : W Z :=
  match n with
  | O => wret (pos ⊖ start)
  | S n' =>
      if pos <? length then
        let* c := peek pos in
        if is_token_delimiter c then wret (pos ⊖ start)
        else if (c =c= "-") && negb (start =? pos) then wret STRING_NPOS
        else if c =c= "." then
          if has_dot || has_exp then wret STRING_NPOS
          else parse_number_loop n' start (pos ⊕ 1) true has_digit has_exp
        else if (c =c= "e") || (c =c= "E") then
          if negb has_digit || has_exp then wret STRING_NPOS
          else if (pos ⊕ 1) <? length then
            let* s := peek (pos ⊕ 1) in
            if s =c= "+" then
              parse_number_loop n' start (pos ⊕ 1 ⊕ 1) has_dot has_digit true
            else
              let* s' := peek (pos ⊕ 1) in
              if s' =c= "-" then
                parse_number_loop n' start (pos ⊕ 1 ⊕ 1) has_dot has_digit true
              else parse_number_loop n' start (pos ⊕ 1) has_dot has_digit true
          else parse_number_loop n' start (pos ⊕ 1) has_dot has_digit true
        else if (code c <? 48) || (57 <? code c) then wret STRING_NPOS
        else parse_number_loop n' start (pos ⊕ 1) has_dot true has_exp
      else wret (pos ⊖ start)
  end.

Definition parse_number (pos : Z) : W Z :=
  parse_number_loop (Z.to_nat (length - pos)) pos pos false false false.

(** Modelled from the spec: string_equal belongs to the string module of
    the library, which is not part of the sources at hand; the spec says
    the characters must "exactly match"; the lengths are equal at both
    call sites.  [lit] is the constant, compared with the bytes from
    [pos] on. *)
Fixpoint string_equal (pos : Z) (lit : string) : W bool :=
  match lit with
  | EmptyString => wret true
  | String a rest =>
      let* c := peek pos in
      let* r := string_equal (pos ⊕ 1) rest in
      wret ((c =c= a) && r)
  end.

(** [if (!simple || ((pos + string < length) && (buffer[pos + string] == QUOTE)))
      ++string;]
    where QUOTE is the double quote character: the statement that
    parse_object and parse_value share; the result is the new [string]. *)
Definition skip_terminating_quote (simple : bool) (pos string : Z) : W Z :=
  if negb simple then wret (string ⊕ 1)
  else if (pos ⊕ string) <? length then
    let* c := peek (pos ⊕ string) in
    wret (if c =c= dquote then string ⊕ 1 else string)
  else wret string.

(** [(c == 't') && (length - pos >= 4) && string_equal(buffer + pos, 3, rue)
      && is_token_delimiter(buffer[pos+3])], and the same for [alse] with
    [n = 4]; [length - pos >= n + 1] is what the source writes. *)
Definition literal_follows (c first : ascii) (pos : Z) (rest : string)
    (n : Z) : W bool :=
  if (c =c= first) && ((n + 1) <=? (length ⊖ pos)) then
    let* eq := string_equal pos rest in
    if eq then
      let* d := peek (pos ⊕ n) in wret (is_token_delimiter d)
    else wret false
  else wret false.

(** [(buffer[pos] != ':') && (!simple || (buffer[pos] != '='))] *)
Definition no_separator (simple : bool) (pos : Z) : W bool :=
  let* c := peek pos in
  if negb (c =c= ":") then
    if negb simple then wret true
    else let* c' := peek pos in wret (negb (c' =c= "="))
  else wret false.

(** [simple && ((pos < length) && (buffer[pos] != ',') && (buffer[pos] != '}'))] *)
Definition implicit_terminator (simple : bool) (pos : Z) : W bool :=
  if simple && (pos <? length) then
    let* c := peek pos in
    if negb (c =c= ",") then
      let* c' := peek pos in wret (negb (c' =c= "}"))
    else wret false
  else wret false.

End Lexer.

(** ** The parser state and its monad *)

(** [tokens] is the caller's array, [current] the [unsigned int] that
    the entry points pass by address, [reads] the indices of [buffer]
    inspected so far, oldest first. *)
Record state : Type := mk_state {
  tokens : list json_token_t;
  current : Z;
  reads : list Z
}.

Definition M (A : Type) : Type := state → option (A * state).
Definition ret {A} (a : A) : M A := fun st => Some (a, st).
Definition bind {A B} (m : M A) (f : A → M B) : M B :=
  fun st => match m st with
            | Some (a, st') => f a st'
            | None => None
            end.
Definition out_of_fuel {A} : M A := fun _ => None.

Declare Scope parser_scope.
Delimit Scope parser_scope with parser.
Notation "'let*' x ':=' m 'in' f" := (bind m (fun x => f))
  (at level 10, x name, m at level 100, f at level 200, only parsing)
  : parser_scope.
Notation "'do' m 'then' f" := (bind m (fun _ => f))
  (at level 10, m at level 100, f at level 200, only parsing)
  : parser_scope.

Definition add_reads (l : list Z) (st : state) : state :=
  {| tokens := tokens st; current := current st; reads := reads st ++ l |}.

Definition lex {A} (w : W A) : M A :=
  fun st => Some (fst w, add_reads (snd w) st).

Definition get_current : M Z := fun st => Some (current st, st).

(** The increment of the counter behind the pointer [current]. *)
Definition incr_st (st : state) : state :=
  {| tokens := tokens st; current := u32 (current st + 1);
     reads := reads st |}.

Definition incr_current : M unit := fun st => Some (tt, incr_st st).

(** A pointer into the array is the index of the slot; [None] is
    [nullptr]. *)
Definition get_token (capacity index : Z) : option nat :=
  if index <? capacity then Some (Z.to_nat index) else None.

(** Assignments to the fields of the token behind a pointer of
    [get_token]; nothing is written through [nullptr]. *)
Definition store_st (token : option nat) (f : json_token_t → json_token_t)
    (st : state) : state :=
  match token with
  | Some i => {| tokens := alter f i (tokens st); current := current st;
                 reads := reads st |}
  | None => st
  end.

Definition store (token : option nat) (f : json_token_t → json_token_t)
    : M unit :=
  fun st => Some (tt, store_st token f st).

(** The field assignments of the four writers of json.c. *)
Definition write_primitive (type : json_type_t) (value value_length : Z)
    (token : json_token_t) : json_token_t :=
  {| type := type; child := 0; sibling := 0;
     value := u32 value; value_length := u32 value_length;
     id := id token; id_length := id_length token |}.

Definition write_complex (current : Z) (type : json_type_t)
    (token : json_token_t) : json_token_t :=
  {| type := type; child := u32 (current + 1); sibling := 0;
     value := 0; value_length := 0;
     id := id token; id_length := id_length token |}.

Definition write_id (id id_length : Z) (token : json_token_t)
    : json_token_t :=
  {| id := u32 id; id_length := u32 id_length;
     value := value token; value_length := value_length token;
     child := child token; sibling := sibling token; type := type token |}.

Definition write_sibling (s : Z) (token : json_token_t) : json_token_t :=
  {| sibling := s;
     id := id token; id_length := id_length token;
     value := value token; value_length := value_length token;
     child := child token; type := type token |}.

(** A slot of the array that the list does not hold reads as valid: the
    caller's array has [capacity] slots. *)
Definition valid_slot (capacity : Z) (tokens : list json_token_t)
    (index : Z) : bool :=
  match get_token capacity index with
  | Some i =>
      match tokens !! i with
      | Some token => negb (json_type_eqb (type token) JSON_UNDEFINED)
      | None => true
      end
  | None => true
  end.

Section Parser.

Variable buffer : Z → ascii.
Variable length : Z.
Variable capacity : Z.
Variable simple : bool.

Local Open Scope parser_scope.

Definition load (pos : Z) : M ascii := lex (peek buffer pos).

Definition is_valid_token (index : Z) : M bool :=
  fun st => Some (valid_slot capacity (tokens st) index, st).

Definition set_token_primitive (current : Z) (type : json_type_t)
    (value value_length : Z) : M unit :=
  store (get_token capacity current)
        (write_primitive type value value_length).

Definition set_token_complex (current : Z) (type : json_type_t) : M unit :=
  store (get_token capacity current) (write_complex current type).

Definition set_token_id (current : Z) (id id_length : Z) : M unit :=
  store (get_token capacity current) (write_id id id_length).

(** [if ((token = get_token(tokens, capacity, last))) token->sibling = s] *)
Definition set_token_sibling (last s : Z) : M unit :=
  store (get_token capacity last) (write_sibling s).

(** The last arm of the switch of parse_value, for the double quote and
    for [default]. *)
Definition parse_value_string (c : ascii) (pos : Z) : M Z :=
  let scan pos :=
    let* string := lex (parse_string buffer length pos simple) in
    if string =? STRING_NPOS then ret STRING_NPOS
    else
      let* cur := get_current in
      do set_token_primitive cur JSON_STRING pos string then
      do incr_current then
      let* string := lex (skip_terminating_quote buffer length simple pos string) in
      ret (pos ⊕ string) in
  if negb (c =c= dquote) then
    if negb simple then ret STRING_NPOS else scan (pos ⊖ 1)
  else scan pos.

Definition is_number_start (c : ascii) : bool :=
  (c =c= "-") || ((48 <=? code c) && (code c <=? 57)) || (c =c= ".").

(** Every path through the body of the [while (pos < length)] of
    parse_value returns, so the loop is a conditional. *)
Definition parse_value_body (parse_object parse_array : Z → M Z) (pos : Z)
    : M Z :=
  let* pos := lex (skip_whitespace buffer length pos) in
  if pos <? length then
    let* c := load pos in
    let pos := pos ⊕ 1 in
    if c =c= "{" then
      let* cur := get_current in
      do set_token_complex cur JSON_OBJECT then
      do incr_current then
      parse_object pos
    else if c =c= "[" then
      let* cur := get_current in
      do set_token_complex cur JSON_ARRAY then
      do incr_current then
      parse_array pos
    else if is_number_start c then
      let* string := lex (parse_number buffer length (pos ⊖ 1)) in
      if string =? STRING_NPOS then ret STRING_NPOS
      else
        let* cur := get_current in
        do set_token_primitive cur JSON_PRIMITIVE (pos ⊖ 1) string then
        do incr_current then
        ret (pos ⊕ string ⊖ 1)
    else if (c =c= "t") || (c =c= "f") then
      let* t := lex (literal_follows buffer length c "t" pos "rue" 3) in
      if t then
        let* cur := get_current in
        do set_token_primitive cur JSON_PRIMITIVE (pos ⊖ 1) 4 then
        do incr_current then
        ret (pos ⊕ 3)
      else
        let* f := lex (literal_follows buffer length c "f" pos "alse" 4) in
        if f then
          let* cur := get_current in
          do set_token_primitive cur JSON_PRIMITIVE (pos ⊖ 1) 5 then
          do incr_current then
          ret (pos ⊕ 4)
        else if negb simple then ret STRING_NPOS
        else parse_value_string c pos
    else parse_value_string c pos
  else ret STRING_NPOS.

(** One iteration of the [while (pos < length)] of parse_object; [loop]
    is the rest of the loop, [last] the local of that name. *)
Definition parse_object_loop_body (parse_value : Z → M Z)
    (loop : Z → Z → M Z) (pos last : Z) : M Z :=
  if pos <? length then
    let* c := load pos in
    let pos := pos ⊕ 1 in
    if c =c= "}" then
      if negb (last =? 0) then
        let* valid := is_valid_token last in
        ret (if negb valid then STRING_NPOS else pos)
      else ret pos
    else if c =c= "," then
      if last =? 0 then ret STRING_NPOS
      else
        let* valid := is_valid_token last in
        if negb valid then ret STRING_NPOS
        else
          let* cur := get_current in
          do set_token_sibling last cur then
          let* pos := lex (skip_whitespace buffer length pos) in
          loop pos 0
    else
      if negb (last =? 0) then ret STRING_NPOS
      else
        let member pos :=
          let* string := lex (parse_string buffer length pos simple) in
          if string =? STRING_NPOS then ret STRING_NPOS
          else
            let* last := get_current in
            do set_token_id last pos string then
            let* string := lex (skip_terminating_quote buffer length simple pos string) in
            let pos := pos ⊕ string in
            let* pos := lex (skip_whitespace buffer length pos) in
            let* fails := lex (no_separator buffer simple pos) in
            if fails then ret STRING_NPOS
            else
              let* pos := parse_value (pos ⊕ 1) in
              let* pos := lex (skip_whitespace buffer length pos) in
              let* implicit := lex (implicit_terminator buffer length simple pos) in
              if implicit then
                let* cur := get_current in
                do set_token_sibling last cur then
                loop pos 0
              else loop pos last in
        if negb (c =c= dquote) then
          if negb simple then ret STRING_NPOS else member (pos ⊖ 1)
        else member pos
  else ret (if simple then pos else STRING_NPOS).

Definition parse_object_body (loop : Z → Z → M Z) (pos : Z) : M Z :=
  let* pos := lex (skip_whitespace buffer length pos) in
  loop pos 0.

(** One iteration of the [while (pos < length)] of parse_array. *)
Definition parse_array_loop_body (parse_value : Z → M Z)
    (loop : Z → Z → M Z) (pos last : Z) : M Z :=
  if pos <? length then
    let* now := get_current in
    do set_token_id now 0 0 then
    let* pos := parse_value pos in
    if pos =? STRING_NPOS then ret STRING_NPOS
    else
      do (if negb (last =? 0) then set_token_sibling last now else ret tt) then
      let last := now in
      let* pos := lex (skip_whitespace buffer length pos) in
      let* c := load pos in
      if c =c= "," then loop (pos ⊕ 1) last
      else
        let* c' := load pos in
        if c' =c= "]" then ret (pos ⊕ 1)
        else if negb simple then ret STRING_NPOS
        else loop pos last
  else ret STRING_NPOS.

Definition parse_array_body (loop : Z → Z → M Z) (pos : Z) : M Z :=
  let* pos := lex (skip_whitespace buffer length pos) in
  let* c := load pos in
  if c =c= "]" then lex (skip_whitespace buffer length (pos ⊕ 1))
  else loop pos 0.

(** The recursion: parse_value calls parse_object and parse_array, whose
    loops call parse_value.  [fuel] decreases at every call of
    parse_value and at every iteration of a loop. *)
Fixpoint parse_value (fuel : nat) (pos : Z) : M Z :=
  match fuel with
  | O => out_of_fuel
  | S n =>
      parse_value_body (parse_object_body (parse_object_loop n))
                       (parse_array_body (parse_array_loop n)) pos
  end
with parse_object_loop (fuel : nat) (pos last : Z) : M Z :=
  match fuel with
  | O => out_of_fuel
  | S n =>
      parse_object_loop_body (parse_value n) (parse_object_loop n) pos last
  end
with parse_array_loop (fuel : nat) (pos last : Z) : M Z :=
  match fuel with
  | O => out_of_fuel
  | S n =>
      parse_array_loop_body (parse_value n) (parse_array_loop n) pos last
  end.

Definition parse_object (fuel : nat) : Z → M Z :=
  parse_object_body (parse_object_loop fuel).

Definition parse_array (fuel : nat) : Z → M Z :=
  parse_array_body (parse_array_loop fuel).

End Parser.

(** ** The entry points *)

Definition initial (tokens : list json_token_t) : state :=
  {| tokens := tokens; current := 0; reads := [] |}.

Local Open Scope parser_scope.

(** [if (... == STRING_NPOS) return 0; return current;] *)
Definition count_or_zero (pos : Z) : M Z :=
  if pos =? STRING_NPOS then ret 0 else get_current.

(** The parse that json_parse runs; its result is the end position. *)
Definition json_scan (fuel : nat) (buffer : Z → ascii) (size capacity : Z)
    : M Z :=
  do set_token_id capacity 0 0 0 then
  do set_token_primitive capacity 0 JSON_UNDEFINED 0 0 then
  parse_value buffer size capacity false fuel 0.

(** The result is the returned count together with the final state,
    whose [tokens] are the caller's array after the call. *)
Definition json_parse (fuel : nat) (buffer : Z → ascii) (size : Z)
    (tokens : list json_token_t) (capacity : Z) : option (Z * state) :=
  (let* pos := json_scan fuel buffer size capacity in
   count_or_zero pos) (initial tokens).

(** The parse that sjson_parse runs, through either of its branches. *)
Definition sjson_scan (fuel : nat) (buffer : Z → ascii) (size capacity : Z)
    : M Z :=
  let* pos := lex (skip_whitespace buffer size 0) in
  let* root := (if pos <? size then
                  let* c := load buffer pos in ret (negb (c =c= "{"))
                else ret false) in
  if root then
    do set_token_id capacity 0 0 0 then
    do set_token_complex capacity 0 JSON_OBJECT then
    do incr_current then
    parse_object buffer size capacity true fuel pos
  else
    parse_value buffer size capacity true fuel pos.

Definition sjson_parse (fuel : nat) (buffer : Z → ascii) (size : Z)
    (tokens : list json_token_t) (capacity : Z) : option (Z * state) :=
  (let* pos := sjson_scan fuel buffer size capacity in
   count_or_zero pos) (initial tokens).

(** ** Inputs for the examples *)

(** The memory behind a buffer that holds the bytes of [s]; what lies
    past them is [beyond]. *)
Fixpoint memory (s : string) (beyond : Z → ascii) (i : Z) : ascii :=
  match s with
  | EmptyString => beyond i
  | String c rest => if i =? 0 then c else memory rest beyond (i - 1)
  end.

Definition strlen (s : string) : Z := Z.of_nat (String.length s).

Definition q : string := String dquote EmptyString.

(** * Vocabulary of the proofs *)

(** ** What a call returns *)

(** What a caller and the scan observe of a run: the returned count (or
    end position), the logical token index and the bytes inspected. *)
Definition outcome (o : option (Z * state)) : option (Z * Z * list Z) :=
  match o with
  | Some (count, st) => Some (count, current st, reads st)
  | None => None
  end.

(** The count an entry point returns. *)
Definition count (o : option (Z * state)) : option Z :=
  match o with
  | Some (n, _) => Some n
  | None => None
  end.

(** The count together with the caller's array after the call. *)
Definition result (o : option (Z * state))
    : option (Z * list json_token_t) :=
  match o with
  | Some (n, st) => Some (n, tokens st)
  | None => None
  end.

(** Whether the run returned and inspected [buffer[i]]. *)
Definition inspects (o : option (Z * state)) (i : Z) : bool :=
  match o with
  | Some (_, st) => existsb (Z.eqb i) (reads st)
  | None => false
  end.

(** ** Bytes and literals of the examples *)

Definition all_bytes : list ascii := map ascii_of_nat (seq 0 256).

(** Memory that holds NUL bytes past the end of the buffer. *)
Definition zeros : Z → ascii := fun _ => "000"%char.

(** An object with one member and a comma before the closing brace. *)
Definition trailing_comma_object : string :=
  "{" ++ q ++ "a" ++ q ++ ":1,}".

(** ** The array outside the capacity *)

(** Slots at an index [>= capacity] are as they were, and the array is
    as long as it was. *)
Definition untouched (capacity : Z) (tokens tokens' : list json_token_t)
    : Prop :=
  length tokens' = length tokens ∧
  ∀ i : nat, capacity ≤ Z.of_nat i → tokens' !! i = tokens !! i.

(** A writer that does not turn a typed token into an undefined one. *)
Definition keeps_valid (f : json_token_t → json_token_t) : Prop :=
  ∀ t, type (f t) = type t ∨ type (f t) ≠ JSON_UNDEFINED.

(** A writer that leaves the key span alone. *)
Definition keeps_id (f : json_token_t → json_token_t) : Prop :=
  ∀ t, id (f t) = id t ∧ id_length (f t) = id_length t.

(** The bytes at which the permissive string scan stops at once. *)
Definition stall (c : ascii) : bool :=
  is_token_delimiter c || (c =c= "=") || (c =c= ":").

(** Two tokens that differ at most in the sibling link, and not even
    there for the root. *)
Definition same_token (root : bool) (t t' : json_token_t) : Prop :=
  type t' = type t ∧ id t' = id t ∧ id_length t' = id_length t ∧
  value t' = value t ∧ value_length t' = value_length t ∧
  child t' = child t ∧ (root = true → sibling t' = sibling t).

(** ** Two runs with different arrays *)

(** Two states at the same logical index that have inspected the same
    bytes. *)
Definition in_step (s1 s2 : state) : Prop :=
  current s1 = current s2 ∧ reads s1 = reads s2.

(** Two runs that both run out of fuel, or return the same position in
    states that are in step. *)
Definition agree (o1 o2 : option (Z * state)) : Prop :=
  match o1 with
  | Some (r1, t1) =>
      match o2 with
      | Some (r2, t2) => r1 = r2 ∧ in_step t1 t2
      | None => False
      end
  | None =>
      match o2 with
      | Some _ => False
      | None => True
      end
  end.

Definition sim_call (p1 p2 : Z → M Z) : Prop :=
  ∀ pos s1 s2, in_step s1 s2 → 0 ≤ current s1 →
    agree (p1 pos s1) (p2 pos s2).

Definition sim_array_loop (l1 l2 : Z → Z → M Z) : Prop :=
  ∀ pos last s1 s2, in_step s1 s2 → 0 ≤ current s1 → 0 ≤ last →
    agree (l1 pos last s1) (l2 pos last s2).

Section TwoCapacities.

Variable length : Z.
Variable cap1 cap2 : Z.

(** The object loop tests the token at [last]: the two runs agree when
    that token is valid in both arrays. *)
Definition sim_object_loop (l1 l2 : Z → Z → M Z) : Prop :=
  ∀ pos last s1 s2, in_step s1 s2 → 0 ≤ current s1 → 0 ≤ last →
    (pos < length → last ≠ 0 →
       valid_slot cap1 (tokens s1) last = true ∧
       valid_slot cap2 (tokens s2) last = true) →
    agree (l1 pos last s1) (l2 pos last s2).

End TwoCapacities.

(** ** Invariants of one run *)

Section Invariants.

Variable buffer : Z → ascii.
Variable length : Z.
Variable capacity : Z.
Variable simple : bool.

(** From [s] to [s'] the array kept its length, the slots outside the
    capacity their content, and the valid tokens their validity. *)
Definition ext (s s' : state) : Prop :=
  base.length (tokens s') = base.length (tokens s) ∧
  (∀ i : nat, capacity ≤ Z.of_nat i → tokens s' !! i = tokens s !! i) ∧
  (∀ i, valid_slot capacity (tokens s) i = true →
        valid_slot capacity (tokens s') i = true).

Definition unary_value (pv : Z → M Z) : Prop :=
  ∀ pos st r st', 0 ≤ current st → pv pos st = Some (r, st') →
    0 ≤ current st' ∧ ext st st' ∧
    (r ≠ STRING_NPOS → valid_slot capacity (tokens st') (current st) = true).

Definition unary_loop (loop : Z → Z → M Z) : Prop :=
  ∀ pos last st r st', 0 ≤ current st → 0 ≤ last →
    loop pos last st = Some (r, st') → 0 ≤ current st' ∧ ext st st'.

Definition unary_call (p : Z → M Z) : Prop :=
  ∀ pos st r st', 0 ≤ current st →
    p pos st = Some (r, st') → 0 ≤ current st' ∧ ext st st'.

(** A key span that lies within the buffer. *)
Definition key_ok (t : json_token_t) : Prop :=
  0 ≤ id t ∧ 0 ≤ id_length t ∧ id t + id_length t ≤ length.

(** The shape of token [i] when [cur] tokens have been produced: a
    type, the first child that the type requires, a value span within
    the buffer, a sibling link that is unset or points forward, and,
    below the root, a key span within the buffer. *)
Definition shape_ok (cur i : Z) (t : json_token_t) : Prop :=
  match type t with
  | JSON_UNDEFINED => False
  | JSON_OBJECT | JSON_ARRAY =>
      child t = i + 1 ∧ value t = 0 ∧ value_length t = 0
  | JSON_STRING | JSON_PRIMITIVE =>
      child t = 0 ∧ 0 ≤ value t ∧ 0 ≤ value_length t ∧
      value t + value_length t ≤ length
  end ∧
  (sibling t = 0 ∨ i < sibling t ≤ cur) ∧
  (1 ≤ i → key_ok t).

(** The token at index [i] of the array, when [i] is within capacity. *)
Definition slot (st : state) (i : Z) : option json_token_t :=
  if (0 <=? i) && (i <? capacity) then tokens st !! Z.to_nat i else None.

(** Every token produced so far has its shape. *)
Definition WF (st : state) : Prop :=
  ∀ i t, i < current st → slot st i = Some t → shape_ok (current st) i t.

(** The token about to be produced already has its key. *)
Definition pending (st : state) : Prop :=
  ∀ t, slot st (current st) = Some t → key_ok t.

(** The tokens produced before [st] are in [st'] what they were in
    [st], up to sibling links. *)
Definition keeps (st st' : state) : Prop :=
  ∀ i t', i < current st → slot st' i = Some t' →
    ∃ t, slot st i = Some t ∧ same_token (i =? 0) t t'.

(** The token that was pending in [st] has kept its key. *)
Definition key_kept (st st' : state) : Prop :=
  ∀ t', slot st' (current st) = Some t' →
    ∃ t, slot st (current st) = Some t ∧
         id t' = id t ∧ id_length t' = id_length t.

(** Tokens produced so far plus bytes still to scan. *)
Definition phi (st : state) (pos : Z) : Z :=
  current st + (length - Z.min pos length).

(** A position at which the permissive value parser produces an empty
    string token and does not advance. *)
Definition zero_width (pos : Z) : Prop :=
  simple = true ∧ 0 ≤ pos < length ∧ is_whitespace (buffer pos) = false ∧
  stall (buffer pos) = true.

(** What the token of a value that starts at the first significant
    byte from [pos] on looks like. *)
Definition describes (pos : Z) (t : json_token_t) : Prop :=
  let p := (skip_whitespace buffer length pos).1 in
  match type t with
  | JSON_UNDEFINED => False
  | JSON_OBJECT => (buffer p =c= "{") = true
  | JSON_ARRAY => (buffer p =c= "[") = true
  | JSON_PRIMITIVE =>
      value t = p ∧
      (is_number_start (buffer p) || (buffer p =c= "t") || (buffer p =c= "f"))
      = true
  | JSON_STRING =>
      if buffer p =c= dquote then value t = p + 1
      else value t = p ∧ simple = true
  end.

(** What [parse_value] may assume and what it ensures when it does not
    fail. *)
Record value_pre (pos : Z) (st : state) : Prop := {
  vq_pos : 0 ≤ pos ≤ STRING_NPOS;
  vq_cur : 0 ≤ current st;
  vq_phi : phi st pos ≤ length + 1;
  vq_wf : WF st;
  vq_pending : 1 ≤ current st → pending st
}.

Record value_post (pos : Z) (st : state) (r : Z) (st' : state) : Prop := {
  vp_pos : 0 ≤ r ≤ STRING_NPOS;
  vp_cur : current st < current st';
  vp_phi : phi st' r ≤ phi st pos ∨
           (zero_width r ∧ phi st' r ≤ phi st pos + 1);
  vp_wf : WF st';
  vp_keeps : keeps st st';
  vp_key : key_kept st st';
  vp_tok : ∀ t', slot st' (current st) = Some t' → describes pos t'
}.

Definition value_spec (pv : Z → M Z) : Prop :=
  (∀ pos st r st', value_pre pos st → pv pos st = Some (r, st') →
     r ≠ STRING_NPOS → value_post pos st r st') ∧
  (∀ pos st r st', zero_width pos → pv pos st = Some (r, st') → r = pos).

(** The same for the loops of [parse_object] and [parse_array]. *)
Record loop_pre (pos last : Z) (st : state) : Prop := {
  lq_pos : 0 ≤ pos ≤ STRING_NPOS;
  lq_cur : 1 ≤ current st;
  lq_phi : phi st pos ≤ length + 1;
  lq_wf : WF st;
  lq_last : last = 0 ∨ 1 ≤ last < current st
}.

Record loop_post (pos : Z) (st : state) (r : Z) (st' : state) : Prop := {
  lp_pos : 0 ≤ r ≤ STRING_NPOS;
  lp_cur : current st ≤ current st';
  lp_phi : phi st' r ≤ phi st pos;
  lp_wf : WF st';
  lp_keeps : keeps st st'
}.

Definition object_loop_spec (loop : Z → Z → M Z) : Prop :=
  (∀ pos last st r st', loop_pre pos last st →
     loop pos last st = Some (r, st') → r ≠ STRING_NPOS →
     loop_post pos st r st') ∧
  (∀ pos last st r st', length ≤ pos → loop pos last st = Some (r, st') →
     r = if simple then pos else STRING_NPOS).

(** The second part: at a zero-width position that holds neither a
    comma nor a bracket the permissive array loop never returns. *)
Definition array_loop_spec (loop : Z → Z → M Z) : Prop :=
  (∀ pos last st r st', loop_pre pos last st →
     loop pos last st = Some (r, st') → r ≠ STRING_NPOS →
     loop_post pos st r st') ∧
  (∀ pos last st, zero_width pos →
     (buffer pos =c= ",") = false → (buffer pos =c= "]") = false →
     loop pos last st = None).

Definition call_spec (p : Z → M Z) : Prop :=
  ∀ pos st r st', loop_pre pos 0 st → pos ≤ length →
    p pos st = Some (r, st') → r ≠ STRING_NPOS → loop_post pos st r st'.

(** The state in which [json_parse] calls [parse_value]. *)
Definition json_initial (tokens : list json_token_t) : state :=
  store_st (get_token capacity 0) (write_primitive JSON_UNDEFINED 0 0)
    (store_st (get_token capacity 0) (write_id 0 0) (initial tokens)).

End Invariants.

(** ** Progress and fuel *)

Section Progress.

Variable length : Z.

(** A call from [pos] that returns [r] has failed or moved on.  An
    array that is closed by a bracket found past the end of the buffer
    ends one byte further out than its last element, hence the bound,
    with [k = 0] for a value and [k = 1] for an array. *)
Definition advances (k pos r : Z) : Prop :=
  r = STRING_NPOS ∨ (pos < r ∧ r + pos ≤ 2 * length + k).

(** The bytes from [pos] to the end of the buffer. *)
Definition remaining (pos : Z) : Z := length - Z.min pos length.

Definition pos_value (pv : Z → M Z) : Prop :=
  ∀ pos st r st', 0 ≤ pos ≤ STRING_NPOS → pv pos st = Some (r, st') →
    advances 0 pos r.

Definition pos_call (p : Z → M Z) : Prop :=
  ∀ pos st r st', 0 ≤ pos ≤ length → p pos st = Some (r, st') →
    advances 1 pos r.

Definition pos_loop (loop : Z → Z → M Z) : Prop :=
  ∀ pos last st r st', 0 ≤ pos ≤ STRING_NPOS →
    loop pos last st = Some (r, st') → advances 1 pos r.

(** [n] units of fuel suffice for a value, an object or array body, or
    a loop, whatever the state. *)
Definition total_value (n : nat) (pv : Z → M Z) : Prop :=
  ∀ pos st, 0 ≤ pos ≤ STRING_NPOS →
    2 * remaining pos + 1 ≤ Z.of_nat n → pv pos st ≠ None.

Definition total_call (n : nat) (p : Z → M Z) : Prop :=
  ∀ pos st, 0 ≤ pos ≤ length →
    2 * remaining pos + 2 ≤ Z.of_nat n → p pos st ≠ None.

Definition total_loop (n : nat) (loop : Z → Z → M Z) : Prop :=
  ∀ pos last st, 0 ≤ pos ≤ STRING_NPOS →
    2 * remaining pos + 2 ≤ Z.of_nat n → loop pos last st ≠ None.

End Progress.

(** Whatever [p] returns, [p'] returns too. *)
Definition mono_value (p p' : Z → M Z) : Prop :=
  ∀ pos st o, p pos st = Some o → p' pos st = Some o.

Definition mono_loop (l l' : Z → Z → M Z) : Prop :=
  ∀ pos last st o, l pos last st = Some o → l' pos last st = Some o.

(** ** Bytes of numbers, strings and values *)

(** The bytes a number may consist of. *)
Definition number_byte (c : ascii) : bool :=
  ((48 <=? code c) && (code c <=? 57)) || (c =c= ".") || (c =c= "e") ||
  (c =c= "E") || (c =c= "+") || (c =c= "-").

(** The bytes at which the string scan stops: the double quote, and in
    the permissive grammar the delimiters and the two separators. *)
Definition ends_string (simple : bool) (c : ascii) : bool :=
  (simple && (is_token_delimiter c || (c =c= "=") || (c =c= ":"))) ||
  (c =c= dquote).

Definition is_digit (c : ascii) : bool := (48 <=? code c) && (code c <=? 57).

(** The bytes with which a value of the strict grammar can start. *)
Definition value_start (c : ascii) : bool :=
  (c =c= "{") || (c =c= "[") || is_digit c || (c =c= ".") || (c =c= "t") ||
  (c =c= "f") || (c =c= dquote).

(** ** Two runs with different array contents *)

Section TwoArrays.

Variable capacity : Z.

(** The tokens produced so far are the same in both arrays. *)
Definition below (s1 s2 : state) : Prop :=
  base.length (tokens s1) = base.length (tokens s2) ∧
  ∀ i, 0 ≤ i < current s1 → slot capacity s1 i = slot capacity s2 i.

(** The token about to be produced has the same key in both arrays. *)
Definition keyed (s1 s2 : state) : Prop :=
  ∀ t1 t2, slot capacity s1 (current s1) = Some t1 →
           slot capacity s2 (current s1) = Some t2 →
           id t1 = id t2 ∧ id_length t1 = id_length t2.

(** A writer that assigns every field but the key. *)
Definition overwrites (f : json_token_t → json_token_t) : Prop :=
  ∀ t1 t2, id t1 = id t2 → id_length t1 = id_length t2 → f t1 = f t2.

(** Two runs that both run out of fuel, or return the same position in
    states that are in step and, unless they failed, hold the same
    tokens. *)
Definition agree_tokens (o1 o2 : option (Z * state)) : Prop :=
  match o1 with
  | Some (r1, t1) =>
      match o2 with
      | Some (r2, t2) =>
          r1 = r2 ∧ in_step t1 t2 ∧ (r1 ≠ STRING_NPOS → below t1 t2)
      | None => False
      end
  | None =>
      match o2 with
      | Some _ => False
      | None => True
      end
  end.

Definition same_value (p1 p2 : Z → M Z) : Prop :=
  ∀ pos s1 s2, in_step s1 s2 → 0 ≤ current s1 →
    below s1 s2 → keyed s1 s2 →
    agree_tokens (p1 pos s1) (p2 pos s2).

Definition same_call (p1 p2 : Z → M Z) : Prop :=
  ∀ pos s1 s2, in_step s1 s2 → 0 ≤ current s1 → below s1 s2 →
    agree_tokens (p1 pos s1) (p2 pos s2).

Definition same_array_loop (l1 l2 : Z → Z → M Z) : Prop :=
  ∀ pos last s1 s2, in_step s1 s2 → 0 ≤ current s1 → 0 ≤ last →
    below s1 s2 →
    agree_tokens (l1 pos last s1) (l2 pos last s2).

End TwoArrays.

Section TwoArraysObject.

Variable length : Z.
Variable capacity : Z.

Definition same_object_loop (l1 l2 : Z → Z → M Z) : Prop :=
  ∀ pos last s1 s2, in_step s1 s2 → 0 ≤ current s1 → 0 ≤ last →
    (pos < length → last ≠ 0 →
       valid_slot capacity (tokens s1) last = true ∧
       valid_slot capacity (tokens s2) last = true) →
    (pos ≠ STRING_NPOS → below capacity s1 s2) →
    agree_tokens capacity (l1 pos last s1) (l2 pos last s2).

End TwoArraysObject.

(** ** How far a run reads *)

Section ReadsWithin.

Variable length : Z.

(** Every byte that the run from [st] to [st'] has inspected lies at an
    index [i >= 0] with [i + pos < 2 * length + k]. *)
Definition reads_within (k pos : Z) (st st' : state) : Prop :=
  ∀ i, i ∈ reads st' →
       i ∈ reads st ∨ (0 ≤ i ∧ i + pos < 2 * length + k).

Definition reads_value (pv : Z → M Z) : Prop :=
  ∀ pos st r st', 0 ≤ pos ≤ STRING_NPOS → pv pos st = Some (r, st') →
    reads_within 0 pos st st'.

Definition reads_call (p : Z → M Z) : Prop :=
  ∀ pos st r st', 0 ≤ pos ≤ length → p pos st = Some (r, st') →
    reads_within 1 pos st st'.

Definition reads_loop (loop : Z → Z → M Z) : Prop :=
  ∀ pos last st r st', 0 ≤ pos ≤ STRING_NPOS →
    loop pos last st = Some (r, st') → reads_within 1 pos st st'.

End ReadsWithin.

(** ** What a run leaves alone *)

(** From [st] to [st'] the run has produced no more tokens than it has
    consumed bytes, and the slots from the counter on are as they
    were. *)
Definition produced (pos r : Z) (st st' : state) : Prop :=
  current st' - current st ≤ r - pos ∧
  base.length (tokens st') = base.length (tokens st) ∧
  ∀ j : nat, current st' ≤ Z.of_nat j → tokens st' !! j = tokens st !! j.

Definition frame_value (pv : Z → M Z) : Prop :=
  ∀ pos st r st', 0 ≤ pos ≤ STRING_NPOS → 0 ≤ current st ≤ pos →
    pv pos st = Some (r, st') → r ≠ STRING_NPOS →
    current st < current st' ∧ produced pos r st st'.

Section FrameCalls.

Variable length : Z.

Definition frame_call (p : Z → M Z) : Prop :=
  ∀ pos st r st', 0 ≤ pos ≤ length → 0 ≤ current st ≤ pos →
    p pos st = Some (r, st') → r ≠ STRING_NPOS →
    current st ≤ current st' ∧ produced pos r st st'.

End FrameCalls.

Definition frame_loop (loop : Z → Z → M Z) : Prop :=
  ∀ pos last st r st', 0 ≤ pos ≤ STRING_NPOS → 0 ≤ current st ≤ pos →
    last = 0 ∨ 0 ≤ last < current st →
    loop pos last st = Some (r, st') → r ≠ STRING_NPOS →
    current st ≤ current st' ∧ produced pos r st st'.

(** ** What the spans of the tokens hold *)

Section Text.

Variable buffer : Z → ascii.
Variable length : Z.
Variable capacity : Z.
Variable simple : bool.

(** The bytes from [v] on are those of [lit]. *)
Fixpoint holds (lit : string) (v : Z) : Prop :=
  match lit with
  | EmptyString => True
  | String a rest => buffer v = a ∧ holds rest (v + 1)
  end.

(** A span of string text: no byte of it ends a string, the byte after
    it does (unless the buffer ends there), and in the strict grammar
    it stands between two double quotes. *)
Definition string_span (v len : Z) : Prop :=
  0 ≤ v ∧ 0 ≤ len ∧ v + len ≤ length ∧
  (∀ i, v ≤ i < v + len → ends_string simple (buffer i) = false) ∧
  (v + len < length → ends_string simple (buffer (v + len)) = true) ∧
  (simple = false →
   1 ≤ v ∧ buffer (v - 1) = dquote ∧ v + len < length).

(** A span of number bytes that ends at a delimiter or with the
    buffer. *)
Definition number_span (v len : Z) : Prop :=
  0 ≤ v ∧ 1 ≤ len ∧ v + len ≤ length ∧
  (∀ i, v ≤ i < v + len → number_byte (buffer i) = true) ∧
  (v + len < length → is_token_delimiter (buffer (v + len)) = true).

(** The span of the literal [lit], followed by a delimiter inside the
    buffer. *)
Definition literal_span (lit : string) (v len : Z) : Prop :=
  len = strlen lit ∧ 0 ≤ v ∧ v + len < length ∧ holds lit v ∧
  is_token_delimiter (buffer (v + len)) = true.

(** What the value span of a token holds, by its type. *)
Definition value_text (t : json_token_t) : Prop :=
  match type t with
  | JSON_STRING => string_span (value t) (value_length t)
  | JSON_PRIMITIVE =>
      number_span (value t) (value_length t) ∨
      literal_span "true" (value t) (value_length t) ∨
      literal_span "false" (value t) (value_length t)
  | _ => True
  end.

(** The key span is empty and unset, as for the elements of an array,
    or a span of string text. *)
Definition key_text (t : json_token_t) : Prop :=
  (id t = 0 ∧ id_length t = 0) ∨ string_span (id t) (id_length t).

(** Every token produced so far has its text. *)
Definition text (st : state) : Prop :=
  ∀ i t, 0 ≤ i < current st → slot capacity st i = Some t →
    value_text t ∧ (1 ≤ i → key_text t).

(** The token about to be produced has the text of its key. *)
Definition key_pending (st : state) : Prop :=
  1 ≤ current st →
  ∀ t, slot capacity st (current st) = Some t → key_text t.

Definition text_post (r : Z) (st' : state) : Prop :=
  0 ≤ r ≤ STRING_NPOS ∧ 0 ≤ current st' ∧ text st'.

Definition text_value (pv : Z → M Z) : Prop :=
  ∀ pos st r st', 0 ≤ pos ≤ STRING_NPOS → 0 ≤ current st →
    text st → key_pending st →
    pv pos st = Some (r, st') → text_post r st'.

Definition text_call (p : Z → M Z) : Prop :=
  ∀ pos st r st', 0 ≤ pos ≤ STRING_NPOS → 0 ≤ current st → text st →
    p pos st = Some (r, st') → text_post r st'.

Definition text_loop (loop : Z → Z → M Z) : Prop :=
  ∀ pos last st r st', 0 ≤ pos ≤ STRING_NPOS → 0 ≤ current st →
    0 ≤ last → text st →
    loop pos last st = Some (r, st') → text_post r st'.

End Text.

(** A mark for a scan whose facts are in the context. *)
Definition noted {A} (a : A) : Prop := True.

(** ** The values of the strict grammar *)

(** Written after the specification, not after the code: its strict
    grammar is standard JSON with the values object, array, string,
    number and the literals true and false.  The predicates read the
    bytes of the buffer: [strict_value p e] says that the bytes from
    [p] up to [e] are a value.  Three kinds of text are narrower here
    than in the specification, because the parser does not accept all
    of it: a number has no sign, a literal is followed by a delimiter
    inside the buffer, and in a string every backslash is followed by
    an escape letter other than the double quote, or by u and four
    hexadecimal digits. *)

Section Grammar.

Variable buffer : Z → ascii.
Variable length : Z.

(** The byte [c] stands at index [p] of the buffer. *)
Definition byte_at (p : Z) (c : ascii) : Prop :=
  0 ≤ p < length ∧ buffer p = c.

(** The bytes from [a] up to [b] are whitespace. *)
Definition blank (a b : Z) : Prop :=
  a ≤ b ∧ ∀ i, a ≤ i < b → is_whitespace (buffer i) = true.

(** The bytes from [a] up to [b] are decimal digits. *)
Definition digits (a b : Z) : Prop :=
  a ≤ b ∧ ∀ i, a ≤ i < b → is_digit (buffer i) = true.

(** The escape letters other than the double quote. *)
Definition is_plain_escape (c : ascii) : bool :=
  (c =c= "/") || (c =c= "\") || (c =c= "b") || (c =c= "f") ||
  (c =c= "r") || (c =c= "n") || (c =c= "t").

(** What follows a backslash at [i]: an escape letter, or the letter u
    and four hexadecimal digits. *)
Definition escape_after (i : Z) : Prop :=
  is_plain_escape (buffer (i + 1)) = true ∨
  (buffer (i + 1) = "u"%char ∧
   ∀ k, i + 2 ≤ k ≤ i + 5 → is_hex_digit (buffer k) = true).

(** A string from the opening double quote at [p] to the closing one at
    [e - 1]: no double quote in between, and an escape after every
    backslash. *)
Definition strict_string (p e : Z) : Prop :=
  byte_at p dquote ∧ p + 2 ≤ e ∧ byte_at (e - 1) dquote ∧
  ∀ i, p < i < e - 1 →
    buffer i ≠ dquote ∧ (buffer i = "\"%char → escape_after i).

(** A number without sign: digits up to [a], then possibly a point and
    digits up to [b], then possibly an exponent: the letter e or E, a
    sign or none, and digits from [c] up to [e].  It ends the buffer or
    is followed by a delimiter. *)
Definition strict_number (p e : Z) : Prop :=
  ∃ a b c,
    0 ≤ p < a ∧ digits p a ∧
    (b = a ∨ (buffer a = "."%char ∧ a + 1 < b ∧ digits (a + 1) b)) ∧
    ((e = b ∧ c = b) ∨
     ((buffer b = "e"%char ∨ buffer b = "E"%char) ∧
      (c = b + 1 ∨
       (c = b + 2 ∧ (buffer (b + 1) = "+"%char ∨ buffer (b + 1) = "-"%char))) ∧
      c < e ∧ digits c e)) ∧
    e ≤ length ∧
    (e < length → is_token_delimiter (buffer e) = true).

(** The literal true or false, followed by a delimiter inside the
    buffer. *)
Definition strict_literal (p e : Z) : Prop :=
  0 ≤ p ∧
  ((holds buffer "true" p ∧ e = p + 4) ∨
   (holds buffer "false" p ∧ e = p + 5)) ∧
  e < length ∧ is_token_delimiter (buffer e) = true.

(** Values, the members of an object from the first byte of a key to
    the closing brace, and the elements of an array from the first byte
    of an element to the closing bracket.  Whitespace may stand around
    every brace, bracket, colon and comma. *)
Inductive strict_value : Z → Z → Prop :=
  | sv_string p e : strict_string p e → strict_value p e
  | sv_number p e : strict_number p e → strict_value p e
  | sv_literal p e : strict_literal p e → strict_value p e
  | sv_empty_object p a :
      byte_at p "{" → blank (p + 1) a → byte_at a "}" →
      strict_value p (a + 1)
  | sv_object p a e :
      byte_at p "{" → blank (p + 1) a → strict_members a e →
      strict_value p e
  | sv_empty_array p a :
      byte_at p "[" → blank (p + 1) a → byte_at a "]" →
      strict_value p (a + 1)
  | sv_array p a e :
      byte_at p "[" → blank (p + 1) a → strict_elements a e →
      strict_value p e
with strict_members : Z → Z → Prop :=
  | sm_member a k c v w x e :
      strict_string a k → blank k c → byte_at c ":" → blank (c + 1) v →
      strict_value v w → blank w x → strict_members_rest x e →
      strict_members a e
with strict_members_rest : Z → Z → Prop :=
  | sm_end x : byte_at x "}" → strict_members_rest x (x + 1)
  | sm_next x a e :
      byte_at x "," → blank (x + 1) a → strict_members a e →
      strict_members_rest x e
with strict_elements : Z → Z → Prop :=
  | se_element v w x e :
      strict_value v w → blank w x → strict_elements_rest x e →
      strict_elements v e
with strict_elements_rest : Z → Z → Prop :=
  | se_end x : byte_at x "]" → strict_elements_rest x (x + 1)
  | se_next x v e :
      byte_at x "," → blank (x + 1) v → strict_elements v e →
      strict_elements_rest x e.

End Grammar.

(** What it means for the parsers to accept the grammar. *)

Section Accepts.

Variable buffer : Z → ascii.
Variable length : Z.
Variable capacity : Z.

(** Where a call returns that was given a value ending at [e]: at [e],
    or behind blanks that follow it. *)
Definition lands (e r : Z) : Prop := blank buffer e r ∧ r ≤ length.

(** parse_value, called at blanks before a value; the tokens are
    never more than the bytes behind the scan. *)
Definition accepts_value (pv : Z → M Z) : Prop :=
  ∀ pos p e st r st', 0 ≤ pos → 0 ≤ current st ≤ p →
    blank buffer pos p → strict_value buffer length p e →
    pv pos st = Some (r, st') →
    lands e r ∧ current st < current st' ≤ e.

(** parse_object and parse_array, called behind the byte [c] that opens
    the value at [p]. *)
Definition accepts_body (c : ascii) (body : Z → M Z) : Prop :=
  ∀ p e st r st', 1 ≤ current st ≤ p + 1 →
    byte_at buffer length p c → strict_value buffer length p e →
    body (p + 1) st = Some (r, st') →
    lands e r ∧ current st ≤ current st' ≤ e.

(** The loop of parse_object: with no member pending it stands at a
    member or at the closing brace, otherwise behind a member whose
    token is valid. *)
Definition accepts_object_loop (loop : Z → Z → M Z) : Prop :=
  ∀ pos last st r st' e, 1 ≤ current st ≤ pos → 0 ≤ last →
    (last = 0 ∧
     (strict_members buffer length pos e ∨
      (byte_at buffer length pos "}" ∧ e = pos + 1))) ∨
    (last ≠ 0 ∧ strict_members_rest buffer length pos e ∧
     valid_slot capacity (tokens st) last = true) →
    loop pos last st = Some (r, st') →
    r = e ∧ e ≤ length ∧ current st ≤ current st' ≤ e.

(** The loop of parse_array, at blanks before an element. *)
Definition accepts_array_loop (loop : Z → Z → M Z) : Prop :=
  ∀ pos v last st r st' e, 0 ≤ pos → 1 ≤ current st ≤ pos → 0 ≤ last →
    blank buffer pos v → strict_elements buffer length v e →
    loop pos last st = Some (r, st') →
    r = e ∧ e ≤ length ∧ current st ≤ current st' ≤ e.

End Accepts.

(** The 14 bytes of an object whose member a is the array of 1 and
    true. *)
Definition nested_example : string :=
  "{" ++ q ++ "a" ++ q ++ ":[1,true]}".

(** * Frame and validity: what every run preserves *)

(** ** State transformers *)

Lemma current_add_reads l st : current (add_reads l st) = current st.
Proof. reflexivity. Qed.

Lemma tokens_add_reads l st : tokens (add_reads l st) = tokens st.
Proof. reflexivity. Qed.

Lemma tokens_incr_st st : tokens (incr_st st) = tokens st.
Proof. reflexivity. Qed.

Lemma current_incr_st st : current (incr_st st) = u32 (current st + 1).
Proof. reflexivity. Qed.

Lemma current_store_st tok f st : current (store_st tok f st) = current st.
Proof. destruct tok; reflexivity. Qed.

Lemma reads_store_st tok f st : reads (store_st tok f st) = reads st.
Proof. destruct tok; reflexivity. Qed.

Lemma reads_incr_st st : reads (incr_st st) = reads st.
Proof. reflexivity. Qed.

Lemma reads_add_reads l st : reads (add_reads l st) = reads st ++ l.
Proof. reflexivity. Qed.

Create Rewrite HintDb st.
#[export] Hint Rewrite current_add_reads tokens_add_reads tokens_incr_st
  current_incr_st current_store_st reads_store_st reads_incr_st
  reads_add_reads : st.

Lemma u32_nonneg z : 0 ≤ u32 z.
Proof. unfold u32. apply Z.mod_pos_bound. lia. Qed.

(** ** Symbolic execution of a run *)

Ltac unfold_parser_in H :=
  cbv beta iota zeta delta
    [parse_value_body parse_object_loop_body parse_object_body
     parse_array_loop_body parse_array_body parse_value_string
     bind ret lex load get_current incr_current store is_valid_token
     set_token_primitive set_token_complex set_token_id set_token_sibling
     out_of_fuel] in H.

(** The condition or the call on which the evaluation of a monadic
    term waits. *)
Ltac scrutinee t :=
  lazymatch t with
  | (if ?c then _ else _) => constr:(c)
  | (if ?c then _ else _) _ => constr:(c)
  | (match ?m with Some _ => _ | None => _ end) => scrutinee_opt m
  | (match ?m with Some _ => _ | None => _ end) _ => scrutinee_opt m
  end
with scrutinee_opt m :=
  lazymatch m with
  | (if _ then _ else _) => scrutinee m
  | (if _ then _ else _) _ => scrutinee m
  | (match _ with Some _ => _ | None => _ end) => scrutinee m
  | (match _ with Some _ => _ | None => _ end) _ => scrutinee m
  | _ => constr:(m)
  end.

Ltac step H :=
  lazymatch type of H with
  | Some _ = Some _ => injection H as ? ?; subst
  | None = Some _ => discriminate H
  | ?t = _ =>
      let c := scrutinee t in
      lazymatch type of c with
      | bool => destruct c eqn:?
      | _ =>
          let r := fresh "r" in let s := fresh "s" in let E := fresh "E" in
          destruct c as [[r s]|] eqn:E
      end;
      cbv beta iota zeta in H
  end.

Section Validity.
Variable buffer : Z → ascii.
Variable length : Z.
Variable capacity : Z.
Variable simple : bool.

Local Abbreviation ext := (ext capacity).

Lemma ext_refl s : ext s s.
Proof. repeat split; auto. Qed.

Lemma ext_trans a b c : ext a b → ext b c → ext a c.
Proof.
  intros (L1 & F1 & V1) (L2 & F2 & V2).
  repeat split; auto; try congruence.
  intros i Hi. rewrite F2, F1; auto.
Qed.

Lemma ext_add_reads l s : ext s (add_reads l s).
Proof. repeat split; auto. Qed.

Lemma ext_incr s : ext s (incr_st s).
Proof. repeat split; auto. Qed.

Lemma json_type_eqb_undef t :
  json_type_eqb t JSON_UNDEFINED = false ↔ t ≠ JSON_UNDEFINED.
Proof. destruct t; simpl; split; congruence. Qed.

Lemma ext_store index f s :
  0 ≤ index → keeps_valid f → ext s (store_st (get_token capacity index) f s).
Proof.
  intros Hi Hf. unfold get_token.
  destruct (index <? capacity) eqn:E; [|apply ext_refl; auto].
  apply Z.ltb_lt in E. unfold store_st, ext. cbn [tokens].
  split; [apply length_alter|]. split.
  - intros i Hc. apply list_lookup_alter_ne. lia.
  - intros j. unfold valid_slot, get_token.
    destruct (j <? capacity) eqn:Ej; [|auto].
    rewrite list_lookup_alter.
    destruct (decide (Z.to_nat index = Z.to_nat j)) as [e|n]; [|auto].
    rewrite e. destruct (tokens s !! Z.to_nat j) as [t|]; simpl; [|auto].
    rewrite !negb_true_iff, !json_type_eqb_undef.
    destruct (Hf t) as [->| ?]; auto.
Qed.

Lemma keeps_valid_id a b : keeps_valid (write_id a b).
Proof. intros t. left. reflexivity. Qed.

Lemma keeps_valid_sibling a : keeps_valid (write_sibling a).
Proof. intros t. left. reflexivity. Qed.

Lemma keeps_valid_primitive ty a b :
  ty ≠ JSON_UNDEFINED → keeps_valid (write_primitive ty a b).
Proof. intros ? t. right. assumption. Qed.

Lemma keeps_valid_complex ty a :
  ty ≠ JSON_UNDEFINED → keeps_valid (write_complex a ty).
Proof. intros ? t. right. assumption. Qed.

Lemma valid_store_cur f s index :
  (∀ t, type (f t) ≠ JSON_UNDEFINED) →
  valid_slot capacity (tokens (store_st (get_token capacity index) f s)) index
  = true.
Proof.
  intros Hf. unfold valid_slot, get_token.
  destruct (index <? capacity) eqn:E; [|reflexivity].
  unfold store_st. cbn [tokens].
  rewrite list_lookup_alter_eq.
  destruct (tokens s !! Z.to_nat index); simpl; [|reflexivity].
  apply negb_true_iff, json_type_eqb_undef, Hf.
Qed.

Lemma valid_mono a b i :
  ext a b → valid_slot capacity (tokens a) i = true →
  valid_slot capacity (tokens b) i = true.
Proof. intros (_ & _ & V). apply V. Qed.

End Validity.

Ltac nn := autorewrite with st; first [assumption | apply u32_nonneg | lia].

Ltac kv := first [apply keeps_valid_id | apply keeps_valid_sibling
                 | apply keeps_valid_primitive; discriminate
                 | apply keeps_valid_complex; discriminate].

Ltac solve_ext :=
  repeat lazymatch goal with
  | |- ext _ ?s ?s => apply ext_refl
  | H : ext _ ?a ?b |- ext _ _ ?b => eapply ext_trans; [|exact H]
  | |- ext _ _ (add_reads _ _) => eapply ext_trans; [|apply ext_add_reads]
  | |- ext _ _ (incr_st _) => eapply ext_trans; [|apply ext_incr]
  | |- ext _ _ (store_st (get_token _ ?i) ?f ?X) =>
      eapply ext_trans; [|apply (ext_store _ i f X); [nn|kv]]
  end.

Ltac solve_valid :=
  autorewrite with st;
  repeat lazymatch goal with
  | H : ext _ ?a ?b |- valid_slot _ (tokens ?b) _ = true =>
      apply (valid_mono _ a b _ H); autorewrite with st
  | |- valid_slot _ (tokens (store_st _ (write_id _ _) ?X)) _ = true =>
      apply (valid_mono _ X); [solve_ext|]; autorewrite with st
  | |- valid_slot _ (tokens (store_st _ (write_sibling _) ?X)) _ = true =>
      apply (valid_mono _ X); [solve_ext|]; autorewrite with st
  | |- valid_slot _ (tokens (store_st _ _ _)) _ = true =>
      apply valid_store_cur; intros; discriminate
  end.

Section Unary.
Variable buffer : Z → ascii.
Variable length : Z.
Variable capacity : Z.
Variable simple : bool.

Local Abbreviation unary_value := (unary_value capacity).
Local Abbreviation unary_loop := (unary_loop capacity).
Local Abbreviation unary_call := (unary_call capacity).

Ltac use_specs :=
  repeat match goal with
  | Hs : unary_value ?pv, E : ?pv _ _ = Some _ |- _ =>
      apply Hs in E; [destruct E as (? & ? & ?)|solve [nn]]
  | Hs : unary_call ?pv, E : ?pv _ _ = Some _ |- _ =>
      apply Hs in E; [destruct E as (? & ?)|solve [nn]]
  | Hs : unary_loop ?pv, E : ?pv _ _ _ = Some _ |- _ =>
      apply Hs in E; [destruct E as (? & ?)|solve [nn]|solve [nn]]
  end.

Lemma unary_object_body loop :
  unary_loop loop → unary_call (parse_object_body buffer length loop).
Proof.
  intros Hl pos st r st' Hc H. unfold_parser_in H.
  apply Hl in H; [|nn|lia]. destruct H. split; [assumption|]. solve_ext.
Qed.

Lemma unary_array_body loop :
  unary_loop loop → unary_call (parse_array_body buffer length loop).
Proof.
  intros Hl pos st r st' Hc H. unfold_parser_in H.
  repeat step H.
  - split; [nn|]. solve_ext.
  - apply Hl in H; [|nn|lia]. destruct H. split; [assumption|]. solve_ext.
Qed.

Lemma unary_value_body po pa :
  unary_call po → unary_call pa →
  unary_value (parse_value_body buffer length capacity simple po pa).
Proof.
  intros Hpo Hpa pos st r st' Hc H. unfold_parser_in H.
  repeat step H; use_specs;
    (split; [nn|]; split; [solve_ext|]; intros Hr;
     first [congruence | solve_valid]).
Qed.

Lemma unary_object_loop_body pv loop :
  unary_value pv → unary_loop loop →
  unary_loop (parse_object_loop_body buffer length capacity simple pv loop).
Proof.
  intros Hpv Hl pos last st r st' Hc Hlast H. unfold_parser_in H.
  repeat step H; use_specs; (split; [nn|]; solve_ext).
Qed.

Lemma unary_array_loop_body pv loop :
  unary_value pv → unary_loop loop →
  unary_loop (parse_array_loop_body buffer length capacity simple pv loop).
Proof.
  intros Hpv Hl pos last st r st' Hc Hlast H. unfold_parser_in H.
  repeat step H; use_specs; (split; [nn|]; solve_ext).
Qed.

(** Every run keeps the length of the array, the slots outside the
    capacity and the validity of tokens, and a value that did not fail
    has left a valid token at the index it started with. *)
Lemma unary_all fuel :
  unary_value (parse_value buffer length capacity simple fuel) ∧
  unary_loop (parse_object_loop buffer length capacity simple fuel) ∧
  unary_loop (parse_array_loop buffer length capacity simple fuel).
Proof.
  induction fuel as [|n (IHv & IHo & IHa)].
  - repeat split; intros; discriminate.
  - split; [|split].
    + apply unary_value_body.
      * apply unary_object_body, IHo.
      * apply unary_array_body, IHa.
    + apply unary_object_loop_body; assumption.
    + apply unary_array_loop_body; assumption.
Qed.

End Unary.

(** * Facts about the lexer *)

Lemma sz_small x : 0 ≤ x < 18446744073709551616 → sz x = x.
Proof. intros H. unfold sz. apply Z.mod_small. assumption. Qed.

Lemma u32_small x : 0 ≤ x < 4294967296 → u32 x = x.
Proof. intros H. unfold u32. apply Z.mod_small. assumption. Qed.

Lemma stall_cases c :
  stall c = true →
  c = " "%char ∨ c = "009"%char ∨ c = "010"%char ∨ c = "013"%char ∨
  c = "]"%char ∨ c = "}"%char ∨ c = ","%char ∨ c = "="%char ∨ c = ":"%char.
Proof.
  unfold stall, is_token_delimiter, is_whitespace. intros H.
  repeat (apply orb_true_iff in H; destruct H as [H|H]);
    apply Ascii.eqb_eq in H; subst c; tauto.
Qed.

Lemma stall_dispatch c :
  stall c = true →
  (c =c= "{") = false ∧ (c =c= "[") = false ∧ is_number_start c = false ∧
  ((c =c= "t") || (c =c= "f")) = false ∧ (c =c= dquote) = false.
Proof.
  intros H. apply stall_cases in H.
  repeat (destruct H as [H|H]; [subst c; repeat split; reflexivity|]).
  subst c; repeat split; reflexivity.
Qed.

Section LexerFacts.
Variable buffer : Z → ascii.
Variable length : Z.
Hypothesis length_small : length + 1 < 4294967296.

Lemma wbind_fst {A B} (m : W A) (f : A → W B) :
  (wbind m f).1 = (f m.1).1.
Proof. unfold wbind. destruct m as [a l]. simpl. destruct (f a). reflexivity. Qed.

Lemma skip_whitespace_loop_spec n pos :
  0 ≤ pos →
  let r := (skip_whitespace_loop buffer length n pos).1 in
  pos ≤ r ∧ r ≤ Z.max pos length ∧
  ((Z.to_nat (length - pos) ≤ n)%nat → r < length →
   is_whitespace (buffer r) = false).
Proof.
  revert pos. induction n as [|n IH]; intros pos Hp; cbn [skip_whitespace_loop].
  - simpl. split; [lia|]. split; [lia|]. intros; lia.
  - destruct (pos <? length) eqn:E.
    + apply Z.ltb_lt in E. rewrite wbind_fst. cbn [peek fst].
      destruct (is_whitespace (buffer pos)) eqn:W.
      * rewrite sz_small by lia.
        destruct (IH (pos + 1)) as (A & B & C); [lia|].
        split; [lia|]. split; [lia|]. intros Hn. apply C. lia.
      * simpl. split; [lia|]. split; [lia|]. intros; assumption.
    + apply Z.ltb_ge in E. simpl. split; [lia|]. split; [lia|]. intros; lia.
Qed.

Lemma skip_whitespace_spec pos :
  0 ≤ pos →
  pos ≤ (skip_whitespace buffer length pos).1 ∧
  (skip_whitespace buffer length pos).1 ≤ Z.max pos length ∧
  ((skip_whitespace buffer length pos).1 < length →
   is_whitespace (buffer (skip_whitespace buffer length pos).1) = false).
Proof.
  intros Hp. destruct (skip_whitespace_loop_spec (Z.to_nat (length - pos)) pos Hp)
    as (A & B & C).
  split; [exact A|]. split; [exact B|]. intros. apply C; [lia|assumption].
Qed.

Lemma skip_whitespace_stay pos :
  pos < length → is_whitespace (buffer pos) = false →
  (skip_whitespace buffer length pos).1 = pos.
Proof.
  intros Hp W. unfold skip_whitespace.
  destruct (Z.to_nat (length - pos)) as [|n] eqn:E; [lia|].
  cbn [skip_whitespace_loop]. apply Z.ltb_lt in Hp. rewrite Hp.
  rewrite wbind_fst. cbn [peek fst]. rewrite W. reflexivity.
Qed.

(** parse_number *)

Lemma parse_number_loop_spec n start pos d g e :
  0 ≤ start ≤ pos → pos ≤ Z.max start length →
  let r := (parse_number_loop buffer length n start pos d g e).1 in
  r = STRING_NPOS ∨ (pos - start ≤ r ∧ start + r ≤ Z.max pos length).
Proof.
  revert pos d g e. induction n as [|n IH]; intros pos d g e Hs Hp;
    cbn [parse_number_loop].
  - simpl. rewrite sz_small by lia. right. lia.
  - destruct (pos <? length) eqn:E.
    2:{ simpl. rewrite sz_small by lia. right. lia. }
    apply Z.ltb_lt in E. rewrite wbind_fst. cbn [peek fst].
    assert (S1 : pos ⊕ 1 = pos + 1) by (apply sz_small; lia).
    repeat match goal with
    | |- context [if ?c then _ else _] =>
        lazymatch c with
        | context [if _ then _ else _] => fail
        | _ => destruct c eqn:?
        end
    | |- context [(wbind _ _).1] => rewrite wbind_fst; cbn [peek fst]
    end;
    try (left; reflexivity);
    try (simpl; rewrite sz_small by lia; right; lia);
    rewrite ?S1; rewrite ?(sz_small (pos + 1 + 1)) by lia;
    match goal with
    | |- context [parse_number_loop _ _ n start ?p ?a ?b ?c] =>
        destruct (IH p a b c) as [->|?]; [lia|lia|left; reflexivity|right; lia]
    end.
Qed.

Lemma parse_number_spec pos :
  0 ≤ pos < length →
  (parse_number buffer length pos).1 = STRING_NPOS ∨
  (0 ≤ (parse_number buffer length pos).1 ∧
   pos + (parse_number buffer length pos).1 ≤ length).
Proof.
  intros Hp. set (r := (parse_number buffer length pos).1).
  destruct (parse_number_loop_spec (Z.to_nat (length - pos)) pos pos
              false false false) as [H|H]; [lia|lia|left; exact H|right].
  fold (parse_number buffer length pos) in H. fold r in H. lia.
Qed.

Lemma parse_number_progress pos :
  0 ≤ pos < length → is_token_delimiter (buffer pos) = false →
  (parse_number buffer length pos).1 = STRING_NPOS ∨
  1 ≤ (parse_number buffer length pos).1.
Proof.
  intros Hp D. unfold parse_number.
  destruct (Z.to_nat (length - pos)) as [|n] eqn:E; [lia|].
  cbn [parse_number_loop]. destruct (pos <? length) eqn:L;
    [|apply Z.ltb_ge in L; lia].
  rewrite wbind_fst. cbn [peek fst]. rewrite D.
  assert (S1 : pos ⊕ 1 = pos + 1) by (apply sz_small; lia).
  repeat match goal with
  | |- context [if ?c then _ else _] =>
      lazymatch c with
      | context [if _ then _ else _] => fail
      | _ => destruct c eqn:?
      end
  | |- context [(wbind _ _).1] => rewrite wbind_fst; cbn [peek fst]
  end;
  try (left; reflexivity);
  rewrite ?S1; rewrite ?(sz_small (pos + 1 + 1)) by lia;
  match goal with
  | |- context [parse_number_loop _ _ n pos ?p ?a ?b ?c] =>
      destruct (parse_number_loop_spec n pos p a b c) as [->|?];
        [lia|lia|left; reflexivity|right; lia]
  end.
Qed.

(** parse_string *)

Lemma unicode_escape_spec n pos :
  0 ≤ pos ≤ length →
  match (unicode_escape buffer length n pos).1 with
  | Some r => pos ≤ r ≤ length
  | None => True
  end.
Proof.
  revert pos. induction n as [|n IH]; intros pos Hp; cbn [unicode_escape].
  - simpl. lia.
  - destruct (pos <? length) eqn:E; [|simpl; lia].
    apply Z.ltb_lt in E. rewrite sz_small by lia.
    rewrite wbind_fst. cbn [peek fst].
    destruct (is_hex_digit (buffer (pos + 1))); [|exact I].
    specialize (IH (pos + 1)).
    destruct (unicode_escape buffer length n (pos + 1)).1; [|exact I]. lia.
Qed.

Lemma parse_string_loop_spec n start pos simple :
  0 ≤ start ≤ pos → pos ≤ length →
  let r := (parse_string_loop buffer length n start pos simple).1 in
  r = STRING_NPOS ∨
  (pos - start ≤ r ∧ start + r ≤ length ∧
   (simple = false → start + r < length)).
Proof.
  revert pos. induction n as [|n IH]; intros pos Hs Hp;
    cbn [parse_string_loop].
  - destruct simple; simpl; [|left; reflexivity].
    rewrite sz_small by lia. right. split; [lia|]. split; [lia|]. discriminate.
  - assert (S0 : pos ⊖ start = pos - start) by (apply sz_small; lia).
    destruct (pos <? length) eqn:E.
    2:{ destruct simple; simpl; [|left; reflexivity].
        rewrite S0. right. split; [lia|]. split; [lia|]. discriminate. }
    apply Z.ltb_lt in E. rewrite wbind_fst. cbn [peek fst].
    assert (S1 : pos ⊕ 1 = pos + 1) by (apply sz_small; lia).
    destruct (simple && _) eqn:C1.
    { simpl. rewrite S0. right. split; [lia|]. split; [lia|]. intros ->.
      discriminate. }
    destruct (buffer pos =c= dquote) eqn:C2.
    { simpl. rewrite S0. right. split; [lia|]. split; [lia|]. intros; lia. }
    rewrite S1.
    destruct ((buffer pos =c= "\") && (pos + 1 <? length)) eqn:C3.
    2:{ destruct (IH (pos + 1)) as [->|?]; [lia|lia|left; reflexivity|right; intuition lia]. }
    apply andb_true_iff in C3. destruct C3 as [_ C3]. apply Z.ltb_lt in C3.
    rewrite wbind_fst. cbn [peek fst].
    destruct (is_simple_escape _).
    { destruct (IH (pos + 1)) as [->|?]; [lia|lia|left; reflexivity|right; intuition lia]. }
    destruct (_ =c= "u"); [|left; reflexivity].
    rewrite wbind_fst.
    pose proof (unicode_escape_spec 4 (pos + 1)) as U.
    destruct (unicode_escape buffer length 4 (pos + 1)).1 as [p|];
      [|left; reflexivity].
    destruct (IH p) as [->|?]; [lia|lia|left; reflexivity|right; intuition lia].
Qed.

Lemma parse_string_spec pos simple :
  0 ≤ pos ≤ length →
  (parse_string buffer length pos simple).1 = STRING_NPOS ∨
  (0 ≤ (parse_string buffer length pos simple).1 ∧
   pos + (parse_string buffer length pos simple).1 ≤ length ∧
   (simple = false →
    pos + (parse_string buffer length pos simple).1 < length)).
Proof.
  intros Hp. set (r := (parse_string buffer length pos simple).1).
  destruct (parse_string_loop_spec (Z.to_nat (length - pos)) pos pos simple)
    as [H|H]; [lia|lia|left; exact H|right].
  fold (parse_string buffer length pos simple) in H. fold r in H.
  intuition lia.
Qed.

Lemma parse_string_progress pos :
  0 ≤ pos < length → stall (buffer pos) = false →
  (buffer pos =c= dquote) = false →
  (parse_string buffer length pos true).1 = STRING_NPOS ∨
  1 ≤ (parse_string buffer length pos true).1.
Proof.
  intros Hp St Q. unfold parse_string.
  destruct (Z.to_nat (length - pos)) as [|n] eqn:E; [lia|].
  cbn [parse_string_loop]. destruct (pos <? length) eqn:L;
    [|apply Z.ltb_ge in L; lia].
  rewrite wbind_fst. cbn [peek fst]. unfold stall in St.
  rewrite <- !orb_assoc in St. rewrite orb_assoc in St.
  cbn [andb]. rewrite <- !orb_assoc. rewrite orb_assoc, St, Q.
  assert (S1 : pos ⊕ 1 = pos + 1) by (apply sz_small; lia). rewrite S1.
  destruct (_ && _) eqn:C3.
  2:{ destruct (parse_string_loop_spec n pos (pos + 1) true) as [->|?];
        [lia|lia|left; reflexivity|right; lia]. }
  apply andb_true_iff in C3. destruct C3 as [_ C3]. apply Z.ltb_lt in C3.
  rewrite wbind_fst. cbn [peek fst].
  destruct (is_simple_escape _).
  { destruct (parse_string_loop_spec n pos (pos + 1) true) as [->|?];
      [lia|lia|left; reflexivity|right; lia]. }
  destruct (_ =c= "u"); [|left; reflexivity].
  rewrite wbind_fst.
  pose proof (unicode_escape_spec 4 (pos + 1)) as U.
  destruct (unicode_escape buffer length 4 (pos + 1)).1 as [p|];
    [|left; reflexivity].
  destruct (parse_string_loop_spec n pos p true) as [->|?];
    [lia|lia|left; reflexivity|right; lia].
Qed.

Lemma parse_string_stall pos :
  pos < length → stall (buffer pos) = true →
  (parse_string buffer length pos true).1 = 0.
Proof.
  intros Hp St. unfold parse_string.
  destruct (Z.to_nat (length - pos)) as [|n] eqn:E; [lia|].
  cbn [parse_string_loop]. apply Z.ltb_lt in Hp. rewrite Hp.
  rewrite wbind_fst. cbn [peek fst andb]. unfold stall in St.
  rewrite <- !orb_assoc in St. rewrite orb_assoc in St.
  rewrite <- !orb_assoc. rewrite orb_assoc, St. simpl.
  unfold sz. rewrite Z.sub_diag. reflexivity.
Qed.

Lemma number_start_not_delimiter c :
  is_number_start c = true → is_token_delimiter c = false.
Proof.
  unfold is_number_start, is_token_delimiter, is_whitespace. intros H.
  repeat match goal with
  | |- context [c =c= ?d] =>
      let X := fresh in
      destruct (c =c= d) eqn:X;
      [apply Ascii.eqb_eq in X; subst c; vm_compute in H; discriminate H|]
  end.
  reflexivity.
Qed.

Lemma stall_not_number_start c :
  stall c = true → is_number_start c = false.
Proof.
  intros H. destruct (is_number_start c) eqn:N; [|reflexivity].
  unfold stall in H. rewrite (number_start_not_delimiter c N) in H.
  unfold is_number_start in N. simpl in H.
  apply orb_true_iff in H.
  destruct H as [H|H]; apply Ascii.eqb_eq in H; subst c; vm_compute in N;
    discriminate N.
Qed.

Lemma skip_terminating_quote_spec simple pos string :
  0 ≤ pos → 0 ≤ string → pos + string ≤ length →
  (simple = false → pos + string < length) →
  string ≤ (skip_terminating_quote buffer length simple pos string).1
         ≤ string + 1 ∧
  pos + (skip_terminating_quote buffer length simple pos string).1 ≤ length.
Proof.
  intros Hp Hs Hl Hq. unfold skip_terminating_quote.
  destruct simple; cbn [negb].
  - rewrite (sz_small (pos + string)) by lia.
    destruct (pos + string <? length) eqn:E; [|simpl; lia].
    apply Z.ltb_lt in E. rewrite wbind_fst. cbn [peek fst wret].
    destruct (_ =c= dquote); [rewrite sz_small by lia|]; lia.
  - specialize (Hq eq_refl). simpl. rewrite sz_small by lia. lia.
Qed.

Lemma skip_terminating_quote_none pos string :
  0 ≤ pos → 0 ≤ string → pos + string < length →
  (buffer (pos + string) =c= dquote) = false →
  (skip_terminating_quote buffer length true pos string).1 = string.
Proof.
  intros Hp Hs Hl Hq. unfold skip_terminating_quote. cbn [negb].
  rewrite (sz_small (pos + string)) by lia.
  apply Z.ltb_lt in Hl. rewrite Hl. rewrite wbind_fst. cbn [peek fst wret].
  rewrite Hq. reflexivity.
Qed.

Lemma literal_follows_spec c first pos rest n :
  0 ≤ pos ≤ length → 0 ≤ n →
  (literal_follows buffer length c first pos rest n).1 = true →
  pos + n + 1 ≤ length.
Proof.
  intros Hp Hn. unfold literal_follows.
  rewrite (sz_small (length - pos)) by lia.
  destruct (_ && _) eqn:E; [|discriminate].
  apply andb_true_iff in E. destruct E as [_ E]. apply Z.leb_le in E.
  intros _. lia.
Qed.

Lemma skip_whitespace_beyond pos :
  length ≤ pos → skip_whitespace buffer length pos = (pos, []).
Proof.
  intros H. unfold skip_whitespace.
  replace (Z.to_nat (length - pos)) with O by lia. reflexivity.
Qed.

Lemma implicit_terminator_true simple pos :
  (implicit_terminator buffer length simple pos).1 = true →
  simple = true ∧ pos < length.
Proof.
  unfold implicit_terminator. destruct (simple && (pos <? length)) eqn:E;
    [|discriminate].
  apply andb_true_iff in E. destruct E as [E1 E2]. apply Z.ltb_lt in E2.
  intros _. split; assumption.
Qed.

End LexerFacts.

(** * Two runs with different arrays proceed in step *)

Ltac unfold_parser :=
  cbv beta iota zeta delta
    [parse_value_body parse_object_loop_body parse_object_body
     parse_array_loop_body parse_array_body parse_value_string
     bind ret lex load get_current incr_current store is_valid_token
     set_token_primitive set_token_complex set_token_id set_token_sibling
     out_of_fuel].

Section Simulation.
Variable buffer : Z → ascii.
Variable length : Z.
Variable simple : bool.
Variable cap1 cap2 : Z.
Hypothesis length_size : length ≤ STRING_NPOS.

Local Abbreviation sim_object_loop := (sim_object_loop length cap1 cap2).

Lemma in_step_intro s1 s2 :
  current s1 = current s2 → reads s1 = reads s2 → in_step s1 s2.
Proof. split; assumption. Qed.

Ltac solve_E :=
  apply in_step_intro; autorewrite with st;
  repeat match goal with
  | H : in_step _ _ |- _ => destruct H as [? ?]
  end; congruence.

(** The next pair of calls, one in each run. *)
Ltac bcall tac :=
  match goal with
  | Hs : sim_call ?p1 ?p2 |- context [?p1 ?a ?X1] =>
      match goal with
      | |- context [p2 ?b ?X2] =>
          let A := fresh "A" in
          assert (A : agree (p1 a X1) (p2 b X2))
            by (apply Hs; [solve_E|nn]);
          let r1 := fresh "r" in let t1 := fresh "t" in
          let r2 := fresh "r" in let t2 := fresh "t" in
          destruct (p1 a X1) as [[r1 t1]|] eqn:?;
          destruct (p2 b X2) as [[r2 t2]|] eqn:?;
          cbn [agree] in A; try contradiction;
          [destruct A as [? A]; subst r2|];
          cbv beta iota zeta
      end
  end.

Ltac bstep :=
  lazymatch goal with
  | |- ?t =>
      let c := scrutinee t in
      lazymatch type of c with
      | bool => destruct c eqn:?; cbv beta iota zeta
      end
  end.

Ltac bleaf :=
  lazymatch goal with
  | |- True => exact I
  | |- _ = _ ∧ in_step _ _ => split; [reflexivity|solve_E]
  end.

Lemma sim_object_body l1 l2 :
  sim_object_loop l1 l2 →
  sim_call (parse_object_body buffer length l1)
           (parse_object_body buffer length l2).
Proof.
  intros Hl pos s1 s2 HE Hc. unfold_parser.
  apply Hl; [solve_E|nn|lia|]. intros _ X. congruence.
Qed.

Lemma sim_value_body po1 po2 pa1 pa2 :
  sim_call po1 po2 → sim_call pa1 pa2 →
  sim_call (parse_value_body buffer length cap1 simple po1 pa1)
           (parse_value_body buffer length cap2 simple po2 pa2).
Proof.
  intros Hpo Hpa pos s1 s2 HE Hc. unfold agree. unfold_parser.
  repeat first [bstep | bcall idtac | bleaf].
Qed.

(** The next pair of iterations, one in each run. *)
Ltac bloop Hs tac :=
  lazymatch type of Hs with
  | _ ?l1 ?l2 =>
      match goal with
      | |- context [l1 ?a ?b ?X1] =>
          match goal with
          | |- context [l2 ?a' ?b' ?X2] =>
              let A := fresh "A" in
              assert (A : agree (l1 a b X1) (l2 a' b' X2))
                by (replace b' with b by (autorewrite with st; congruence);
                    replace a' with a by (autorewrite with st; congruence);
                    apply Hs; tac);
              destruct (l1 a b X1) as [[? ?]|];
              destruct (l2 a' b' X2) as [[? ?]|];
              cbn [agree] in A; try contradiction;
              cbv beta iota zeta; try exact A; try exact I
          end
      end
  end.

Ltac use_unary U :=
  lazymatch type of U with
  | unary_value _ ?pv =>
      match goal with
      | X : pv _ _ = Some _ |- _ =>
          apply U in X; [destruct X as (? & ? & ?)|nn]
      end
  end.

Ltac E_facts :=
  repeat match goal with
  | H : in_step _ _ |- _ => destruct H as [? ?]
  end.

Lemma sim_array_loop_body pv1 pv2 l1 l2 :
  unary_value cap1 pv1 → unary_value cap2 pv2 →
  sim_call pv1 pv2 → sim_array_loop l1 l2 →
  sim_array_loop (parse_array_loop_body buffer length cap1 simple pv1 l1)
                 (parse_array_loop_body buffer length cap2 simple pv2 l2).
Proof.
  intros U1 U2 Hpv Hl pos last s1 s2 HE Hc Hlast. unfold agree.
  assert (Hc2 : 0 ≤ current s2) by (destruct HE; congruence).
  unfold_parser.
  repeat first [bstep | bcall idtac | bleaf].
  all: use_unary U1; use_unary U2.
  all: E_facts.
  all: bloop Hl ltac:(solve [solve_E | nn]).
Qed.

Lemma sim_array_body l1 l2 :
  sim_array_loop l1 l2 →
  sim_call (parse_array_body buffer length l1)
           (parse_array_body buffer length l2).
Proof.
  intros Hl pos s1 s2 HE Hc. unfold agree. unfold_parser.
  repeat first [bstep | bleaf].
  bloop Hl ltac:(solve [solve_E | nn | lia]).
Qed.

Lemma scan_failed r :
  (skip_whitespace buffer length r).1 < length → r ≠ STRING_NPOS.
Proof.
  intros H ->. rewrite skip_whitespace_beyond in H by assumption.
  simpl in H. lia.
Qed.

Ltac valid_pre :=
  let Hp := fresh "Hp" in let Hn := fresh "Hn" in
  intros Hp Hn;
  first
    [ exfalso; apply Hn; reflexivity
    | apply scan_failed in Hp;
      repeat match goal with
      | Hv : ?r ≠ STRING_NPOS → _ |- _ => specialize (Hv Hp)
      end;
      autorewrite with st in *; split; congruence ].

Lemma sim_object_loop_body pv1 pv2 l1 l2 :
  unary_value cap1 pv1 → unary_value cap2 pv2 →
  sim_call pv1 pv2 → sim_object_loop l1 l2 →
  sim_object_loop (parse_object_loop_body buffer length cap1 simple pv1 l1)
                  (parse_object_loop_body buffer length cap2 simple pv2 l2).
Proof.
  intros U1 U2 Hpv Hl pos last s1 s2 HE Hc Hlast V. unfold agree.
  assert (Hc2 : 0 ≤ current s2) by (destruct HE; congruence).
  unfold_parser.
  destruct (pos <? length) eqn:Hpos; cbv beta iota zeta; [|bleaf].
  apply Z.ltb_lt in Hpos.
  destruct (last =? 0) eqn:Hl0; cbn [negb]; cbv beta iota zeta.
  - repeat first [bstep | bcall idtac | bleaf].
    all: use_unary U1; use_unary U2.
    all: E_facts.
    all: bloop Hl ltac:(first [solve [solve_E | nn] | valid_pre]).
  - apply Z.eqb_neq in Hl0. destruct (V Hpos Hl0) as [V1 V2].
    repeat first
      [ progress (autorewrite with st; rewrite ?V1, ?V2; cbn [negb];
                  cbv beta iota zeta)
      | bstep | bleaf ].
    E_facts.
    bloop Hl ltac:(first [solve [solve_E | nn | lia] | valid_pre]).
Qed.

(** Two runs on the same buffer, with any two arrays and capacities,
    stay in step: same positions, same logical index, same reads. *)
Lemma sim_all fuel :
  sim_call (parse_value buffer length cap1 simple fuel)
           (parse_value buffer length cap2 simple fuel) ∧
  sim_object_loop (parse_object_loop buffer length cap1 simple fuel)
                  (parse_object_loop buffer length cap2 simple fuel) ∧
  sim_array_loop (parse_array_loop buffer length cap1 simple fuel)
                 (parse_array_loop buffer length cap2 simple fuel).
Proof.
  induction fuel as [|n (IHv & IHo & IHa)].
  - repeat split; repeat intro; exact I.
  - split; [|split].
    + apply sim_value_body.
      * apply sim_object_body, IHo.
      * apply sim_array_body, IHa.
    + apply sim_object_loop_body; try assumption; apply unary_all.
    + apply sim_array_loop_body; try assumption; apply unary_all.
Qed.

End Simulation.

(** * The shape of the tokens *)

Section Shape.
Variable length : Z.
Variable capacity : Z.
Hypothesis length_nonneg : 0 ≤ length.

Local Abbreviation key_ok := (key_ok length).
Local Abbreviation shape_ok := (shape_ok length).
Local Abbreviation slot := (slot capacity).
Local Abbreviation WF := (WF length capacity).
Local Abbreviation pending := (pending length capacity).
Local Abbreviation keeps := (keeps capacity).
Local Abbreviation key_kept := (key_kept capacity).

Lemma slot_add_reads l st i : slot (add_reads l st) i = slot st i.
Proof. reflexivity. Qed.

Lemma slot_incr_st st i : slot (incr_st st) i = slot st i.
Proof. reflexivity. Qed.

Lemma slot_store idx f st i :
  0 ≤ idx →
  slot (store_st (get_token capacity idx) f st) i =
  if decide (i = idx) then f <$> slot st i else slot st i.
Proof.
  intros H. unfold slot, get_token, store_st.
  destruct (idx <? capacity) eqn:E.
  - cbn [tokens]. destruct ((0 <=? i) && (i <? capacity)) eqn:B.
    + apply andb_true_iff in B. destruct B as [B1 B2].
      apply Z.leb_le in B1. rewrite list_lookup_alter.
      destruct (decide (i = idx)) as [->|n].
      * rewrite decide_True; reflexivity.
      * rewrite decide_False; [reflexivity|lia].
    + destruct (decide (i = idx)); reflexivity.
  - destruct (decide (i = idx)) as [->|n]; [|reflexivity].
    rewrite E, andb_false_r. reflexivity.
Qed.

Lemma same_token_refl b t : same_token b t t.
Proof. repeat split. Qed.

Lemma same_token_trans b t1 t2 t3 :
  same_token b t1 t2 → same_token b t2 t3 → same_token b t1 t3.
Proof.
  intros (A1 & A2 & A3 & A4 & A5 & A6 & A7) (B1 & B2 & B3 & B4 & B5 & B6 & B7).
  repeat split; try congruence. intros H. rewrite B7, A7; auto.
Qed.

Lemma keeps_refl st : keeps st st.
Proof. intros i t' _ H. exists t'. split; [exact H|apply same_token_refl]. Qed.

Lemma keeps_trans a b c :
  keeps a b → keeps b c → current a ≤ current b → keeps a c.
Proof.
  intros H1 H2 Hc i t' Hi Ht.
  destruct (H2 i t') as (t2 & Ht2 & S2); [lia|exact Ht|].
  destruct (H1 i t2) as (t1 & Ht1 & S1); [lia|exact Ht2|].
  exists t1. split; [exact Ht1|]. eapply same_token_trans; eassumption.
Qed.

(** ** Each state transformer keeps the invariants *)

Lemma WF_add_reads l st : WF st → WF (add_reads l st).
Proof. intros H. exact H. Qed.

Lemma WF_store_above idx f st :
  WF st → 0 ≤ current st ≤ idx →
  WF (store_st (get_token capacity idx) f st).
Proof.
  intros H Hi i t Hc Ht. rewrite current_store_st in *.
  rewrite slot_store in Ht by lia. rewrite decide_False in Ht by lia.
  apply H; assumption.
Qed.

Lemma shape_ok_mono cur cur' i t :
  shape_ok cur i t → cur ≤ cur' → shape_ok cur' i t.
Proof.
  intros (A & B & C) H. split; [exact A|]. split; [|exact C].
  destruct B; [left; assumption|right; lia].
Qed.

Lemma WF_emit idx f st :
  WF st → idx = current st → 0 ≤ idx → idx + 1 < 4294967296 →
  (1 ≤ idx → pending st) →
  (∀ t, (1 ≤ idx → key_ok t) → shape_ok (idx + 1) idx (f t)) →
  WF (incr_st (store_st (get_token capacity idx) f st)).
Proof.
  intros H -> H0 Hs Hp Hf i t Hc Ht.
  rewrite current_incr_st, current_store_st in *.
  rewrite u32_small in * by lia. rewrite slot_incr_st in Ht.
  rewrite slot_store in Ht by lia.
  destruct (decide (i = current st)) as [->|n].
  - destruct (slot st (current st)) as [t0|] eqn:S; [|discriminate].
    injection Ht as <-. apply Hf. intros H1. apply (Hp H1). exact S.
  - apply shape_ok_mono with (current st); [|lia]. apply H; [lia|exact Ht].
Qed.

Lemma WF_emit_primitive idx ty v l st :
  WF st → idx = current st → 0 ≤ idx → idx + 1 < 4294967296 →
  (1 ≤ idx → pending st) →
  ty = JSON_STRING ∨ ty = JSON_PRIMITIVE →
  0 ≤ v → 0 ≤ l → v + l ≤ length → length < 4294967296 →
  WF (incr_st (store_st (get_token capacity idx) (write_primitive ty v l) st)).
Proof.
  intros H Hi H0 Hs Hp Hty Hv Hl Hvl Hlen.
  apply WF_emit; try assumption.
  intros t Hk. unfold shape_ok, write_primitive. cbn.
  rewrite !u32_small by lia.
  split; [destruct Hty as [->| ->]; repeat split; lia|].
  split; [left; reflexivity|exact Hk].
Qed.

Lemma WF_emit_complex idx ty st :
  WF st → idx = current st → 0 ≤ idx → idx + 1 < 4294967296 →
  (1 ≤ idx → pending st) →
  ty = JSON_OBJECT ∨ ty = JSON_ARRAY →
  WF (incr_st (store_st (get_token capacity idx) (write_complex idx ty) st)).
Proof.
  intros H Hi H0 Hs Hp Hty.
  apply WF_emit; try assumption.
  intros t Hk. unfold shape_ok, write_complex. cbn.
  rewrite !u32_small by lia.
  split; [destruct Hty as [->| ->]; repeat split; lia|].
  split; [left; reflexivity|exact Hk].
Qed.

Lemma WF_store_sibling last s st :
  WF st → 1 ≤ last < s → s ≤ current st →
  WF (store_st (get_token capacity last) (write_sibling s) st).
Proof.
  intros H Hl Hs i t Hc Ht. rewrite current_store_st in *.
  rewrite slot_store in Ht by lia.
  destruct (decide (i = last)) as [->|n]; [|apply H; assumption].
  destruct (slot st last) as [t0|] eqn:S; [|discriminate].
  injection Ht as <-. destruct (H last t0 Hc S) as (A & B & C).
  split; [exact A|]. split; [right; cbn; lia|exact C].
Qed.

Lemma pending_add_reads l st : pending st → pending (add_reads l st).
Proof. intros H. exact H. Qed.

Lemma pending_store_id idx a b st :
  idx = current st → 0 ≤ idx →
  0 ≤ a → 0 ≤ b → a + b ≤ length → length < 4294967296 →
  pending (store_st (get_token capacity idx) (write_id a b) st).
Proof.
  intros -> H0 Ha Hb Hab Hlen t Ht. rewrite current_store_st in Ht.
  rewrite slot_store in Ht by lia. rewrite decide_True in Ht by reflexivity.
  destruct (slot st (current st)); [|discriminate]. injection Ht as <-.
  unfold key_ok, write_id. cbn. rewrite !u32_small by lia. lia.
Qed.

Lemma keeps_add_reads st0 l st : keeps st0 st → keeps st0 (add_reads l st).
Proof. intros H. exact H. Qed.

Lemma keeps_incr st0 st : keeps st0 st → keeps st0 (incr_st st).
Proof. intros H. exact H. Qed.

Lemma keeps_store_above st0 idx f st :
  keeps st0 st → 0 ≤ idx → current st0 ≤ idx →
  keeps st0 (store_st (get_token capacity idx) f st).
Proof.
  intros H H0 Hi i t' Hc Ht. rewrite slot_store in Ht by lia.
  rewrite decide_False in Ht by lia. apply H; assumption.
Qed.

Lemma keeps_store_sibling st0 last s st :
  keeps st0 st → 1 ≤ last →
  keeps st0 (store_st (get_token capacity last) (write_sibling s) st).
Proof.
  intros H Hl i t' Hc Ht. rewrite slot_store in Ht by lia.
  destruct (decide (i = last)) as [->|n]; [|apply H; assumption].
  destruct (slot st last) as [t1|] eqn:S; [|discriminate].
  injection Ht as <-. destruct (H last t1 Hc S) as (t & Ht & Hs).
  exists t. split; [exact Ht|]. eapply same_token_trans; [exact Hs|].
  repeat split. intros X. apply Z.eqb_eq in X. lia.
Qed.

Lemma key_kept_refl st : key_kept st st.
Proof. intros t' H. exists t'. repeat split. exact H. Qed.

Lemma key_kept_add_reads st0 l st :
  key_kept st0 st → key_kept st0 (add_reads l st).
Proof. intros H. exact H. Qed.

Lemma key_kept_incr st0 st : key_kept st0 st → key_kept st0 (incr_st st).
Proof. intros H. exact H. Qed.

Lemma key_kept_store st0 idx f st :
  key_kept st0 st → 0 ≤ idx → keeps_id f →
  key_kept st0 (store_st (get_token capacity idx) f st).
Proof.
  intros H H0 Hf t' Ht. rewrite slot_store in Ht by lia.
  destruct (decide (current st0 = idx)) as [e|n]; [|apply H; assumption].
  destruct (slot st (current st0)) as [t1|] eqn:S; [|discriminate].
  injection Ht as <-. destruct (H t1 S) as (t & Ht & A & B).
  exists t. split; [exact Ht|]. destruct (Hf t1). split; congruence.
Qed.

Lemma key_kept_keeps st0 st st' :
  key_kept st0 st → keeps st st' → current st0 < current st →
  key_kept st0 st'.
Proof.
  intros H K Hc t' Ht. destruct (K (current st0) t' Hc Ht) as (t1 & Ht1 & S).
  destruct (H t1 Ht1) as (t & Ht0 & A & B). exists t. split; [exact Ht0|].
  destruct S as (_ & S2 & S3 & _). split; congruence.
Qed.

Lemma keeps_id_primitive ty a b : keeps_id (write_primitive ty a b).
Proof. intros t. split; reflexivity. Qed.

Lemma keeps_id_complex ty a : keeps_id (write_complex a ty).
Proof. intros t. split; reflexivity. Qed.

Lemma keeps_id_sibling a : keeps_id (write_sibling a).
Proof. intros t. split; reflexivity. Qed.

End Shape.

(** * The specification of the mutual recursion *)

(** Booleans to propositions, machine arithmetic to integers, and the
    facts about every scan that occurs. *)
Ltac bool_facts :=
  repeat match goal with
  | H : (_ <? _) = true |- _ => apply Z.ltb_lt in H
  | H : (_ <? _) = false |- _ => apply Z.ltb_ge in H
  | H : (_ <=? _) = true |- _ => apply Z.leb_le in H
  | H : (_ <=? _) = false |- _ => apply Z.leb_gt in H
  | H : (_ =? _) = true |- _ => apply Z.eqb_eq in H
  | H : (_ =? _) = false |- _ => apply Z.eqb_neq in H
  | H : negb _ = true |- _ => apply negb_true_iff in H
  | H : negb _ = false |- _ => apply negb_false_iff in H
  | H : (_ && _) = true |- _ => apply andb_true_iff in H; destruct H
  | H : (_ || _) = false |- _ => apply orb_false_iff in H; destruct H
  end.

Ltac name_lex T :=
  let x := fresh "x" in set (x := T) in *.

Ltac lex_fact T :=
  let length_small :=
    lazymatch goal with H : _ + 1 < 4294967296 |- _ => H end in
  lazymatch T with
  | (skip_whitespace ?b ?l ?p).1 =>
      pose proof (skip_whitespace_spec b l length_small p ltac:(lia))
  | (parse_number ?b ?l ?p).1 =>
      pose proof (parse_number_spec b l length_small p ltac:(lia));
      try pose proof (parse_number_progress b l length_small p ltac:(lia)
                        ltac:(apply number_start_not_delimiter; assumption))
  | (parse_string ?b ?l ?p ?s).1 =>
      pose proof (parse_string_spec b l length_small p s ltac:(lia))
  | (skip_terminating_quote ?b ?l ?s ?p ?n).1 =>
      pose proof (skip_terminating_quote_spec b l length_small s p n
                    ltac:(lia) ltac:(lia) ltac:(lia)
                    ltac:(intros; intuition lia))
  | (literal_follows ?b ?l ?c ?f ?p ?r ?n).1 =>
      try match goal with
      | E : (literal_follows b l c f p r n).1 = true |- _ =>
          pose proof (literal_follows_spec b l length_small c f p r n
                        ltac:(lia) ltac:(lia) E)
      end
  | (no_separator _ _ _).1 => idtac
  | (implicit_terminator _ _ _ _).1 => idtac
  end;
  unfold STRING_NPOS in *;
  name_lex T.

Ltac norm_step :=
  match goal with
  | H : context [sz ?x] |- _ => rewrite (sz_small x) in * by lia
  | |- context [sz ?x] => rewrite (sz_small x) in * by lia
  | H : context [u32 ?x] |- _ => rewrite (u32_small x) in * by lia
  | |- context [u32 ?x] => rewrite (u32_small x) in * by lia
  | H : context [?x + 1 - 1] |- _ => rewrite (Z.add_simpl_r x 1) in *
  | |- context [?x + 1 - 1] => rewrite (Z.add_simpl_r x 1) in *
  | H : context [(?f ?a).1] |- _ => lex_fact (f a).1
  | |- context [(?f ?a).1] => lex_fact (f a).1
  end.

Ltac norm :=
  bool_facts; unfold STRING_NPOS in *; autorewrite with st in *;
  cbn [peek fst snd] in *;
  repeat norm_step.

Section Specs.
Variable buffer : Z → ascii.
Variable length : Z.
Variable capacity : Z.
Variable simple : bool.
Hypothesis length_nonneg : 0 ≤ length.
Hypothesis length_small : length + 1 < 4294967296.

Local Abbreviation WF := (WF length capacity).
Local Abbreviation pending := (pending length capacity).
Local Abbreviation keeps := (keeps capacity).
Local Abbreviation key_kept := (key_kept capacity).
Local Abbreviation phi := (phi length).
Local Abbreviation zero_width := (zero_width buffer length simple).
Local Abbreviation describes := (describes buffer length simple).
Local Abbreviation value_pre := (value_pre length capacity).
Local Abbreviation value_post := (value_post buffer length capacity simple).
Local Abbreviation value_spec := (value_spec buffer length capacity simple).
Local Abbreviation loop_pre := (loop_pre length capacity).
Local Abbreviation loop_post := (loop_post length capacity).
Local Abbreviation object_loop_spec := (object_loop_spec length capacity simple).
Local Abbreviation array_loop_spec := (array_loop_spec buffer length capacity simple).
Local Abbreviation call_spec := (call_spec length capacity).

Ltac arith :=
  unfold phi, STRING_NPOS in *; autorewrite with st;
  repeat (rewrite u32_small by lia); lia.

Ltac solve_pending :=
  repeat lazymatch goal with
  | H : pending ?s |- pending ?s => exact H
  | H : _ → pending ?s |- pending ?s => apply H; arith
  | |- pending (add_reads _ _) => apply pending_add_reads
  | |- pending (store_st (get_token _ _) (write_id _ _) _) =>
      apply pending_store_id; [arith..]
  end.

Ltac side :=
  first [ assumption | left; reflexivity | right; reflexivity | arith
        | intros; solve_pending ].

Ltac solve_WF :=
  lazymatch goal with
  | H : WF ?s |- WF ?s => exact H
  | |- WF (add_reads _ _) => apply WF_add_reads; solve_WF
  | |- WF (incr_st (store_st _ (write_primitive _ _ _) _)) =>
      apply WF_emit_primitive; [solve_WF|side..]
  | |- WF (incr_st (store_st _ (write_complex _ _) _)) =>
      apply WF_emit_complex; [solve_WF|side..]
  | |- WF (store_st _ (write_sibling _) _) =>
      apply WF_store_sibling; [solve_WF|side..]
  | |- WF (store_st _ (write_id _ _) _) =>
      apply WF_store_above; [solve_WF|side..]
  end.

Ltac solve_keeps :=
  lazymatch goal with
  | |- keeps ?s ?s => apply keeps_refl
  | H : keeps ?a ?b |- keeps _ ?b =>
      apply (keeps_trans _ _ a b); [solve_keeps|exact H|side]
  | |- keeps _ (add_reads _ _) => apply keeps_add_reads; solve_keeps
  | |- keeps _ (incr_st _) => apply keeps_incr; solve_keeps
  | |- keeps _ (store_st _ (write_sibling _) _) =>
      apply keeps_store_sibling; [solve_keeps|side..]
  | |- keeps _ (store_st _ _ _) =>
      apply keeps_store_above; [solve_keeps|side..]
  end.

Ltac solve_key_kept :=
  lazymatch goal with
  | |- key_kept ?s ?s => apply key_kept_refl
  | H : keeps ?a ?b |- key_kept _ ?b =>
      apply (key_kept_keeps _ _ a b); [solve_key_kept|exact H|side]
  | |- key_kept _ (add_reads _ _) => apply key_kept_add_reads; solve_key_kept
  | |- key_kept _ (incr_st _) => apply key_kept_incr; solve_key_kept
  | |- key_kept _ (store_st _ (write_primitive _ _ _) _) =>
      apply key_kept_store;
      [solve_key_kept|side|apply keeps_id_primitive]
  | |- key_kept _ (store_st _ (write_complex _ _) _) =>
      apply key_kept_store;
      [solve_key_kept|side|apply keeps_id_complex]
  | |- key_kept _ (store_st _ (write_sibling _) _) =>
      apply key_kept_store;
      [solve_key_kept|side|apply keeps_id_sibling]
  end.

Ltac solve_loop_pre :=
  constructor; [arith|arith|arith|solve_WF|side].

Ltac use_call Hs H :=
  lazymatch type of H with
  | _ ?a ?X = Some (?r, ?s') =>
      let P := fresh "P" in
      assert (P : loop_post a X r s');
      [apply (Hs a X r s'); [solve_loop_pre|arith|exact H|assumption]
      |destruct P]
  end;
  unfold phi, STRING_NPOS in *; autorewrite with st in *;
  repeat (rewrite u32_small in * by lia).

Lemma describes_same b pos t t' :
  same_token b t t' → describes pos t → describes pos t'.
Proof.
  intros (A1 & _ & _ & A4 & _) H. unfold describes in *.
  rewrite A1, A4. exact H.
Qed.

Lemma tok_emit idx f X pos st :
  idx = current st → current X = current st → 0 ≤ idx →
  (∀ t0, describes pos (f t0)) →
  ∀ t', slot capacity (incr_st (store_st (get_token capacity idx) f X))
          (current st) = Some t' → describes pos t'.
Proof.
  intros -> HX H0 Hf t' Ht. rewrite slot_incr_st, slot_store in Ht by lia.
  rewrite decide_True in Ht by reflexivity.
  destruct (slot capacity X (current st)); [|discriminate].
  injection Ht as <-. apply Hf.
Qed.

Lemma tok_keeps X s' pos st :
  keeps X s' → current st < current X →
  (∀ t, slot capacity X (current st) = Some t → describes pos t) →
  ∀ t', slot capacity s' (current st) = Some t' → describes pos t'.
Proof.
  intros K Hc H t' Ht. destruct (K (current st) t' Hc Ht) as (t & Ht0 & S).
  eapply describes_same; [exact S|]. apply H. exact Ht0.
Qed.

Ltac solve_describes :=
  intros ?; unfold describes; cbn [type value write_primitive write_complex];
  repeat match goal with
  | x := _ |- _ => subst x
  end;
  rewrite ?u32_small by lia;
  repeat match goal with
  | H : ?c = _ |- context [?c] => rewrite H
  end;
  cbn [orb]; rewrite ?orb_true_r;
  first [reflexivity | tauto | split; [lia|reflexivity] | lia
        | split; [lia|assumption] ].

Ltac solve_tok :=
  lazymatch goal with
  | H : keeps ?X ?s |- ∀ t', slot _ ?s _ = Some t' → _ =>
      apply (tok_keeps X s); [exact H|arith|solve_tok]
  | |- ∀ t', slot _ (add_reads _ _) _ = Some t' → _ =>
      let t := fresh "t" in
      intros t; rewrite slot_add_reads; revert t; solve_tok
  | |- ∀ t', slot _ (incr_st (store_st _ _ _)) _ = Some t' → _ =>
      apply tok_emit; [arith|arith|arith|solve_describes]
  end.

Ltac value_leaf :=
  constructor;
  [arith|arith|left; arith|solve_WF|solve_keeps|solve_key_kept|solve_tok].

Lemma zero_width_intro x x0 :
  simple = true → 0 ≤ x < length → is_whitespace (buffer x) = false →
  (buffer x =c= dquote) = false →
  x0 = (parse_string buffer length x simple).1 →
  x0 ≠ STRING_NPOS →
  (skip_terminating_quote buffer length simple x x0).1 = 0 ∧ zero_width x ∨
  1 ≤ (skip_terminating_quote buffer length simple x x0).1.
Proof.
  intros Hs Hx Hw Hq -> Hn. rewrite Hs in *.
  destruct (stall (buffer x)) eqn:St.
  - left. rewrite (parse_string_stall buffer length x) by (lia || assumption).
    split; [|repeat split; (lia || assumption)].
    apply skip_terminating_quote_none; try lia.
    rewrite Z.add_0_r. exact Hq.
  - right.
    destruct (parse_string_progress buffer length length_small x) as [E|E];
      try assumption; [contradiction|].
    destruct (parse_string_spec buffer length length_small x true) as [E'|E'];
      [lia|contradiction|].
    pose proof (skip_terminating_quote_spec buffer length length_small true x
                  (parse_string buffer length x true).1) as S.
    lia.
Qed.

Ltac string_leaf :=
  match goal with
  | Hs : simple = true, Hq : (buffer ?x =c= dquote) = false,
    Hw : _ ∧ _ ∧ (?x < _ → is_whitespace (buffer ?x) = false),
    Hn : ?x0 ≠ _
    |- value_post _ _ (?x + ?x1) _ =>
      let W := fresh "W" in
      assert (W : is_whitespace (buffer x) = false) by (apply Hw; lia);
      let Z0 := fresh "Z0" in let ZW := fresh "ZW" in let P := fresh "P" in
      destruct (zero_width_intro x x0 Hs ltac:(lia) W Hq eq_refl Hn)
        as [[Z0 ZW]|P];
      [ constructor;
        [arith|arith
        |right; split; [replace (x + x1) with x by lia; exact ZW|arith]
        |solve_WF|solve_keeps|solve_key_kept|solve_tok]
      | value_leaf ]
  end.

Lemma value_body_spec po pa :
  call_spec po → call_spec pa →
  value_spec (parse_value_body buffer length capacity simple po pa).
Proof.
  intros Hpo Hpa. split.
  - intros pos st r st' [Q1 Q2 Q3 Q4 Q5] H Hr. unfold_parser_in H.
    repeat step H; try (exfalso; apply Hr; reflexivity).
    all: unfold phi in *.
    all: norm.
    + use_call Hpo H.
      constructor;
        [arith|arith|left; arith|assumption|solve_keeps|solve_key_kept
        |solve_tok].
    + use_call Hpa H.
      constructor;
        [arith|arith|left; arith|assumption|solve_keeps|solve_key_kept
        |solve_tok].
    + value_leaf.
    + value_leaf.
    + value_leaf.
    + string_leaf.
    + value_leaf.
    + string_leaf.
    + value_leaf.
  - intros pos st r st' (Hs & Hp & Hw & Hst) H. unfold_parser_in H.
    rewrite (skip_whitespace_stay buffer length pos) in H by (lia || assumption).
    cbn [peek fst snd] in H.
    destruct (stall_dispatch _ Hst) as (D1 & D2 & D3 & D4 & D5).
    destruct Hp as [Hp0 Hp].
    assert (Hp' : (pos <? length) = true) by (apply Z.ltb_lt; exact Hp).
    rewrite Hp', D1, D2, D3, D4, D5, Hs in H. cbn [negb] in H.
    cbv beta iota zeta in H.
    assert (S1 : pos ⊕ 1 ⊖ 1 = pos)
      by (rewrite (sz_small (pos + 1)) by lia; rewrite sz_small by lia; lia).
    rewrite S1 in H.
    rewrite (parse_string_stall buffer length pos) in H by assumption.
    cbn [Z.eqb] in H. cbv beta iota zeta in H.
    rewrite (skip_terminating_quote_none buffer length length_small pos 0)
      in H by (rewrite ?Z.add_0_r; (lia || assumption)).
    injection H as <- _. rewrite sz_small by lia. lia.
Qed.

Ltac loop_leaf :=
  constructor; [arith|arith|arith|solve_WF|solve_keeps].

Ltac use_loop Hs H :=
  lazymatch type of H with
  | _ ?a ?l ?X = Some (?r, ?s') =>
      let P := fresh "P" in
      assert (P : loop_post a X r s');
      [apply (Hs a l X r s'); [solve_loop_pre|exact H|assumption]
      |destruct P]
  end;
  unfold phi, STRING_NPOS in *; autorewrite with st in *;
  repeat (rewrite u32_small in * by lia).

Lemma object_body_call loop :
  object_loop_spec loop → call_spec (parse_object_body buffer length loop).
Proof.
  intros [Hl _] pos st r st' [Q1 Q2 Q3 Q4 Q5] Hp H Hr. unfold_parser_in H.
  unfold phi in *. norm. use_loop Hl H.
  constructor; [arith|arith|arith|assumption|solve_keeps].
Qed.

Lemma array_body_call loop :
  array_loop_spec loop → call_spec (parse_array_body buffer length loop).
Proof.
  intros [Hl _] pos st r st' [Q1 Q2 Q3 Q4 Q5] Hp H Hr. unfold_parser_in H.
  repeat step H; unfold phi in *; norm.
  - loop_leaf.
  - use_loop Hl H.
    constructor; [arith|arith|arith|assumption|solve_keeps].
Qed.

Ltac solve_value_pre :=
  constructor; [arith|arith|arith|solve_WF|intros; solve_pending].

Ltac use_value Hs pv :=
  match goal with
  | E : pv ?a ?X = Some (?r, ?s') |- _ =>
      let P := fresh "P" in
      assert (P : value_post a X r s');
      [apply (Hs a X r s');
       [solve_value_pre|exact E|unfold STRING_NPOS; assumption]
      |destruct P; clear E]
  end;
  unfold phi, STRING_NPOS in *; autorewrite with st in *;
  repeat (rewrite u32_small in * by lia).

Ltac zw_cases :=
  match goal with
  | V : _ ≤ _ ∨ zero_width ?r0 ∧ _ |- _ =>
      let ZW := fresh "ZW" in
      destruct V as [V|[ZW V]];
      [|let Ex := fresh "Ex" in
        match goal with
        | x := (skip_whitespace _ _ r0).1 |- _ =>
            assert (Ex : x = r0)
              by (subst x; destruct ZW as (? & ? & ? & ?);
                  apply skip_whitespace_stay; (assumption || lia))
        end]
  end.

Ltac stalled Hls :=
  match goal with
  | ZW : zero_width ?r0, Ex : ?x = ?r0, H : _ ?x _ _ = Some _ |- _ =>
      rewrite Hls in H; [discriminate H|rewrite Ex; exact ZW|assumption..]
  end.

Lemma array_loop_body_spec pv loop :
  value_spec pv → array_loop_spec loop →
  array_loop_spec
    (parse_array_loop_body buffer length capacity simple pv loop).
Proof.
  intros [Hv Hvs] [Hl Hls]. split.
  - intros pos last st r st' [Q1 Q2 Q3 Q4 Q5] H Hr. unfold_parser_in H.
    repeat step H; try (exfalso; apply Hr; reflexivity).
    all: bool_facts; unfold phi in *.
    all: use_value Hv pv.
    all: norm.
    all: zw_cases.
    all: try stalled Hls.
    all: try match goal with
             | ZW : zero_width _ |- _ => destruct ZW as (? & ? & ? & ?)
             end.
    all: try (use_loop Hl H;
              constructor; [arith|arith|arith|assumption|solve_keeps]).
    all: try loop_leaf.
  - intros pos last st ZW C1 C2.
    pose proof ZW as (Hs & [Hp0 Hp] & Hw & Hst).
    assert (Hp' : (pos <? length) = true) by (apply Z.ltb_lt; exact Hp).
    assert (Hn : (pos =? STRING_NPOS) = false)
      by (apply Z.eqb_neq; unfold STRING_NPOS; lia).
    cbv beta iota zeta delta
      [parse_array_loop_body bind ret lex load get_current store
       set_token_id set_token_sibling].
    rewrite Hp'. cbv beta iota zeta.
    match goal with
    | |- context [pv pos ?X] =>
        destruct (pv pos X) as [[rv s0]|] eqn:E; [|reflexivity]
    end.
    apply (Hvs _ _ _ _ ZW) in E. subst rv. cbv beta iota zeta.
    rewrite Hn.
    rewrite (skip_whitespace_stay buffer length pos) by assumption.
    destruct (negb (last =? 0)); cbv beta iota zeta; cbn [peek fst snd];
      rewrite C1, C2, Hs; cbn [negb]; cbv beta iota zeta;
      apply Hls; assumption.
Qed.

Lemma if_same {A} (b : bool) (x : A) : (if b then x else x) = x.
Proof. destruct b; reflexivity. Qed.

Ltac failed_value Hle pv :=
  match goal with
  | E : pv _ _ = Some (?rv, _), H : _ = Some (?r, _), Hr : ?r ≠ _ |- _ =>
      destruct (Z.eq_dec rv STRING_NPOS) as [En|En];
      [ exfalso; clear E;
        repeat match goal with x := _ |- _ => subst x end;
        unfold STRING_NPOS in *; rewrite En in *;
        rewrite (skip_whitespace_beyond buffer length) in * by lia;
        cbn [fst snd] in *;
        first
          [ match goal with
            | I : (implicit_terminator _ _ _ _).1 = true |- _ =>
                apply implicit_terminator_true in I; destruct I; lia
            end
          | apply Hle in H; [|lia];
            unfold STRING_NPOS in H; rewrite if_same in H; exact (Hr H) ]
      | unfold STRING_NPOS in En ]
  end.

Ltac member_leaf Hv Hl Hle pv H :=
  failed_value Hle pv; use_value Hv pv; norm;
  match goal with
  | V : _ ≤ _ ∨ zero_width _ ∧ _ |- _ => destruct V as [V|[_ V]]
  end;
  (use_loop Hl H;
   (constructor; [arith|arith|arith|assumption|solve_keeps])).

Lemma object_loop_body_spec pv loop :
  value_spec pv → object_loop_spec loop →
  object_loop_spec
    (parse_object_loop_body buffer length capacity simple pv loop).
Proof.
  intros [Hv Hvs] [Hl Hle]. split.
  - intros pos last st r st' [Q1 Q2 Q3 Q4 Q5] H Hr. unfold_parser_in H.
    repeat step H; try (exfalso; apply Hr; reflexivity).
    all: bool_facts; unfold phi in *.
    all: norm.
    + destruct (negb _); [contradiction|loop_leaf].
    + loop_leaf.
    + use_loop Hl H.
      constructor; [arith|arith|arith|assumption|solve_keeps].
    + member_leaf Hv Hl Hle pv H.
    + member_leaf Hv Hl Hle pv H.
    + member_leaf Hv Hl Hle pv H.
    + member_leaf Hv Hl Hle pv H.
    + destruct simple; [loop_leaf|contradiction].
  - intros pos last st r st' Hp H. unfold_parser_in H.
    apply Z.ltb_ge in Hp. rewrite Hp in H. cbv beta iota zeta in H.
    injection H as <- _. reflexivity.
Qed.

End Specs.

(** * The entry points: shape of the result *)

Lemma slot_Some capacity st i t :
  slot capacity st i = Some t →
  0 ≤ i < capacity ∧ tokens st !! Z.to_nat i = Some t.
Proof.
  unfold slot. destruct ((0 <=? i) && (i <? capacity)) eqn:E; [|discriminate].
  apply andb_true_iff in E. destruct E as [E1 E2].
  apply Z.leb_le in E1. apply Z.ltb_lt in E2. intros H. split; [lia|exact H].
Qed.

Lemma slot_nat capacity st (i : nat) t :
  Z.of_nat i < capacity → tokens st !! i = Some t →
  slot capacity st (Z.of_nat i) = Some t.
Proof.
  intros Hc H. unfold slot.
  replace ((0 <=? Z.of_nat i) && (Z.of_nat i <? capacity)) with true.
  - rewrite Nat2Z.id. exact H.
  - symmetry. apply andb_true_iff. split; [apply Z.leb_le|apply Z.ltb_lt]; lia.
Qed.

Lemma WF_start length capacity st : current st = 0 → WF length capacity st.
Proof.
  intros H i t Hi Hs. apply slot_Some in Hs. lia.
Qed.

Section Scans.
Variable buffer : Z → ascii.
Variable size : Z.
Variable capacity : Z.
Hypothesis size_nonneg : 0 ≤ size.
Hypothesis size_small : size + 1 < 4294967296.

Local Abbreviation json_initial := (json_initial capacity).

(** The three parsers meet their specifications, by induction on the
    fuel. *)
Lemma spec_all simple fuel :
  value_spec buffer size capacity simple
    (parse_value buffer size capacity simple fuel) ∧
  object_loop_spec size capacity simple
    (parse_object_loop buffer size capacity simple fuel) ∧
  array_loop_spec buffer size capacity simple
    (parse_array_loop buffer size capacity simple fuel).
Proof.
  induction fuel as [|n (IHv & IHo & IHa)].
  - repeat split; try (intros; discriminate).
  - split; [|split].
    + apply value_body_spec; try assumption.
      * apply (object_body_call buffer size capacity simple); assumption.
      * apply (array_body_call buffer size capacity simple); assumption.
    + apply object_loop_body_spec; assumption.
    + apply array_loop_body_spec; assumption.
Qed.

Lemma json_scan_unfold fuel tokens :
  json_scan fuel buffer size capacity (initial tokens) =
  parse_value buffer size capacity false fuel 0 (json_initial tokens).
Proof. reflexivity. Qed.

Lemma json_initial_root tokens t :
  slot capacity (json_initial tokens) 0 = Some t →
  id t = 0 ∧ id_length t = 0.
Proof.
  unfold json_initial. rewrite !slot_store by lia.
  rewrite !decide_True by reflexivity.
  destruct (slot capacity (initial tokens) 0); [|discriminate].
  intros H. injection H as <-. split; reflexivity.
Qed.

(** After a scan of [json_parse] that did not fail: at least one token,
    every token in shape, and the root describes the value at the start
    of the buffer and has an empty key. *)
Lemma json_scan_shape fuel tokens pos st' :
  json_scan fuel buffer size capacity (initial tokens) = Some (pos, st') →
  pos ≠ STRING_NPOS →
  1 ≤ current st' ∧ WF size capacity st' ∧
  ∀ t, slot capacity st' 0 = Some t →
       describes buffer size false 0 t ∧ id t = 0 ∧ id_length t = 0.
Proof.
  rewrite json_scan_unfold. intros H Hr.
  destruct (spec_all false fuel) as ((Hv & _) & _).
  assert (C0 : current (json_initial tokens) = 0)
    by (unfold json_initial; rewrite !current_store_st; reflexivity).
  destruct (Hv 0 (json_initial tokens) pos st') as [P1 P2 P3 P4 P5 P6 P7];
    [|exact H|exact Hr|].
  - constructor.
    + unfold STRING_NPOS. lia.
    + lia.
    + unfold phi. lia.
    + apply WF_start. exact C0.
    + lia.
  - rewrite C0 in *. split; [lia|]. split; [exact P4|].
    intros t Ht. split; [apply P7; exact Ht|].
    destruct (P6 t) as (t0 & Ht0 & A & B); [rewrite C0; exact Ht|].
    rewrite C0 in Ht0. apply json_initial_root in Ht0. destruct Ht0. lia.
Qed.

Ltac cur0 :=
  autorewrite with st; cbn [initial current]; rewrite ?u32_small by lia;
  lia.

(** After a scan of [sjson_parse] that did not fail: at least one token
    and every token in shape. *)
Lemma sjson_scan_shape fuel tokens pos st' :
  sjson_scan fuel buffer size capacity (initial tokens) = Some (pos, st') →
  pos ≠ STRING_NPOS →
  1 ≤ current st' ∧ WF size capacity st'.
Proof.
  intros H Hr.
  destruct (spec_all true fuel) as ((Hv & _) & Ho & _).
  pose proof (skip_whitespace_spec buffer size size_small 0 ltac:(lia)) as S.
  unfold sjson_scan in H. unfold_parser_in H.
  set (p := (skip_whitespace buffer size 0).1) in *.
  repeat step H.
  - lazymatch type of H with
    | _ ?X = _ =>
        destruct (object_body_call buffer size capacity true size_small _ Ho
                    p X pos st') as [P1 P2 P3 P4 P5]; [|lia|exact H|exact Hr|]
    end.
    + constructor.
      * unfold STRING_NPOS. lia.
      * cur0.
      * unfold phi. cur0.
      * apply WF_emit_complex;
          [|cur0|cur0|cur0|intros; lia|left; reflexivity].
        apply WF_store_above; [|cur0]. apply WF_start. reflexivity.
      * left. reflexivity.
    + autorewrite with st in P2. cbn [initial current] in P2.
      rewrite u32_small in P2 by lia. split; [lia|exact P4].
  - lazymatch type of H with
    | _ ?X = _ =>
        destruct (Hv p X pos st') as [P1 P2 P3 P4 P5 P6 P7];
          [|exact H|exact Hr|]
    end.
    + constructor.
      * unfold STRING_NPOS. lia.
      * cur0.
      * unfold phi. cur0.
      * apply WF_start. reflexivity.
      * cur0.
    + autorewrite with st in P2. cbn [initial current] in P2.
      split; [lia|exact P4].
  - lazymatch type of H with
    | _ ?X = _ =>
        destruct (Hv p X pos st') as [P1 P2 P3 P4 P5 P6 P7];
          [|exact H|exact Hr|]
    end.
    + constructor.
      * unfold STRING_NPOS. lia.
      * cur0.
      * unfold phi. cur0.
      * apply WF_start. reflexivity.
      * cur0.
    + autorewrite with st in P2. cbn [initial current] in P2.
      split; [lia|exact P4].
Qed.

End Scans.

(** * The entry points: independence of the capacity *)

Section Independence.
Variable buffer : Z → ascii.
Variable size : Z.
Hypothesis size_is_size_t : size ≤ STRING_NPOS.

Lemma agree_outcome (m1 m2 : M Z) s1 s2 :
  agree (m1 s1) (m2 s2) →
  outcome (bind m1 count_or_zero s1) = outcome (bind m2 count_or_zero s2).
Proof.
  unfold agree, bind. destruct (m1 s1) as [[r1 t1]|], (m2 s2) as [[r2 t2]|];
    try contradiction; [|reflexivity].
  intros [-> [Ec Er]]. unfold count_or_zero.
  destruct (r2 =? STRING_NPOS); cbn; congruence.
Qed.

Lemma json_scan_agree fuel cap1 cap2 tokens1 tokens2 :
  agree (json_scan fuel buffer size cap1 (initial tokens1))
        (json_scan fuel buffer size cap2 (initial tokens2)).
Proof.
  destruct (sim_all buffer size false cap1 cap2 size_is_size_t fuel)
    as (Hv & _ & _).
  unfold json_scan. unfold_parser. apply Hv.
  - split; autorewrite with st; reflexivity.
  - autorewrite with st. cbn. lia.
Qed.

Lemma sjson_scan_agree fuel cap1 cap2 tokens1 tokens2 :
  agree (sjson_scan fuel buffer size cap1 (initial tokens1))
        (sjson_scan fuel buffer size cap2 (initial tokens2)).
Proof.
  destruct (sim_all buffer size true cap1 cap2 size_is_size_t fuel)
    as (Hv & Ho & _).
  unfold sjson_scan. unfold_parser.
  destruct (_ <? _); cbv beta iota zeta.
  - destruct (negb _); cbv beta iota zeta.
    + apply (sim_object_body buffer size cap1 cap2 _ _ Ho).
      * split; autorewrite with st; reflexivity.
      * autorewrite with st. apply u32_nonneg.
    + apply Hv; [split; autorewrite with st; reflexivity
                |autorewrite with st; cbn; lia].
  - apply Hv; [split; autorewrite with st; reflexivity
              |autorewrite with st; cbn; lia].
Qed.

Lemma json_outcome_independent fuel cap1 cap2 tokens1 tokens2 :
  outcome (json_parse fuel buffer size tokens1 cap1) =
  outcome (json_parse fuel buffer size tokens2 cap2).
Proof. apply agree_outcome, json_scan_agree. Qed.

Lemma sjson_outcome_independent fuel cap1 cap2 tokens1 tokens2 :
  outcome (sjson_parse fuel buffer size tokens1 cap1) =
  outcome (sjson_parse fuel buffer size tokens2 cap2).
Proof. apply agree_outcome, sjson_scan_agree. Qed.

End Independence.

Section Frame.
Variable buffer : Z → ascii.
Variable size : Z.
Variable capacity : Z.

Lemma untouched_store index f st :
  0 ≤ index →
  untouched capacity (tokens st)
    (tokens (store_st (get_token capacity index) f st)).
Proof.
  intros Hi. unfold get_token, store_st, untouched.
  destruct (index <? capacity) eqn:E; [|split; reflexivity].
  apply Z.ltb_lt in E. cbn [tokens]. split; [apply length_alter|].
  intros i Hc. apply list_lookup_alter_ne. lia.
Qed.

Lemma untouched_trans a b c :
  untouched capacity a b → untouched capacity b c → untouched capacity a c.
Proof.
  intros [L1 F1] [L2 F2]. split; [congruence|].
  intros i Hi. rewrite F2, F1; auto.
Qed.

Lemma ext_untouched s s' :
  ext capacity s s' → untouched capacity (tokens s) (tokens s').
Proof. intros (L & F & _). split; assumption. Qed.

(** [json_parse] writes no slot outside the capacity. *)
Lemma json_parse_untouched fuel array count st' :
  json_parse fuel buffer size array capacity = Some (count, st') →
  untouched capacity array (tokens st').
Proof.
  unfold json_parse, json_scan, count_or_zero. intros H. unfold_parser_in H.
  repeat step H.
  all: match goal with
       | E : parse_value _ _ _ _ _ _ ?X = Some (_, ?s) |- _ =>
           apply (unary_all buffer size capacity false fuel) in E;
             [destruct E as (_ & E & _)|cbn; autorewrite with st; cbn; lia]
       end.
  all: apply ext_untouched in E.
  all: eapply untouched_trans; [|exact E].
  all: eapply untouched_trans; [|apply untouched_store; lia].
  all: apply (untouched_store 0 _ (initial array)); lia.
Qed.

(** [sjson_parse] writes no slot outside the capacity. *)
Lemma sjson_parse_untouched fuel array count st' :
  sjson_parse fuel buffer size array capacity = Some (count, st') →
  untouched capacity array (tokens st').
Proof.
  unfold sjson_parse, sjson_scan, count_or_zero, parse_object. intros H.
  unfold_parser_in H.
  destruct (unary_all buffer size capacity true fuel) as (Uv & Uo & _).
  pose proof (unary_object_body buffer size capacity _ Uo) as Ub.
  repeat step H.
  all: match goal with
       | E : _ _ ?X = Some (_, ?s) |- _ =>
           first [apply Uv in E; [destruct E as (_ & E & _)|]
                 |apply Ub in E; [destruct E as (_ & E)|]];
             [|cbn; autorewrite with st; cbn; try apply u32_nonneg; lia]
       end.
  all: apply ext_untouched in E.
  all: eapply untouched_trans; [|exact E].
  all: autorewrite with st; cbn [tokens add_reads incr_st].
  all: try (split; reflexivity).
  all: eapply untouched_trans; [|apply untouched_store; lia].
  all: apply (untouched_store 0 _ (add_reads _ (add_reads _ (initial array)))); lia.
Qed.

End Frame.

(** * The caller's view *)

(** The caller's view of a successful entry-point call. *)
Lemma count_or_zero_inv (scan : M Z) st count st' :
  bind scan count_or_zero st = Some (count, st') →
  ∃ pos, scan st = Some (pos, st') ∧
         count = if pos =? STRING_NPOS then 0 else current st'.
Proof.
  unfold bind, count_or_zero. destruct (scan st) as [[pos s]|]; [|discriminate].
  intros H. exists pos. destruct (pos =? STRING_NPOS); cbn in H;
    injection H as <- <-; split; reflexivity.
Qed.

Lemma count_or_zero_run (scan : M Z) st pos st' :
  scan st = Some (pos, st') →
  bind scan count_or_zero st =
  Some (if pos =? STRING_NPOS then 0 else current st', st').
Proof.
  unfold bind, count_or_zero. intros ->. destruct (pos =? STRING_NPOS);
    reflexivity.
Qed.

Section Entry.
Variable buffer : Z → ascii.
Variable size : Z.
Variable capacity : Z.
Hypothesis size_nonneg : 0 ≤ size.
Hypothesis size_small : size + 1 < 4294967296.

Lemma json_parse_shape fuel array count st' :
  json_parse fuel buffer size array capacity = Some (count, st') →
  count ≠ 0 →
  count = current st' ∧ WF size capacity st' ∧
  ∀ t, slot capacity st' 0 = Some t →
       describes buffer size false 0 t ∧ id t = 0 ∧ id_length t = 0.
Proof.
  intros H Hc. apply count_or_zero_inv in H. destruct H as (pos & H & ->).
  destruct (pos =? STRING_NPOS) eqn:E; [contradiction|].
  apply Z.eqb_neq in E.
  destruct (json_scan_shape buffer size capacity size_nonneg size_small
              fuel array pos st' H E) as (_ & W & R).
  auto.
Qed.

Lemma sjson_parse_shape fuel array count st' :
  sjson_parse fuel buffer size array capacity = Some (count, st') →
  count ≠ 0 →
  count = current st' ∧ WF size capacity st'.
Proof.
  intros H Hc. apply count_or_zero_inv in H. destruct H as (pos & H & ->).
  destruct (pos =? STRING_NPOS) eqn:E; [contradiction|].
  apply Z.eqb_neq in E.
  destruct (sjson_scan_shape buffer size capacity size_nonneg size_small
              fuel array pos st' H E) as (_ & W).
  auto.
Qed.

(** Every token of a successful parse that lies within the capacity has
    the shape its index requires. *)
Lemma parsed_token_shape fuel array count st' (i : nat) t :
  json_parse fuel buffer size array capacity = Some (count, st') ∨
  sjson_parse fuel buffer size array capacity = Some (count, st') →
  count ≠ 0 →
  Z.of_nat i < count → Z.of_nat i < capacity →
  tokens st' !! i = Some t →
  shape_ok size count (Z.of_nat i) t.
Proof.
  intros H Hc Hi Hcap Ht.
  assert (W : count = current st' ∧ WF size capacity st').
  { destruct H as [H|H].
    - destruct (json_parse_shape _ _ _ _ H Hc) as (A & B & _). auto.
    - apply (sjson_parse_shape _ _ _ _ H Hc). }
  destruct W as (-> & W). apply W; [exact Hi|].
  apply slot_nat; assumption.
Qed.

End Entry.

(** * Examples *)

(** A property checked on the 256 bytes holds of every byte. *)
Lemma for_all_bytes (P : ascii → bool) :
  forallb P all_bytes = true → ∀ c, P c = true.
Proof.
  intros H c. rewrite forallb_forall in H. apply H.
  rewrite <- (ascii_nat_embedding c). apply in_map, in_seq.
  pose proof (nat_ascii_bounded c). lia.
Qed.

Lemma count_outcome o1 o2 : outcome o1 = outcome o2 → count o1 = count o2.
Proof.
  destruct o1 as [[? ?]|], o2 as [[? ?]|]; cbn; congruence.
Qed.

Lemma inspects_outcome o1 o2 i :
  outcome o1 = outcome o2 → inspects o1 i = inspects o2 i.
Proof.
  destruct o1 as [[? ?]|], o2 as [[? ?]|]; cbn; congruence.
Qed.

Lemma size_t_literal n : (n <? 4294967296) = true → n ≤ STRING_NPOS.
Proof. intros H. apply Z.ltb_lt in H. unfold STRING_NPOS. lia. Qed.

(** Examples are evaluated with an empty array and lifted to every
    array and capacity. *)
Ltac any_capacity :=
  lazymatch goal with
  | |- count (json_parse ?f ?b ?s ?a ?c) = _ =>
      rewrite (count_outcome _ _
                 (json_outcome_independent b s (size_t_literal s eq_refl)
                    f c 0 a []))
  | |- count (sjson_parse ?f ?b ?s ?a ?c) = _ =>
      rewrite (count_outcome _ _
                 (sjson_outcome_independent b s (size_t_literal s eq_refl)
                    f c 0 a []))
  | |- inspects (json_parse ?f ?b ?s ?a ?c) ?i = _ =>
      rewrite (inspects_outcome _ _ i
                 (json_outcome_independent b s (size_t_literal s eq_refl)
                    f c 0 a []))
  | |- inspects (sjson_parse ?f ?b ?s ?a ?c) ?i = _ =>
      rewrite (inspects_outcome _ _ i
                 (sjson_outcome_independent b s (size_t_literal s eq_refl)
                    f c 0 a []))
  end.

(** [parse_number] fails on a minus sign, also in the first position. *)
Lemma minus_rejected_by_parse_number buffer length pos :
  pos < length → buffer pos = "-"%char →
  fst (parse_number buffer length pos) = STRING_NPOS.
Proof.
  intros Hp Hc. unfold parse_number.
  destruct (Z.to_nat (length - pos)) eqn:E; [lia|].
  cbn [parse_number_loop]. apply Z.ltb_lt in Hp. rewrite Hp.
  unfold wbind, peek. cbn [fst snd]. rewrite Hc, Z.eqb_refl. reflexivity.
Qed.

Lemma json_minus_number n beyond array capacity :
  count (json_parse (8 + n) (memory "-0.5e-3" beyond) 7 array capacity)
  = Some 0.
Proof. vm_compute. reflexivity. Qed.

Lemma json_minus_one n beyond array capacity :
  count (json_parse (8 + n) (memory "-1" beyond) 2 array capacity) = Some 0.
Proof. vm_compute. reflexivity. Qed.

Lemma json_unsigned_number n beyond t0 rest capacity :
  0 < capacity →
  result (json_parse (8 + n) (memory "0.5e-3" beyond) 6 (t0 :: rest) capacity)
  = Some (1, mk_token 0 0 0 6 0 0 JSON_PRIMITIVE :: rest).
Proof.
  intros H. destruct capacity as [|p|p]; try lia. vm_compute. reflexivity.
Qed.

(** ** Literals *)

Lemma json_true_at_end n beyond array capacity :
  count (json_parse (8 + n) (memory "true" beyond) 4 array capacity) = Some 0.
Proof. vm_compute. reflexivity. Qed.

Lemma json_false_at_end n beyond array capacity :
  count (json_parse (8 + n) (memory "false" beyond) 5 array capacity)
  = Some 0.
Proof. vm_compute. reflexivity. Qed.

Lemma json_true_token n beyond t0 :
  result (json_parse (8 + n) (memory "true " beyond) 5 [t0] 1)
  = Some (1, [mk_token 0 0 0 4 0 0 JSON_PRIMITIVE]).
Proof. vm_compute. reflexivity. Qed.

Lemma json_false_token n beyond t0 :
  result (json_parse (8 + n) (memory "false," beyond) 6 [t0] 1)
  = Some (1, [mk_token 0 0 0 5 0 0 JSON_PRIMITIVE]).
Proof. vm_compute. reflexivity. Qed.

(** ** Arrays *)

Lemma sjson_array_without_commas n beyond array capacity :
  count (sjson_parse (8 + n) (memory "{a=[1 2]}" beyond) 9 array capacity)
  = Some 4.
Proof. any_capacity. vm_compute. reflexivity. Qed.

Lemma sjson_array_without_commas_tokens n beyond t0 t1 t2 t3 :
  result (sjson_parse (8 + n) (memory "{a=[1 2]}" beyond) 9
            [t0; t1; t2; t3] 4)
  = Some (4, [mk_token (id t0) (id_length t0) 0 0 1 0 JSON_OBJECT;
              mk_token 1 1 0 0 2 0 JSON_ARRAY;
              mk_token 0 0 4 1 0 3 JSON_PRIMITIVE;
              mk_token 0 0 6 1 0 0 JSON_PRIMITIVE]).
Proof. vm_compute. reflexivity. Qed.

Lemma json_array_without_commas n beyond array capacity :
  count (json_parse (8 + n) (memory ("{" ++ q ++ "a" ++ q ++ ":[1 2]}") beyond)
           11 array capacity)
  = Some 0.
Proof. any_capacity. vm_compute. reflexivity. Qed.

Lemma json_bare_array_without_commas n beyond array capacity :
  count (json_parse (8 + n) (memory "[1 2]" beyond) 5 array capacity)
  = Some 0.
Proof. any_capacity. vm_compute. reflexivity. Qed.

Lemma sjson_bare_array n beyond array capacity :
  count (sjson_parse (8 + n) (memory "[1 2]" beyond) 5 array capacity)
  = Some 0.
Proof. any_capacity. vm_compute. reflexivity. Qed.

Lemma sjson_bare_array_with_comma n beyond array capacity :
  count (sjson_parse (8 + n) (memory "[1,2]" beyond) 5 array capacity)
  = Some 0.
Proof. any_capacity. vm_compute. reflexivity. Qed.

Lemma json_array_trailing_comma n beyond array capacity :
  count (json_parse (8 + n) (memory "[1,]" beyond) 4 array capacity)
  = Some 0.
Proof. any_capacity. vm_compute. reflexivity. Qed.

(** ** Objects *)

Lemma json_object_trailing_comma n beyond array capacity :
  count (json_parse (8 + n) (memory trailing_comma_object beyond) 8
           array capacity)
  = Some 2.
Proof. any_capacity. vm_compute. reflexivity. Qed.

Lemma json_object_trailing_comma_tokens n beyond t0 t1 :
  result (json_parse (8 + n) (memory trailing_comma_object beyond) 8
            [t0; t1] 2)
  = Some (2, [mk_token 0 0 0 0 1 0 JSON_OBJECT;
              mk_token 2 1 5 1 0 2 JSON_PRIMITIVE]).
Proof. vm_compute. reflexivity. Qed.

Lemma sjson_implicit_root n beyond t0 t1 rest capacity :
  2 ≤ capacity →
  result (sjson_parse (8 + n) (memory "a=1" beyond) 3 (t0 :: t1 :: rest)
            capacity)
  = Some (2, mk_token 0 0 0 0 1 0 JSON_OBJECT ::
             mk_token 0 1 2 1 0 0 JSON_PRIMITIVE :: rest).
Proof.
  intros H. destruct capacity as [|[p|p|]|p]; try lia; vm_compute; reflexivity.
Qed.

Lemma sjson_braces_root n beyond t0 rest capacity :
  0 < capacity →
  result (sjson_parse (8 + n) (memory "{}" beyond) 2 (t0 :: rest) capacity)
  = Some (1, mk_token (id t0) (id_length t0) 0 0 1 0 JSON_OBJECT :: rest).
Proof.
  intros H. destruct capacity as [|p|p]; try lia. vm_compute. reflexivity.
Qed.

Lemma json_braces_root n beyond t0 rest capacity :
  0 < capacity →
  result (json_parse (8 + n) (memory "{}" beyond) 2 (t0 :: rest) capacity)
  = Some (1, mk_token 0 0 0 0 1 0 JSON_OBJECT :: rest).
Proof.
  intros H. destruct capacity as [|p|p]; try lia. vm_compute. reflexivity.
Qed.

(** ** Capacity *)

Lemma json_five_tokens n beyond array capacity :
  count (json_parse (8 + n) (memory "[1,2,3,4]" beyond) 9 array capacity)
  = Some 5.
Proof. any_capacity. vm_compute. reflexivity. Qed.

Lemma json_five_tokens_capacity_three n beyond t0 t1 t2 rest :
  result (json_parse (8 + n) (memory "[1,2,3,4]" beyond) 9
            (t0 :: t1 :: t2 :: rest) 3)
  = Some (5, mk_token 0 0 0 0 1 0 JSON_ARRAY ::
             mk_token 0 0 1 1 0 2 JSON_PRIMITIVE ::
             mk_token 0 0 3 1 0 3 JSON_PRIMITIVE :: rest).
Proof. vm_compute. reflexivity. Qed.

(** ** Reads past the end *)

Lemma sjson_key_reads_past_end n c array capacity :
  inspects (sjson_parse (8 + n) (memory "a" (fun _ => c)) 1 array capacity) 1
  = true.
Proof.
  any_capacity. revert c. apply for_all_bytes. vm_compute. reflexivity.
Qed.

Lemma json_array_start_reads_past_end n c array capacity :
  inspects (json_parse (8 + n) (memory "[" (fun _ => c)) 1 array capacity) 1
  = true.
Proof.
  any_capacity. revert c. apply for_all_bytes. vm_compute. reflexivity.
Qed.

Lemma json_array_element_reads_past_end n c array capacity :
  inspects (json_parse (8 + n) (memory "[1" (fun _ => c)) 2 array capacity) 2
  = true.
Proof.
  any_capacity. revert c. apply for_all_bytes. vm_compute. reflexivity.
Qed.

(** * The permissive array loop can stall *)

(** No amount of fuel lets the permissive array loop leave a position
    that holds a brace, an equals sign or a colon. *)
Lemma permissive_array_stalls buffer size capacity fuel pos last st :
  0 ≤ size → size + 1 < 4294967296 → 0 ≤ pos < size →
  buffer pos = "}"%char ∨ buffer pos = "="%char ∨ buffer pos = ":"%char →
  parse_array_loop buffer size capacity true fuel pos last st = None.
Proof.
  intros H0 H1 Hp Hc.
  destruct (spec_all buffer size capacity H0 H1 true fuel) as (_ & _ & _ & Ha).
  apply Ha.
  - split; [reflexivity|]. split; [exact Hp|].
    destruct Hc as [->|[->| ->]]; split; reflexivity.
  - destruct Hc as [->|[->| ->]]; reflexivity.
  - destruct Hc as [->|[->| ->]]; reflexivity.
Qed.

Ltac closed_position :=
  split; [apply Z.leb_le|apply Z.ltb_lt]; vm_compute; reflexivity.

Section Unfold.
Variable buffer : Z → ascii.
Variable length capacity : Z.
Variable simple : bool.

Lemma parse_value_S n pos :
  parse_value buffer length capacity simple (S n) pos =
  parse_value_body buffer length capacity simple
    (parse_object_body buffer length
       (parse_object_loop buffer length capacity simple n))
    (parse_array_body buffer length
       (parse_array_loop buffer length capacity simple n)) pos.
Proof. reflexivity. Qed.

Lemma parse_object_loop_S n pos last :
  parse_object_loop buffer length capacity simple (S n) pos last =
  parse_object_loop_body buffer length capacity simple
    (parse_value buffer length capacity simple n)
    (parse_object_loop buffer length capacity simple n) pos last.
Proof. reflexivity. Qed.

Lemma parse_array_loop_S n pos last :
  parse_array_loop buffer length capacity simple (S n) pos last =
  parse_array_loop_body buffer length capacity simple
    (parse_value buffer length capacity simple n)
    (parse_array_loop buffer length capacity simple n) pos last.
Proof. reflexivity. Qed.

End Unfold.

(** Run the left-hand side up to the first call that is left folded. *)
Ltac run_to_call :=
  lazymatch goal with
  | |- ?l = _ =>
      let v := eval lazy head beta iota zeta
                 delta -[parse_value parse_object_loop parse_array_loop] in l in
      change l with v
  end.

Ltac run_permissive :=
  repeat (first
    [ lazymatch goal with
      | |- context [parse_array_loop ?b ?s ?c true ?f ?p ?l ?X] =>
          rewrite (permissive_array_stalls b s c f p l X);
            [|lia|lia|closed_position|left; vm_compute; reflexivity]
      end
    | rewrite parse_object_loop_S
    | rewrite parse_value_S
    | rewrite parse_array_loop_S ]; run_to_call).

Lemma sjson_unclosed_array fuel beyond array capacity :
  sjson_parse fuel (memory "a=[}" beyond) 4 array capacity = None.
Proof.
  destruct fuel as [|[|fuel]].
  - reflexivity.
  - reflexivity.
  - unfold sjson_parse, sjson_scan, parse_object, parse_object_body.
    run_to_call. run_permissive. reflexivity.
Qed.

(** * The strict parser returns *)

Section Termination.
Variable buffer : Z → ascii.
Variable length : Z.
Variable capacity : Z.
Hypothesis length_nonneg : 0 ≤ length.
Hypothesis length_small : length + 1 < 4294967296.

Local Abbreviation advances := (advances length).
Local Abbreviation remaining := (remaining length).
Local Abbreviation pos_value := (pos_value length).
Local Abbreviation pos_call := (pos_call length).
Local Abbreviation pos_loop := (pos_loop length).
Local Abbreviation total_value := (total_value length).
Local Abbreviation total_call := (total_call length).
Local Abbreviation total_loop := (total_loop length).

(** The strict grammar has no implicit terminator. *)
Ltac strict :=
  repeat match goal with
  | I : (implicit_terminator _ _ false _).1 = true |- _ =>
      apply implicit_terminator_true in I; destruct I; discriminate
  end.

(** A literal that was found lies within the buffer. *)
Ltac literal_facts :=
  repeat match goal with
  | x := (literal_follows ?b ?l ?c ?f ?p ?r ?n).1, E : ?x = true |- _ =>
      subst x;
      apply (literal_follows_spec b l ltac:(assumption) c f p r n) in E;
      [|rewrite ?sz_small by lia; lia|lia];
      rewrite ?sz_small in E by lia
  end.

Ltac padv := unfold advances, remaining, STRING_NPOS in *; lia.

(** What is known of the result of each call made so far. *)
Ltac use_pos :=
  repeat match goal with
  | Hv : pos_value ?pv, E : ?pv ?a ?X = Some (?r, ?s) |- _ =>
      apply (Hv a X r s) in E; [|padv]; unfold advances, STRING_NPOS in E
  | Hv : pos_call ?pv, E : ?pv ?a ?X = Some (?r, ?s) |- _ =>
      apply (Hv a X r s) in E; [|padv]; unfold advances, STRING_NPOS in E
  | Hl : pos_loop ?l, E : ?l ?a ?b ?X = Some (?r, ?s) |- _ =>
      apply (Hl a b X r s) in E; [|padv]; unfold advances, STRING_NPOS in E
  end.

Lemma pos_object_body loop :
  pos_loop loop → pos_call (parse_object_body buffer length loop).
Proof.
  intros Hl pos st r st' Hp H. unfold_parser_in H. norm. use_pos. padv.
Qed.

Lemma pos_array_body loop :
  pos_loop loop → pos_call (parse_array_body buffer length loop).
Proof.
  intros Hl pos st r st' Hp H. unfold_parser_in H.
  repeat step H; norm; use_pos; padv.
Qed.

Lemma pos_value_body po pa :
  pos_call po → pos_call pa →
  pos_value (parse_value_body buffer length capacity false po pa).
Proof.
  intros Ho Ha pos st r st' Hp H. unfold_parser_in H.
  repeat step H; norm; literal_facts; use_pos; try padv.
Qed.

Lemma pos_array_loop_body pv loop :
  pos_value pv → pos_loop loop →
  pos_loop (parse_array_loop_body buffer length capacity false pv loop).
Proof.
  intros Hv Hl pos last st r st' Hp H. unfold_parser_in H.
  repeat step H; norm; use_pos; norm; use_pos; try padv.
Qed.

Lemma pos_object_loop_body pv loop :
  pos_value pv → pos_loop loop →
  pos_loop (parse_object_loop_body buffer length capacity false pv loop).
Proof.
  intros Hv Hl pos last st r st' Hp H. unfold_parser_in H.
  repeat step H; norm; strict; use_pos; norm; use_pos; try padv.
  destruct (negb _); padv.
Qed.

(** In the strict grammar a call that does not fail moves on. *)
Lemma pos_all fuel :
  pos_value (parse_value buffer length capacity false fuel) ∧
  pos_loop (parse_object_loop buffer length capacity false fuel) ∧
  pos_loop (parse_array_loop buffer length capacity false fuel).
Proof.
  induction fuel as [|n (IHv & IHo & IHa)].
  - repeat split; intros ? **; discriminate.
  - split; [|split].
    + apply pos_value_body; [apply pos_object_body|apply pos_array_body];
        assumption.
    + apply pos_object_loop_body; assumption.
    + apply pos_array_loop_body; assumption.
Qed.

(** ** Enough fuel *)

Ltac use_total :=
  match goal with
  | Ht : total_value _ ?pv, E : ?pv ?a ?X = None |- _ =>
      exfalso; revert E; apply Ht; padv
  | Ht : total_call _ ?pv, E : ?pv ?a ?X = None |- _ =>
      exfalso; revert E; apply Ht; padv
  | Ht : total_loop _ ?l, E : ?l ?a ?b ?X = None |- _ =>
      exfalso; revert E; apply Ht; padv
  end.

Ltac total_walk H :=
  unfold_parser_in H; repeat step H; try discriminate H;
  norm; strict; literal_facts; use_pos; norm; use_pos.

Lemma total_object_body n loop :
  total_loop n loop → total_call n (parse_object_body buffer length loop).
Proof.
  intros Hl pos st Hp Hf H. total_walk H. use_total.
Qed.

Lemma total_array_body n loop :
  total_loop n loop → total_call n (parse_array_body buffer length loop).
Proof.
  intros Hl pos st Hp Hf H. total_walk H. use_total.
Qed.

Lemma total_value_body n po pa :
  total_call n po → total_call n pa →
  total_value (S n) (parse_value_body buffer length capacity false po pa).
Proof.
  intros Ho Ha pos st Hp Hf H. rewrite Nat2Z.inj_succ in Hf.
  total_walk H; use_total.
Qed.

Lemma total_array_loop_body n pv loop :
  pos_value pv → total_value n pv → total_loop n loop →
  total_loop (S n)
    (parse_array_loop_body buffer length capacity false pv loop).
Proof.
  intros Hv Tv Tl pos last st Hp Hf H. rewrite Nat2Z.inj_succ in Hf.
  total_walk H; use_total.
Qed.

Lemma total_object_loop_body n pv loop :
  pos_value pv → total_value n pv → total_loop n loop →
  total_loop (S n)
    (parse_object_loop_body buffer length capacity false pv loop).
Proof.
  intros Hv Tv Tl pos last st Hp Hf H. rewrite Nat2Z.inj_succ in Hf.
  total_walk H; use_total.
Qed.

(** Twice the remaining bytes, plus one or two, is enough fuel. *)
Lemma total_all n :
  total_value n (parse_value buffer length capacity false n) ∧
  total_loop n (parse_object_loop buffer length capacity false n) ∧
  total_loop n (parse_array_loop buffer length capacity false n).
Proof.
  induction n as [|n (IHv & IHo & IHa)].
  - repeat split; intros ? **; exfalso; padv.
  - destruct (pos_all n) as (Pv & _ & _). split; [|split].
    + apply total_value_body;
        [apply total_object_body|apply total_array_body]; assumption.
    + apply total_object_loop_body; assumption.
    + apply total_array_loop_body; assumption.
Qed.

(** [json_parse] returns when given [2 * length + 1] units of fuel. *)
Lemma json_parse_returns fuel array :
  2 * length + 1 ≤ Z.of_nat fuel →
  ∃ count st', json_parse fuel buffer length array capacity
               = Some (count, st').
Proof.
  intros Hf. destruct (total_all fuel) as (Tv & _ & _).
  unfold json_parse, json_scan. unfold_parser.
  match goal with
  | |- context [parse_value _ _ _ _ _ ?p ?X] =>
      destruct (parse_value buffer length capacity false fuel p X)
        as [[r s]|] eqn:E
  end.
  - unfold count_or_zero, ret, get_current. destruct (r =? STRING_NPOS); eauto.
  - exfalso. revert E. apply Tv; padv.
Qed.

End Termination.

(** * More fuel does not change a result *)

(** One step of the run in [H], mirrored in the goal. *)
Ltac mstep H :=
  lazymatch type of H with
  | Some _ = Some _ => exact H
  | None = Some _ => discriminate H
  | ?t = _ =>
      let c := scrutinee t in
      lazymatch type of c with
      | bool => destruct c eqn:?
      | _ =>
          let E := fresh "E" in
          destruct c as [[? ?]|] eqn:E;
          [ first
              [ match type of E with
                | ?f ?a ?X = _ =>
                    match goal with
                    | Hm : mono_value f _ |- _ => apply (Hm a X) in E
                    end
                | ?f ?a ?l ?X = _ =>
                    match goal with
                    | Hm : mono_loop f _ |- _ => apply (Hm a l X) in E
                    end
                end; rewrite E
              | idtac ]
          | ]
      end;
      cbv beta iota zeta in H |- *
  end.

(** A call in tail position. *)
Ltac mtail H :=
  first
    [ exact H
    | match type of H with
      | ?f ?a ?X = _ =>
          match goal with
          | Hm : mono_value f _ |- _ => exact (Hm a X _ H)
          end
      | ?f ?a ?l ?X = _ =>
          match goal with
          | Hm : mono_loop f _ |- _ => exact (Hm a l X _ H)
          end
      end ].

Ltac mono H :=
  unfold_parser_in H; unfold_parser; repeat mstep H; try mtail H.

Section Monotone.
Variable buffer : Z → ascii.
Variable length capacity : Z.
Variable simple : bool.

Lemma mono_object_body l l' :
  mono_loop l l' →
  mono_value (parse_object_body buffer length l)
             (parse_object_body buffer length l').
Proof. intros Hl pos st o H. mono H. Qed.

Lemma mono_array_body l l' :
  mono_loop l l' →
  mono_value (parse_array_body buffer length l)
             (parse_array_body buffer length l').
Proof. intros Hl pos st o H. mono H. Qed.

Lemma mono_value_body po po' pa pa' :
  mono_value po po' → mono_value pa pa' →
  mono_value (parse_value_body buffer length capacity simple po pa)
             (parse_value_body buffer length capacity simple po' pa').
Proof. intros Ho Ha pos st o H. mono H. Qed.

Lemma mono_array_loop_body pv pv' l l' :
  mono_value pv pv' → mono_loop l l' →
  mono_loop (parse_array_loop_body buffer length capacity simple pv l)
            (parse_array_loop_body buffer length capacity simple pv' l').
Proof. intros Hv Hl pos last st o H. mono H. Qed.

Lemma mono_object_loop_body pv pv' l l' :
  mono_value pv pv' → mono_loop l l' →
  mono_loop (parse_object_loop_body buffer length capacity simple pv l)
            (parse_object_loop_body buffer length capacity simple pv' l').
Proof. intros Hv Hl pos last st o H. mono H. Qed.

Lemma mono_succ n :
  mono_value (parse_value buffer length capacity simple n)
             (parse_value buffer length capacity simple (S n)) ∧
  mono_loop (parse_object_loop buffer length capacity simple n)
            (parse_object_loop buffer length capacity simple (S n)) ∧
  mono_loop (parse_array_loop buffer length capacity simple n)
            (parse_array_loop buffer length capacity simple (S n)).
Proof.
  induction n as [|n (IHv & IHo & IHa)].
  - repeat split; intros ? **; discriminate.
  - split; [|split].
    + apply mono_value_body; [apply mono_object_body|apply mono_array_body];
        assumption.
    + apply mono_object_loop_body; assumption.
    + apply mono_array_loop_body; assumption.
Qed.

(** A result obtained with [n] units of fuel is obtained with any
    [m >= n]. *)
Lemma mono_fuel n m :
  (n ≤ m)%nat →
  mono_value (parse_value buffer length capacity simple n)
             (parse_value buffer length capacity simple m) ∧
  mono_loop (parse_object_loop buffer length capacity simple n)
            (parse_object_loop buffer length capacity simple m) ∧
  mono_loop (parse_array_loop buffer length capacity simple n)
            (parse_array_loop buffer length capacity simple m).
Proof.
  induction 1 as [|m _ (IHv & IHo & IHa)].
  - repeat split; intros ? **; assumption.
  - destruct (mono_succ m) as (Sv & So & Sa).
    split; [|split]; intros ? **; auto.
Qed.

End Monotone.

Lemma json_parse_more_fuel n m buffer size array capacity o :
  (n ≤ m)%nat →
  json_parse n buffer size array capacity = Some o →
  json_parse m buffer size array capacity = Some o.
Proof.
  intros Hnm H. destruct (mono_fuel buffer size capacity false n m Hnm)
    as (Hv & _ & _).
  unfold json_parse, json_scan, count_or_zero in *. mono H.
Qed.

Lemma sjson_parse_more_fuel n m buffer size array capacity o :
  (n ≤ m)%nat →
  sjson_parse n buffer size array capacity = Some o →
  sjson_parse m buffer size array capacity = Some o.
Proof.
  intros Hnm H. destruct (mono_fuel buffer size capacity true n m Hnm)
    as (Hv & Ho & _).
  pose proof (mono_object_body buffer size _ _ Ho) as Hb.
  unfold sjson_parse, sjson_scan, parse_object, count_or_zero in *. mono H.
Qed.

Lemma agree_scan_outcome (o1 o2 : option (Z * state)) :
  agree o1 o2 → outcome o1 = outcome o2.
Proof.
  unfold agree. destruct o1 as [[r1 s1]|], o2 as [[r2 s2]|];
    try contradiction; [|reflexivity].
  intros [-> [Ec Er]]. cbn. congruence.
Qed.

(** * Literals at the start of any buffer *)

(** The strict parse of a buffer that starts with the literal and holds
    at least one more byte: the literal is accepted when that byte is a
    delimiter. *)
Lemma json_true_prefix n buffer size array capacity :
  5 ≤ size → size + 1 < 4294967296 →
  buffer 0 = "t"%char → buffer 1 = "r"%char → buffer 2 = "u"%char →
  buffer 3 = "e"%char →
  count (json_parse (S n) buffer size array capacity)
  = Some (if is_token_delimiter (buffer 4) then 1 else 0).
Proof.
  intros Hs Hsmall B0 B1 B2 B3.
  assert (S0 : skip_whitespace buffer size 0 = (0, [0])).
  { unfold skip_whitespace. destruct (Z.to_nat (size - 0)) eqn:E; [lia|].
    cbn [skip_whitespace_loop]. 
    replace (0 <? size) with true by (symmetry; apply Z.ltb_lt; lia).
    unfold wbind, peek. rewrite B0. reflexivity. }
  assert (L : literal_follows buffer size "t" "t" 1 "rue" 3
              = (is_token_delimiter (buffer 4), [1; 2; 3; 4])).
  { unfold literal_follows.
    replace (3 + 1 <=? size ⊖ 1) with true
      by (symmetry; apply Z.leb_le; rewrite sz_small by lia; lia).
    cbn [string_equal wbind peek wret andb Ascii.eqb Bool.eqb].
    change (1 ⊕ 1) with 2. change (2 ⊕ 1) with 3. change (1 ⊕ 3) with 4.
    rewrite B1, B2, B3. reflexivity. }
  unfold json_parse, json_scan, count_or_zero. cbn [parse_value].
  unfold_parser. rewrite S0. cbn [fst snd].
  replace (0 <? size) with true by (symmetry; apply Z.ltb_lt; lia).
  cbn [peek fst snd]. rewrite B0. 
  change (0 ⊕ 1) with 1. rewrite L. cbn [fst snd].
  destruct (is_token_delimiter (buffer 4)); run_to_call; autorewrite with st; reflexivity.
Qed.

Lemma json_false_prefix n buffer size array capacity :
  6 ≤ size → size + 1 < 4294967296 →
  buffer 0 = "f"%char → buffer 1 = "a"%char → buffer 2 = "l"%char →
  buffer 3 = "s"%char → buffer 4 = "e"%char →
  count (json_parse (S n) buffer size array capacity)
  = Some (if is_token_delimiter (buffer 5) then 1 else 0).
Proof.
  intros Hs Hsmall B0 B1 B2 B3 B4.
  assert (S0 : skip_whitespace buffer size 0 = (0, [0])).
  { unfold skip_whitespace. destruct (Z.to_nat (size - 0)) eqn:E; [lia|].
    cbn [skip_whitespace_loop].
    replace (0 <? size) with true by (symmetry; apply Z.ltb_lt; lia).
    unfold wbind, peek. rewrite B0. reflexivity. }
  assert (L : literal_follows buffer size "f" "f" 1 "alse" 4
              = (is_token_delimiter (buffer 5), [1; 2; 3; 4; 5])).
  { unfold literal_follows.
    replace (4 + 1 <=? size ⊖ 1) with true
      by (symmetry; apply Z.leb_le; rewrite sz_small by lia; lia).
    cbn [string_equal wbind peek wret andb Ascii.eqb Bool.eqb].
    change (1 ⊕ 1) with 2. change (2 ⊕ 1) with 3. change (3 ⊕ 1) with 4.
    change (1 ⊕ 4) with 5.
    rewrite B1, B2, B3, B4. reflexivity. }
  unfold json_parse, json_scan, count_or_zero. cbn [parse_value].
  unfold_parser. rewrite S0. cbn [fst snd].
  replace (0 <? size) with true by (symmetry; apply Z.ltb_lt; lia).
  cbn [peek fst snd]. rewrite B0.
  change (0 ⊕ 1) with 1. rewrite L. cbn [fst snd].
  destruct (is_token_delimiter (buffer 5)); run_to_call; autorewrite with st; reflexivity.
Qed.

(** A literal that ends the buffer: the test [length - pos >= 4] (or
    [5]) fails, whatever the memory holds after the buffer. *)
Lemma json_literal_at_end n buffer array capacity :
  (buffer 0 = "t"%char →
   count (json_parse (S n) buffer 4 array capacity) = Some 0) ∧
  (buffer 0 = "f"%char →
   count (json_parse (S n) buffer 5 array capacity) = Some 0).
Proof.
  split; intros B0.
  - assert (S0 : skip_whitespace buffer 4 0 = (0, [0])).
    { unfold skip_whitespace. change (Z.to_nat (4 - 0)) with 4%nat.
      cbn [skip_whitespace_loop]. change (0 <? 4) with true.
      unfold wbind, peek. rewrite B0. reflexivity. }
    unfold json_parse, json_scan, count_or_zero. cbn [parse_value].
    unfold_parser. rewrite S0. cbn [peek fst snd]. rewrite B0.
    run_to_call. autorewrite with st. reflexivity.
  - assert (S0 : skip_whitespace buffer 5 0 = (0, [0])).
    { unfold skip_whitespace. change (Z.to_nat (5 - 0)) with 5%nat.
      cbn [skip_whitespace_loop]. change (0 <? 5) with true.
      unfold wbind, peek. rewrite B0. reflexivity. }
    unfold json_parse, json_scan, count_or_zero. cbn [parse_value].
    unfold_parser. rewrite S0. cbn [peek fst snd]. rewrite B0.
    run_to_call. autorewrite with st. reflexivity.
Qed.

(** * The claims *)

(** C1. Capacity overflow is not an error.  For every buffer and every
    capacity, a call that returns leaves every slot at an index
    [>= capacity] as the caller passed it (and the array as long as it
    was); the end position of the scan, the returned count, the logical
    token index and the bytes inspected are the same whatever array and
    capacity are supplied, also when the call runs out of fuel; and the
    strict parse of "[1,2,3,4]", which has 5 tokens, returns 5 with
    capacity 3 and writes the first three slots only. *)
Theorem capacity_overflow_is_not_an_error fuel buffer size :
  size ≤ STRING_NPOS →
  (∀ array capacity count st',
     json_parse fuel buffer size array capacity = Some (count, st') ∨
     sjson_parse fuel buffer size array capacity = Some (count, st') →
     untouched capacity array (tokens st')) ∧
  (∀ array1 capacity1 array2 capacity2,
     outcome (json_scan fuel buffer size capacity1 (initial array1)) =
     outcome (json_scan fuel buffer size capacity2 (initial array2)) ∧
     outcome (sjson_scan fuel buffer size capacity1 (initial array1)) =
     outcome (sjson_scan fuel buffer size capacity2 (initial array2)) ∧
     outcome (json_parse fuel buffer size array1 capacity1) =
     outcome (json_parse fuel buffer size array2 capacity2) ∧
     outcome (sjson_parse fuel buffer size array1 capacity1) =
     outcome (sjson_parse fuel buffer size array2 capacity2)) ∧
  (∀ n beyond array capacity t0 t1 t2 rest,
     count (json_parse (8 + n) (memory "[1,2,3,4]" beyond) 9 array capacity)
     = Some 5 ∧
     result (json_parse (8 + n) (memory "[1,2,3,4]" beyond) 9
               (t0 :: t1 :: t2 :: rest) 3)
     = Some (5, mk_token 0 0 0 0 1 0 JSON_ARRAY ::
                mk_token 0 0 1 1 0 2 JSON_PRIMITIVE ::
                mk_token 0 0 3 1 0 3 JSON_PRIMITIVE :: rest)).
Proof.
  intros Hs. split; [|split].
  - intros array capacity n st' [H|H].
    + exact (json_parse_untouched _ _ _ _ _ _ _ H).
    + exact (sjson_parse_untouched _ _ _ _ _ _ _ H).
  - intros a1 c1 a2 c2. repeat apply conj.
    + apply agree_scan_outcome, json_scan_agree, Hs.
    + apply agree_scan_outcome, sjson_scan_agree, Hs.
    + apply json_outcome_independent, Hs.
    + apply sjson_outcome_independent, Hs.
  - intros. split.
    + apply json_five_tokens.
    + apply json_five_tokens_capacity_three.
Qed.

Lemma capacity_overflow_witness :
  9 ≤ STRING_NPOS ∧
  outcome (json_parse 8 (memory "[1,2,3,4]" zeros) 9 [] 0) =
  outcome (json_parse 8 (memory "[1,2,3,4]" zeros) 9
             (replicate 5 (mk_token 7 7 7 7 7 7 JSON_STRING)) 5).
Proof.
  assert (H : 9 ≤ STRING_NPOS) by (apply size_t_literal; reflexivity).
  split; [exact H|].
  destruct (capacity_overflow_is_not_an_error 8 (memory "[1,2,3,4]" zeros) 9 H)
    as (_ & I & _).
  destruct (I [] 0 (replicate 5 (mk_token 7 7 7 7 7 7 JSON_STRING)) 5)
    as (_ & _ & J & _).
  exact J.
Defined.

(** C3.  The strict parse of the 7 bytes of -0.5e-3 returns 0, not 1:
    [parse_number] fails on every number that starts with a minus sign,
    since the byte is let through by the test of its position and then
    caught by the test for digits ("-1" returns 0 as well).  Without
    the sign the same number gives one Primitive token over its 6
    bytes. *)
Theorem leading_minus_is_rejected n beyond array capacity t0 rest :
  count (json_parse (8 + n) (memory "-0.5e-3" beyond) 7 array capacity)
  = Some 0 ∧
  count (json_parse (8 + n) (memory "-1" beyond) 2 array capacity)
  = Some 0 ∧
  (∀ buffer length pos,
     pos < length → buffer pos = "-"%char →
     fst (parse_number buffer length pos) = STRING_NPOS) ∧
  (0 < capacity →
   result (json_parse (8 + n) (memory "0.5e-3" beyond) 6 (t0 :: rest)
             capacity)
   = Some (1, mk_token 0 0 0 6 0 0 JSON_PRIMITIVE :: rest)).
Proof.
  repeat apply conj.
  - apply json_minus_number.
  - apply json_minus_one.
  - apply minus_rejected_by_parse_number.
  - apply json_unsigned_number.
Qed.

(** C4, as amended.  The literals true and false parse as one
    Primitive token of length 4 and 5 exactly when the byte after them
    lies inside the buffer and is a delimiter.  For every buffer that
    starts with the literal and holds at least one more byte, the
    strict parse returns 1 if that byte is a delimiter and 0 otherwise
    (so 0 for "truex"); the literal that ends the buffer returns 0,
    whatever lies in memory after it; and the literal followed by a
    blank or a comma gives the Primitive token over its 4 or 5 bytes. *)
Theorem literal_needs_a_delimiter n buffer size beyond array capacity t0 :
  (5 ≤ size → size + 1 < 4294967296 →
   buffer 0 = "t"%char → buffer 1 = "r"%char → buffer 2 = "u"%char →
   buffer 3 = "e"%char →
   count (json_parse (S n) buffer size array capacity)
   = Some (if is_token_delimiter (buffer 4) then 1 else 0)) ∧
  (6 ≤ size → size + 1 < 4294967296 →
   buffer 0 = "f"%char → buffer 1 = "a"%char → buffer 2 = "l"%char →
   buffer 3 = "s"%char → buffer 4 = "e"%char →
   count (json_parse (S n) buffer size array capacity)
   = Some (if is_token_delimiter (buffer 5) then 1 else 0)) ∧
  (buffer 0 = "t"%char →
   count (json_parse (S n) buffer 4 array capacity) = Some 0) ∧
  (buffer 0 = "f"%char →
   count (json_parse (S n) buffer 5 array capacity) = Some 0) ∧
  count (json_parse (8 + n) (memory "truex" beyond) 5 array capacity)
  = Some 0 ∧
  count (json_parse (8 + n) (memory "true" beyond) 4 array capacity)
  = Some 0 ∧
  count (json_parse (8 + n) (memory "false" beyond) 5 array capacity)
  = Some 0 ∧
  result (json_parse (8 + n) (memory "true " beyond) 5 [t0] 1)
  = Some (1, [mk_token 0 0 0 4 0 0 JSON_PRIMITIVE]) ∧
  result (json_parse (8 + n) (memory "false," beyond) 6 [t0] 1)
  = Some (1, [mk_token 0 0 0 5 0 0 JSON_PRIMITIVE]).
Proof.
  repeat apply conj.
  - apply json_true_prefix.
  - apply json_false_prefix.
  - apply json_literal_at_end.
  - apply json_literal_at_end.
  - vm_compute. reflexivity.
  - apply json_true_at_end.
  - apply json_false_at_end.
  - apply json_true_token.
  - apply json_false_token.
Qed.

(** C4, as stated, fails: the strict parse of the 4-byte input true
    returns 0. *)
Lemma json_rejects_true_at_end :
  count (json_parse 8 (memory "true" zeros) 4 [] 0) = Some 0.
Proof. vm_compute. reflexivity. Qed.

(** One iteration of the loop of parse_array whose element does not
    fail: what follows is decided by the first byte that is no blank,
    at [x].  A comma continues the loop behind it and a closing bracket
    ends it, in both grammars; any other byte makes the strict loop
    fail and the permissive loop start the next element at [x]. *)
Lemma array_loop_after_element buffer length capacity simple n pos last st
    p1 s1 :
  pos < length →
  parse_value buffer length capacity simple n pos
    (store_st (get_token capacity (current st)) (write_id 0 0) st)
  = Some (p1, s1) →
  p1 ≠ STRING_NPOS →
  ∃ s2 s3,
    current s2 = current s1 ∧ current s3 = current s1 ∧
    parse_array_loop buffer length capacity simple (S n) pos last st =
    let x := (skip_whitespace buffer length p1).1 in
    if buffer x =c= "," then
      parse_array_loop buffer length capacity simple n (x ⊕ 1) (current st) s2
    else if buffer x =c= "]" then Some (x ⊕ 1, s3)
    else if simple then
      parse_array_loop buffer length capacity simple n x (current st) s3
    else Some (STRING_NPOS, s3).
Proof.
  intros Hp E Hr. rewrite parse_array_loop_S. unfold_parser.
  replace (pos <? length) with true by (symmetry; apply Z.ltb_lt; lia).
  rewrite E.
  replace (p1 =? STRING_NPOS) with false
    by (symmetry; apply Z.eqb_neq; exact Hr).
  cbn [peek fst snd].
  set (x := (skip_whitespace buffer length p1).1).
  set (linked := if negb (last =? 0)
                 then store_st (get_token capacity last)
                        (write_sibling (current st)) s1
                 else s1).
  exists (add_reads [x] (add_reads (skip_whitespace buffer length p1).2 linked)),
         (add_reads [x]
            (add_reads [x]
               (add_reads (skip_whitespace buffer length p1).2 linked))).
  assert (C : current linked = current s1).
  { unfold linked. destruct (negb (last =? 0)); autorewrite with st;
      reflexivity. }
  split; [autorewrite with st; exact C|].
  split; [autorewrite with st; exact C|].
  unfold linked.
  destruct (negb (last =? 0)); destruct (buffer x =c= ",");
    destruct (buffer x =c= "]"); destruct simple; reflexivity.
Qed.

Lemma json_array_number_then_string n beyond array capacity :
  count (json_parse (8 + n)
           (memory ("[1 " ++ q ++ "x" ++ q ++ "]") beyond) 7 array capacity)
  = Some 0.
Proof. any_capacity. vm_compute. reflexivity. Qed.

Lemma sjson_array_number_then_string n beyond array capacity :
  count (sjson_parse (8 + n)
           (memory ("{a=[1 " ++ q ++ "x" ++ q ++ "]}") beyond) 11
           array capacity)
  = Some 4.
Proof. any_capacity. vm_compute. reflexivity. Qed.

(** A strict array loop that does not fail has parsed an element that
    is followed, after blanks, by a comma or a closing bracket. *)
Lemma strict_array_loop_separator buffer length capacity fuel pos last st
    r st' :
  parse_array_loop buffer length capacity false fuel pos last st
  = Some (r, st') →
  r ≠ STRING_NPOS →
  ∃ n p1 s1,
    fuel = S n ∧ pos < length ∧
    parse_value buffer length capacity false n pos
      (store_st (get_token capacity (current st)) (write_id 0 0) st)
    = Some (p1, s1) ∧
    p1 ≠ STRING_NPOS ∧
    (buffer (skip_whitespace buffer length p1).1 = ","%char ∨
     buffer (skip_whitespace buffer length p1).1 = "]"%char).
Proof.
  intros H Hr. destruct fuel as [|n]; [discriminate H|].
  rewrite parse_array_loop_S in H. unfold_parser_in H.
  destruct (pos <? length) eqn:Hp; [|injection H as <- _; contradiction].
  apply Z.ltb_lt in Hp.
  destruct (parse_value buffer length capacity false n pos _)
    as [[p1 s1]|] eqn:E; [|discriminate H].
  cbv beta iota zeta in H.
  destruct (p1 =? STRING_NPOS) eqn:Hp1; [injection H as <- _; contradiction|].
  apply Z.eqb_neq in Hp1. cbn [peek fst snd] in H.
  exists n, p1, s1. split; [reflexivity|]. split; [exact Hp|].
  split; [exact E|]. split; [exact Hp1|].
  destruct (buffer (skip_whitespace buffer length p1).1 =c= ",") eqn:C1;
    [left; apply Ascii.eqb_eq, C1|].
  destruct (buffer (skip_whitespace buffer length p1).1 =c= "]") eqn:C2;
    [right; apply Ascii.eqb_eq, C2|].
  exfalso. destruct (negb (last =? 0)); cbv beta iota zeta in H;
    cbn [negb] in H; injection H as <- _; contradiction.
Qed.

(** C5, as amended.  Only the strict grammar requires a comma or the
    closing bracket after an array element.  In every iteration of the
    loop of parse_array whose element does not fail, a comma at the
    first byte that is no blank continues the loop behind it and a
    closing bracket ends it, in both grammars; any other byte makes the
    strict loop fail, while the permissive loop starts the next element
    at that byte.  So a strict loop that does not fail has found a
    comma or a closing bracket behind its element.  The permissive
    parse of "{a=[1 2]}" returns 4, the two elements linked as
    siblings, and that of {a=[1 "x"]} returns 4 as well, where the
    strict parses of the same arrays fail; the strict parse of "[1 2]"
    returns 0; and the permissive parse of "[1 2]" returns 0 as well,
    as it does for "[1,2]", because a buffer that does not start with a
    brace is read as the members of an implicit root object. *)
Theorem only_strict_arrays_need_commas n beyond array capacity t0 t1 t2 t3 :
  (∀ buffer length cap simple fuel pos last st p1 s1,
     pos < length →
     parse_value buffer length cap simple fuel pos
       (store_st (get_token cap (current st)) (write_id 0 0) st)
     = Some (p1, s1) →
     p1 ≠ STRING_NPOS →
     ∃ s2 s3,
       current s2 = current s1 ∧ current s3 = current s1 ∧
       parse_array_loop buffer length cap simple (S fuel) pos last st =
       let x := (skip_whitespace buffer length p1).1 in
       if buffer x =c= "," then
         parse_array_loop buffer length cap simple fuel (x ⊕ 1) (current st)
           s2
       else if buffer x =c= "]" then Some (x ⊕ 1, s3)
       else if simple then
         parse_array_loop buffer length cap simple fuel x (current st) s3
       else Some (STRING_NPOS, s3)) ∧
  (∀ buffer length cap fuel pos last st r st',
     parse_array_loop buffer length cap false fuel pos last st
     = Some (r, st') →
     r ≠ STRING_NPOS →
     ∃ m p1 s1,
       fuel = S m ∧ pos < length ∧
       parse_value buffer length cap false m pos
         (store_st (get_token cap (current st)) (write_id 0 0) st)
       = Some (p1, s1) ∧
       p1 ≠ STRING_NPOS ∧
       (buffer (skip_whitespace buffer length p1).1 = ","%char ∨
        buffer (skip_whitespace buffer length p1).1 = "]"%char)) ∧
  count (sjson_parse (8 + n) (memory "{a=[1 2]}" beyond) 9 array capacity)
  = Some 4 ∧
  result (sjson_parse (8 + n) (memory "{a=[1 2]}" beyond) 9
            [t0; t1; t2; t3] 4)
  = Some (4, [mk_token (id t0) (id_length t0) 0 0 1 0 JSON_OBJECT;
              mk_token 1 1 0 0 2 0 JSON_ARRAY;
              mk_token 0 0 4 1 0 3 JSON_PRIMITIVE;
              mk_token 0 0 6 1 0 0 JSON_PRIMITIVE]) ∧
  count (json_parse (8 + n)
           (memory ("{" ++ q ++ "a" ++ q ++ ":[1 2]}") beyond) 11
           array capacity)
  = Some 0 ∧
  count (sjson_parse (8 + n)
           (memory ("{a=[1 " ++ q ++ "x" ++ q ++ "]}") beyond) 11
           array capacity)
  = Some 4 ∧
  count (json_parse (8 + n)
           (memory ("[1 " ++ q ++ "x" ++ q ++ "]") beyond) 7 array capacity)
  = Some 0 ∧
  count (json_parse (8 + n) (memory "[1 2]" beyond) 5 array capacity)
  = Some 0 ∧
  count (sjson_parse (8 + n) (memory "[1 2]" beyond) 5 array capacity)
  = Some 0 ∧
  count (sjson_parse (8 + n) (memory "[1,2]" beyond) 5 array capacity)
  = Some 0.
Proof.
  repeat apply conj.
  - intros. apply array_loop_after_element; assumption.
  - intros. eapply strict_array_loop_separator; eassumption.
  - apply sjson_array_without_commas.
  - apply sjson_array_without_commas_tokens.
  - apply json_array_without_commas.
  - apply sjson_array_number_then_string.
  - apply json_array_number_then_string.
  - apply json_bare_array_without_commas.
  - apply sjson_bare_array.
  - apply sjson_bare_array_with_comma.
Qed.

Lemma only_strict_arrays_need_commas_witness :
  let buffer := memory ("[1 " ++ q ++ "x" ++ q ++ "]") zeros in
  let st := mk_state [] 1 [0] in
  1 < 7 ∧ 2 ≠ STRING_NPOS ∧
  ∃ s1,
    parse_value buffer 7 0 false 4 1
      (store_st (get_token 0 (current st)) (write_id 0 0) st)
    = Some (2, s1) ∧
    buffer (skip_whitespace buffer 7 2).1 = dquote ∧
    ∃ s3, parse_array_loop buffer 7 0 false 5 1 0 st
          = Some (STRING_NPOS, s3).
Proof.
  intros buffer st.
  assert (H0 : 1 < 7) by lia.
  assert (H1 : 2 ≠ STRING_NPOS) by (unfold STRING_NPOS; lia).
  split; [exact H0|]. split; [exact H1|]. eexists.
  match goal with
  | |- ?A ∧ _ => assert (E : A) by (vm_compute; reflexivity)
  end.
  split; [exact E|]. split; [reflexivity|].
  destruct (only_strict_arrays_need_commas 0 zeros [] 0
              (mk_token 0 0 0 0 0 0 JSON_UNDEFINED)
              (mk_token 0 0 0 0 0 0 JSON_UNDEFINED)
              (mk_token 0 0 0 0 0 0 JSON_UNDEFINED)
              (mk_token 0 0 0 0 0 0 JSON_UNDEFINED)) as (Rule & _).
  destruct (Rule buffer 7 0 false 4%nat 1 0 st 2 _ H0 E H1)
    as (s2 & s3 & _ & _ & Eq).
  exists s3. rewrite Eq. reflexivity.
Defined.

(** C5, as stated, fails: in the permissive parse of "{a=[1 2]}" the
    element 1 is followed by neither a comma nor a bracket, and the
    parse succeeds with 4 tokens. *)
Lemma sjson_accepts_array_without_commas :
  count (sjson_parse 8 (memory "{a=[1 2]}" zeros) 9 [] 0) = Some 4.
Proof. vm_compute. reflexivity. Qed.

(** C6.  The strict parse of an object with a comma before the closing
    brace returns 2, not 0, and leaves the member with a sibling link
    to index 2, a token that does not exist; the array parser, on the
    same slip of the input, fails. *)
Theorem trailing_comma_object_is_accepted n beyond array capacity t0 t1 :
  count (json_parse (8 + n) (memory trailing_comma_object beyond) 8
           array capacity)
  = Some 2 ∧
  result (json_parse (8 + n) (memory trailing_comma_object beyond) 8
            [t0; t1] 2)
  = Some (2, [mk_token 0 0 0 0 1 0 JSON_OBJECT;
              mk_token 2 1 5 1 0 2 JSON_PRIMITIVE]) ∧
  count (json_parse (8 + n) (memory "[1,]" beyond) 4 array capacity)
  = Some 0.
Proof.
  repeat apply conj.
  - apply json_object_trailing_comma.
  - apply json_object_trailing_comma_tokens.
  - apply json_array_trailing_comma.
Qed.

(** C7.  The permissive parse of the 3 bytes a=1 returns 2: token 0 is
    the synthesized root Object with first child 1 and an empty key,
    token 1 a Primitive with key span (0, 1) and value span (2, 1); the
    rest of the array is as it was. *)
Theorem implicit_root_object n beyond t0 t1 rest capacity :
  2 ≤ capacity →
  result (sjson_parse (8 + n) (memory "a=1" beyond) 3 (t0 :: t1 :: rest)
            capacity)
  = Some (2, mk_token 0 0 0 0 1 0 JSON_OBJECT ::
             mk_token 0 1 2 1 0 0 JSON_PRIMITIVE :: rest).
Proof. apply sjson_implicit_root. Qed.

Lemma implicit_root_witness :
  2 ≤ 2 ∧
  result (sjson_parse 8 (memory "a=1" zeros) 3
            [mk_token 7 7 7 7 7 7 JSON_STRING;
             mk_token 7 7 7 7 7 7 JSON_STRING] 2)
  = Some (2, [mk_token 0 0 0 0 1 0 JSON_OBJECT;
              mk_token 0 1 2 1 0 0 JSON_PRIMITIVE]).
Proof.
  assert (H : 2 ≤ 2) by lia. split; [exact H|].
  exact (implicit_root_object 0 zeros (mk_token 7 7 7 7 7 7 JSON_STRING)
           (mk_token 7 7 7 7 7 7 JSON_STRING) [] 2 H).
Defined.

(** C8.  After a successful parse of a buffer of less than 4 GiB, strict
    or permissive, every token below the returned count and within the
    capacity has a type; an Object or Array has its own index + 1 as
    first child and a String or Primitive has none; and its next
    sibling is either unset (0) or an index above its own, at most the
    count.  So no link of a token names index 0. *)
Theorem links_point_forward fuel buffer size array capacity count st'
    (i : nat) t :
  0 ≤ size → size + 1 < 4294967296 →
  json_parse fuel buffer size array capacity = Some (count, st') ∨
  sjson_parse fuel buffer size array capacity = Some (count, st') →
  count ≠ 0 →
  Z.of_nat i < count → Z.of_nat i < capacity →
  tokens st' !! i = Some t →
  type t ≠ JSON_UNDEFINED ∧
  (type t = JSON_OBJECT ∨ type t = JSON_ARRAY → child t = Z.of_nat i + 1) ∧
  (type t = JSON_STRING ∨ type t = JSON_PRIMITIVE → child t = 0) ∧
  (sibling t = 0 ∨ Z.of_nat i < sibling t ≤ count).
Proof.
  intros H0 H1 H Hc Hi Hcap Ht.
  destruct (parsed_token_shape buffer size capacity H0 H1 fuel array count
              st' i t H Hc Hi Hcap Ht) as (A & B & _).
  split; [|split; [|split]]; [| | |exact B].
  - intros E. rewrite E in A. exact A.
  - intros [E|E]; rewrite E in A; apply A.
  - intros [E|E]; rewrite E in A; apply A.
Qed.

Lemma links_point_forward_witness :
  ∃ st',
    json_parse 8 (memory "[1,2]" zeros) 5
      (replicate 3 (mk_token 7 7 7 7 7 7 JSON_STRING)) 3 = Some (3, st') ∧
    tokens st' !! 1%nat = Some (mk_token 0 0 1 1 0 2 JSON_PRIMITIVE) ∧
    (JSON_PRIMITIVE ≠ JSON_UNDEFINED ∧
     (JSON_PRIMITIVE = JSON_OBJECT ∨ JSON_PRIMITIVE = JSON_ARRAY →
      0 = Z.of_nat 1 + 1) ∧
     (JSON_PRIMITIVE = JSON_STRING ∨ JSON_PRIMITIVE = JSON_PRIMITIVE →
      0 = 0) ∧
     (2 = 0 ∨ Z.of_nat 1 < 2 ≤ 3)).
Proof.
  eexists. split; [vm_compute; reflexivity|]. split; [reflexivity|].
  eapply (links_point_forward 8 (memory "[1,2]" zeros) 5
            (replicate 3 (mk_token 7 7 7 7 7 7 JSON_STRING)) 3 3 _ 1%nat
            (mk_token 0 0 1 1 0 2 JSON_PRIMITIVE)).
  - lia.
  - lia.
  - left. vm_compute. reflexivity.
  - lia.
  - lia.
  - lia.
  - reflexivity.
Defined.

(** C9.  The lexer reads the byte at the index equal to the declared
    length: the permissive parse of the 1-byte buffer a, after the key,
    reads index 1 to look for the separator; the strict parse of the
    1-byte buffer [ reads index 1 to look for the closing bracket; and
    the strict parse of the 2-byte buffer [1 reads index 2 after the
    element.  Every one of these runs returns, whatever byte [c] fills
    the memory after the buffer. *)
Theorem reads_one_past_the_end n c array capacity :
  inspects (sjson_parse (8 + n) (memory "a" (fun _ => c)) 1 array capacity) 1
  = true ∧
  inspects (json_parse (8 + n) (memory "[" (fun _ => c)) 1 array capacity) 1
  = true ∧
  inspects (json_parse (8 + n) (memory "[1" (fun _ => c)) 2 array capacity) 2
  = true.
Proof.
  repeat apply conj.
  - apply sjson_key_reads_past_end.
  - apply json_array_start_reads_past_end.
  - apply json_array_element_reads_past_end.
Qed.

(** C10.  The permissive parse of "{}" succeeds with one token, and the
    key span of that token is whatever the caller's array held in slot
    0: [sjson_parse] never assigns it on this path, while the path of
    the implicit root and [json_parse] set it to (0, 0). *)
Theorem root_key_span_is_not_set n beyond t0 rest capacity :
  0 < capacity →
  result (sjson_parse (8 + n) (memory "{}" beyond) 2 (t0 :: rest) capacity)
  = Some (1, mk_token (id t0) (id_length t0) 0 0 1 0 JSON_OBJECT :: rest) ∧
  result (json_parse (8 + n) (memory "{}" beyond) 2 (t0 :: rest) capacity)
  = Some (1, mk_token 0 0 0 0 1 0 JSON_OBJECT :: rest).
Proof.
  intros H. split; [apply sjson_braces_root|apply json_braces_root]; exact H.
Qed.

Lemma root_key_span_witness :
  0 < 1 ∧
  result (sjson_parse 8 (memory "{}" zeros) 2
            [mk_token 100 100 0 0 0 0 JSON_UNDEFINED] 1)
  = Some (1, [mk_token 100 100 0 0 1 0 JSON_OBJECT]).
Proof.
  assert (H : 0 < 1) by lia. split; [exact H|].
  destruct (root_key_span_is_not_set 0 zeros
              (mk_token 100 100 0 0 0 0 JSON_UNDEFINED) [] 1 H) as (J & _).
  exact J.
Defined.

(** * Further properties *)

Lemma json_nested_arrays_read_further n array capacity :
  inspects (json_parse (8 + n) (memory "[[" (fun _ => "]"%char)) 2
              array capacity) 3 = true.
Proof. any_capacity. vm_compute. reflexivity. Qed.

(** A result does not depend on the fuel: whatever an entry point
    returns with some fuel, it returns with any larger amount. *)
Theorem more_fuel_same_result n m buffer size array capacity o :
  (n ≤ m)%nat →
  (json_parse n buffer size array capacity = Some o →
   json_parse m buffer size array capacity = Some o) ∧
  (sjson_parse n buffer size array capacity = Some o →
   sjson_parse m buffer size array capacity = Some o).
Proof.
  intros H. split.
  - apply json_parse_more_fuel. exact H.
  - apply sjson_parse_more_fuel. exact H.
Qed.

Lemma more_fuel_witness :
  (8 ≤ 9)%nat ∧
  json_parse 8 (memory "[1,2]" zeros) 5 [] 0
  = Some (3, mk_state [] 3 [0; 0; 1; 1; 1; 1; 1; 2; 2; 2; 3; 3; 3; 4; 4;
                            4; 4]) ∧
  json_parse 9 (memory "[1,2]" zeros) 5 [] 0
  = Some (3, mk_state [] 3 [0; 0; 1; 1; 1; 1; 1; 2; 2; 2; 3; 3; 3; 4; 4;
                            4; 4]).
Proof.
  assert (H : (8 ≤ 9)%nat) by lia. split; [exact H|].
  assert (P : json_parse 8 (memory "[1,2]" zeros) 5 [] 0
              = Some (3, mk_state [] 3 [0; 0; 1; 1; 1; 1; 1; 2; 2; 2; 3; 3;
                                        3; 4; 4; 4; 4]))
    by (vm_compute; reflexivity).
  split; [exact P|].
  destruct (more_fuel_same_result 8 9 (memory "[1,2]" zeros) 5 [] 0
              (3, mk_state [] 3 [0; 0; 1; 1; 1; 1; 1; 2; 2; 2; 3; 3; 3; 4;
                                 4; 4; 4]) H) as (J & _).
  exact (J P).
Defined.

(** X1.  In the permissive grammar the array loop never returns once it
    stands on a closing brace, an equals sign or a colon: the value
    parser produces an empty String token there without advancing, and
    the loop, which does not require a comma, calls it again at the
    same position.  So the permissive parse of the 4 bytes a=[} does
    not return, whatever the fuel. *)
Theorem permissive_array_never_returns fuel beyond array capacity :
  (∀ buffer size pos last st,
     0 ≤ size → size + 1 < 4294967296 → 0 ≤ pos < size →
     buffer pos = "}"%char ∨ buffer pos = "="%char ∨ buffer pos = ":"%char →
     parse_array_loop buffer size capacity true fuel pos last st = None) ∧
  sjson_parse fuel (memory "a=[}" beyond) 4 array capacity = None.
Proof.
  split.
  - intros. apply permissive_array_stalls; assumption.
  - apply sjson_unclosed_array.
Qed.

(** X2.  The strict parser returns: on a buffer of less than 4 GiB,
    2 * size + 1 units of fuel suffice for [json_parse], and any larger
    amount gives the same count and the same array. *)
Theorem strict_parse_returns fuel buffer size array capacity :
  0 ≤ size → size + 1 < 4294967296 → 2 * size + 1 ≤ Z.of_nat fuel →
  ∃ count st',
    ∀ fuel', (fuel ≤ fuel')%nat →
      json_parse fuel' buffer size array capacity = Some (count, st').
Proof.
  intros H0 H1 Hf.
  destruct (json_parse_returns buffer size capacity H0 H1 fuel array Hf)
    as (count & st' & H).
  exists count, st'. intros fuel' Hle.
  apply (json_parse_more_fuel fuel fuel'); assumption.
Qed.

Lemma strict_parse_returns_witness :
  0 ≤ 5 ∧ 5 + 1 < 4294967296 ∧ 2 * 5 + 1 ≤ Z.of_nat 11 ∧
  ∃ count st',
    ∀ fuel', (11 ≤ fuel')%nat →
      json_parse fuel' (memory "[1,2]" zeros) 5 [] 0 = Some (count, st').
Proof.
  assert (H0 : 0 ≤ 5) by lia. assert (H1 : 5 + 1 < 4294967296) by lia.
  assert (Hf : 2 * 5 + 1 ≤ Z.of_nat 11) by lia.
  split; [exact H0|]. split; [exact H1|]. split; [exact Hf|].
  exact (strict_parse_returns 11 (memory "[1,2]" zeros) 5 [] 0 H0 H1 Hf).
Defined.

(** X3.  After a successful parse of a buffer of less than 4 GiB, every
    token below the returned count and within the capacity has its
    value span inside the buffer, and so is its key span, except for
    the root token of [sjson_parse], whose key span may never have been
    assigned. *)
Theorem spans_within_buffer fuel buffer size array capacity count st'
    (i : nat) t :
  0 ≤ size → size + 1 < 4294967296 →
  json_parse fuel buffer size array capacity = Some (count, st') ∨
  sjson_parse fuel buffer size array capacity = Some (count, st') →
  count ≠ 0 →
  Z.of_nat i < count → Z.of_nat i < capacity →
  tokens st' !! i = Some t →
  (0 ≤ value t ∧ 0 ≤ value_length t ∧ value t + value_length t ≤ size) ∧
  (1 ≤ Z.of_nat i ∨
   json_parse fuel buffer size array capacity = Some (count, st') →
   0 ≤ id t ∧ 0 ≤ id_length t ∧ id t + id_length t ≤ size).
Proof.
  intros H0 H1 H Hc Hi Hcap Ht.
  destruct (parsed_token_shape buffer size capacity H0 H1 fuel array count
              st' i t H Hc Hi Hcap Ht) as (A & _ & K).
  split.
  - destruct (type t); try contradiction; lia.
  - intros [Hk|Hj]; [exact (K Hk)|].
    destruct (Z.eq_dec (Z.of_nat i) 0) as [Ei|Ei]; [|apply K; lia].
    destruct (json_parse_shape buffer size capacity H0 H1 fuel array count
                st' Hj Hc) as (_ & _ & R).
    destruct (R t) as (_ & R1 & R2).
    + rewrite <- Ei. apply slot_nat; assumption.
    + unfold key_ok in *. lia.
Qed.

Lemma spans_within_buffer_witness :
  ∃ st',
    json_parse 8 (memory "[1,2]" zeros) 5
      (replicate 3 (mk_token 7 7 7 7 7 7 JSON_STRING)) 3 = Some (3, st') ∧
    tokens st' !! 2%nat = Some (mk_token 0 0 3 1 0 0 JSON_PRIMITIVE) ∧
    (0 ≤ 3 ∧ 0 ≤ 1 ∧ 3 + 1 ≤ 5) ∧
    (1 ≤ Z.of_nat 2 ∨
     json_parse 8 (memory "[1,2]" zeros) 5
       (replicate 3 (mk_token 7 7 7 7 7 7 JSON_STRING)) 3 = Some (3, st') →
     0 ≤ 0 ∧ 0 ≤ 0 ∧ 0 + 0 ≤ 5).
Proof.
  eexists. split; [vm_compute; reflexivity|]. split; [reflexivity|].
  eapply (spans_within_buffer 8 (memory "[1,2]" zeros) 5
            (replicate 3 (mk_token 7 7 7 7 7 7 JSON_STRING)) 3 3 _ 2%nat
            (mk_token 0 0 3 1 0 0 JSON_PRIMITIVE)).
  - lia.
  - lia.
  - left. vm_compute. reflexivity.
  - lia.
  - lia.
  - lia.
  - reflexivity.
Defined.

(** X4.  The reads past the end are not limited to one byte: each array
    that is still open at the end of the buffer lets the parser look
    one byte further.  The strict parse of the 2 bytes [[ reads the
    byte at index 3 when the memory after the buffer holds closing
    brackets. *)
Theorem nested_arrays_read_further n array capacity :
  inspects (json_parse (8 + n) (memory "[[" (fun _ => "]"%char)) 2
              array capacity) 3 = true ∧
  count (json_parse (8 + n) (memory "[[" (fun _ => "]"%char)) 2
           array capacity) = Some 2.
Proof.
  split.
  - apply json_nested_arrays_read_further.
  - any_capacity. vm_compute. reflexivity.
Qed.

(** * The scans, byte by byte *)

Lemma wbind_snd {A B} (m : W A) (f : A → W B) :
  (wbind m f).2 = m.2 ++ (f m.1).2.
Proof. unfold wbind. destruct m as [a l]. simpl. destruct (f a). reflexivity. Qed.

Lemma wbind_peek_inv {B} buffer p (f : ascii → W B) r l :
  wbind (peek buffer p) f = (r, l) →
  ∃ l', f (buffer p) = (r, l') ∧ l = p :: l'.
Proof.
  unfold wbind, peek. destruct (f (buffer p)) as [b l2]. intros H.
  injection H as <- <-. exists l2. split; reflexivity.
Qed.

Lemma wbind_inv {A B} (m : W A) (f : A → W B) r l :
  wbind m f = (r, l) →
  ∃ l', f m.1 = (r, l') ∧ l = m.2 ++ l'.
Proof.
  unfold wbind. destruct m as [a l1]. cbn [fst snd].
  destruct (f a) as [b l2]. intros H.
  injection H as <- <-. exists l2. split; reflexivity.
Qed.

Ltac members :=
  repeat first [rewrite list_elem_of_singleton | rewrite elem_of_app
               | rewrite elem_of_cons | rewrite elem_of_nil].

(** One step of a lexer run [H : scan = (r, l)]. *)
Ltac wstep H :=
  lazymatch type of H with
  | wret _ = (_, _) => unfold wret in H; injection H as ? ?; subst
  | (if ?c then _ else _) = _ => destruct c eqn:?
  | wbind (peek _ _) _ = (_, _) =>
      let l' := fresh "l" in
      apply wbind_peek_inv in H; destruct H as (l' & H & ->);
      cbv beta in H
  end.

Section ScanFacts.
Variable buffer : Z → ascii.
Variable length : Z.
Hypothesis length_size : length ≤ STRING_NPOS.

Lemma skip_whitespace_loop_exact n pos :
  0 ≤ pos → (Z.to_nat (length - pos) ≤ n)%nat →
  let r := (skip_whitespace_loop buffer length n pos).1 in
  let l := (skip_whitespace_loop buffer length n pos).2 in
  pos ≤ r ∧ r ≤ Z.max pos length ∧
  (∀ i, pos ≤ i < r → is_whitespace (buffer i) = true) ∧
  (r < length → is_whitespace (buffer r) = false) ∧
  (∀ i, i ∈ l ↔ pos ≤ i ≤ r ∧ i < length).
Proof.
  revert pos. induction n as [|n IH]; intros pos Hp Hn;
    cbn [skip_whitespace_loop].
  - cbn [wret fst snd]. split; [lia|]. split; [lia|].
    split; [intros; lia|]. split; [intros; lia|].
    intros i. members. lia.
  - destruct (pos <? length) eqn:E.
    + apply Z.ltb_lt in E. rewrite wbind_fst, wbind_snd. cbn [peek fst snd].
      destruct (is_whitespace (buffer pos)) eqn:W.
      * rewrite sz_small by (unfold STRING_NPOS in *; lia).
        destruct (IH (pos + 1)) as (A & B & C & D & F); [lia|lia|].
        split; [lia|]. split; [lia|]. split; [|split; [exact D|]].
        -- intros i Hi. destruct (Z.eq_dec i pos) as [->|Hne]; [exact W|].
           apply C. lia.
        -- intros i. members. rewrite F. lia.
      * cbn [wret fst snd]. split; [lia|]. split; [lia|]. split; [intros; lia|].
        split; [intros; exact W|]. intros i. members. lia.
    + apply Z.ltb_ge in E. cbn [wret fst snd].
      split; [lia|]. split; [lia|]. split; [intros; lia|].
      split; [intros; lia|]. intros i. members. lia.
Qed.

Lemma number_byte_intro c :
  (c =c= ".") = true ∨ (c =c= "e") = true ∨ (c =c= "E") = true ∨
  (c =c= "+") = true ∨ (c =c= "-") = true ∨
  ((code c <? 48) || (57 <? code c)) = false →
  number_byte c = true.
Proof.
  unfold number_byte. intros H.
  destruct H as [H|[H|[H|[H|[H|H]]]]]; rewrite ?H, ?orb_true_r; auto.
  apply orb_false_iff in H. destruct H as [H1 H2].
  apply Z.ltb_ge in H1. apply Z.ltb_ge in H2.
  replace (48 <=? code c) with true by (symmetry; apply Z.leb_le; lia).
  replace (code c <=? 57) with true by (symmetry; apply Z.leb_le; lia).
  reflexivity.
Qed.

Lemma parse_number_loop_exact n start pos d g e r l :
  0 ≤ start ≤ pos → pos ≤ length → (Z.to_nat (length - pos) ≤ n)%nat →
  parse_number_loop buffer length n start pos d g e = (r, l) →
  (∀ i, i ∈ l → pos ≤ i < length) ∧
  (r ≠ STRING_NPOS →
   pos - start ≤ r ∧ start + r ≤ length ∧
   (∀ i, pos ≤ i < start + r → number_byte (buffer i) = true) ∧
   (start + r < length → is_token_delimiter (buffer (start + r)) = true) ∧
   (∀ i, i ∈ l → i ≤ start + r)).
Proof.
  revert pos d g e r l. induction n as [|n IH]; intros pos d g e r l Hs Hp Hn H;
    cbn [parse_number_loop] in H.
  - wstep H. rewrite sz_small by (unfold STRING_NPOS in *; lia).
    split; [intros i; members; lia|]. intros _.
    split; [lia|]. split; [lia|]. split; [intros; lia|].
    split; [intros; lia|]. intros i; members; lia.
  - assert (S0 : pos ⊖ start = pos - start)
      by (apply sz_small; unfold STRING_NPOS in *; lia).
    destruct (pos <? length) eqn:E.
    2:{ apply Z.ltb_ge in E. wstep H. rewrite S0.
        split; [intros i; members; lia|]. intros _.
        split; [lia|]. split; [lia|]. split; [intros; lia|].
        split; [intros; lia|]. intros i; members; lia. }
    apply Z.ltb_lt in E.
    assert (S1 : pos ⊕ 1 = pos + 1)
      by (apply sz_small; unfold STRING_NPOS in *; lia).
    rewrite ?S1 in H.
    repeat wstep H.
    all: try (split; [intros i; members; lia
                     |intros X; exfalso; apply X; reflexivity]).
    { rewrite S0. split; [intros i; members; lia|]. intros _.
      split; [lia|]. split; [lia|]. split; [intros; lia|].
      replace (start + (pos - start)) with pos by lia.
      split; [intros _; assumption|]. intros i; members; lia. }
    all: repeat match goal with
         | X : (_ <? _) = true |- _ => apply Z.ltb_lt in X
         | X : (_ =c= _) || (_ =c= _) = true |- _ => apply orb_true_iff in X
         end.
    all: rewrite ?(sz_small (pos + 1 + 1)) in H
           by (unfold STRING_NPOS in *; lia).
    all: apply IH in H; [|lia|lia|lia]; destruct H as (R & H).
    all: (split; [intros i; members; intros Hi;
                  repeat (destruct Hi as [->|Hi]; [lia|]);
                  apply R in Hi; lia|]).
    all: intros Hr; destruct (H Hr) as (A & B & C & D & F).
    all: (split; [lia|]; split; [lia|]; split; [|split; [exact D|]]).
    all: try (intros i; members; intros Hi;
              repeat (destruct Hi as [->|Hi]; [lia|]);
              apply F in Hi; lia).
    all: intros i Hi.
    all: destruct (Z.eq_dec i pos) as [->|Hne];
           [apply number_byte_intro; tauto|].
    all: try (destruct (Z.eq_dec i (pos + 1)) as [->|Hne1];
                [apply number_byte_intro; tauto|]).
    all: apply C; lia.
Qed.

Lemma unicode_escape_exact n pos r l :
  0 ≤ pos ≤ length → unicode_escape buffer length n pos = (r, l) →
  (∀ i, i ∈ l → pos < i ≤ length) ∧
  match r with
  | Some p => pos ≤ p ≤ length ∧
              (∀ i, pos < i ≤ p → is_hex_digit (buffer i) = true) ∧
              (∀ i, i ∈ l → i ≤ p)
  | None => True
  end.
Proof.
  revert pos r l. induction n as [|n IH]; intros pos r l Hp H;
    cbn [unicode_escape] in H.
  - wstep H. split; [intros i; members; lia|]. split; [lia|].
    split; [intros; lia|]. intros i; members; lia.
  - destruct (pos <? length) eqn:E.
    2:{ wstep H. split; [intros i; members; lia|]. split; [lia|].
        split; [intros; lia|]. intros i; members; lia. }
    apply Z.ltb_lt in E.
    rewrite sz_small in H by (unfold STRING_NPOS in *; lia).
    repeat wstep H.
    2:{ split; [intros i; members; lia|exact I]. }
    apply IH in H; [|lia]. destruct H as (R & H).
    split.
    + intros i; members; intros [->|Hi]; [lia|]. apply R in Hi. lia.
    + destruct r as [p|]; [|exact I]. destruct H as (A & B & K).
      split; [lia|]. split.
      * intros i Hi.
        destruct (Z.eq_dec i (pos + 1)) as [->|Hne]; [assumption|].
        apply B. lia.
      * intros i; members; intros [->|Hi]; [lia|]. apply K in Hi. lia.
Qed.

Lemma hex_digit_in_string simple c :
  is_hex_digit c = true → ends_string simple c = false.
Proof.
  revert c. 
  assert (H : ∀ c, (negb (is_hex_digit c) || negb (ends_string true c)) = true).
  { apply for_all_bytes. vm_compute. reflexivity. }
  intros c Hc. specialize (H c). rewrite Hc in H. cbn [negb orb] in H.
  apply negb_true_iff in H. destruct simple; [exact H|].
  unfold ends_string in *. cbn [andb orb] in *.
  apply orb_false_iff in H. tauto.
Qed.

Lemma parse_string_loop_exact n start pos simple r l :
  0 ≤ start ≤ pos → pos ≤ length → (Z.to_nat (length - pos) ≤ n)%nat →
  parse_string_loop buffer length n start pos simple = (r, l) →
  (∀ i, i ∈ l → pos ≤ i ≤ length) ∧
  (r ≠ STRING_NPOS →
   pos - start ≤ r ∧ start + r ≤ length ∧
   (∀ i, pos ≤ i < start + r → ends_string simple (buffer i) = false) ∧
   (start + r < length → ends_string simple (buffer (start + r)) = true) ∧
   (simple = false → start + r < length) ∧
   (∀ i, i ∈ l → i ≤ start + r)).
Proof.
  revert pos r l. induction n as [|n IH]; intros pos r l Hs Hp Hn H;
    cbn [parse_string_loop] in H.
  - wstep H. split; [intros i; members; lia|].
    destruct simple; [|intros X; exfalso; apply X; reflexivity].
    rewrite sz_small by (unfold STRING_NPOS in *; lia). intros _.
    split; [lia|]. split; [lia|]. split; [intros; lia|].
    split; [intros; lia|]. split; [discriminate|]. intros i; members; lia.
  - assert (S0 : pos ⊖ start = pos - start)
      by (apply sz_small; unfold STRING_NPOS in *; lia).
    destruct (pos <? length) eqn:E.
    2:{ apply Z.ltb_ge in E. wstep H. split; [intros i; members; lia|].
        destruct simple; [|intros X; exfalso; apply X; reflexivity].
        rewrite S0. intros _.
        split; [lia|]. split; [lia|]. split; [intros; lia|].
        split; [intros; lia|]. split; [discriminate|].
        intros i; members; lia. }
    apply Z.ltb_lt in E.
    assert (S1 : pos ⊕ 1 = pos + 1)
      by (apply sz_small; unfold STRING_NPOS in *; lia).
    rewrite ?S1 in H.
    wstep H. wstep H.
    { wstep H. rewrite S0. split; [intros i; members; lia|]. intros _.
      replace (start + (pos - start)) with pos by lia.
      split; [lia|]. split; [lia|]. split; [intros; lia|].
      split; [intros _; unfold ends_string; rewrite Heqb; reflexivity|].
      split; [intros ->; discriminate|]. intros i; members; lia. }
    wstep H.
    { wstep H. rewrite S0. split; [intros i; members; lia|]. intros _.
      replace (start + (pos - start)) with pos by lia.
      split; [lia|]. split; [lia|]. split; [intros; lia|].
      split; [intros _; unfold ends_string; rewrite Heqb0;
              apply orb_true_r|].
      split; [intros; lia|]. intros i; members; lia. }
    assert (C : ends_string simple (buffer pos) = false)
      by (unfold ends_string; rewrite Heqb, Heqb0; reflexivity).
    wstep H.
    2:{ apply IH in H; [|lia|lia|lia]. destruct H as (R & H). split.
        - intros i; members; intros [->|Hi]; [lia|]. apply R in Hi. lia.
        - intros Hr. destruct (H Hr) as (A & B & D & F & G & K).
          split; [lia|]. split; [lia|].
          split; [|split; [assumption|split; [assumption|]]].
          + intros i Hi. destruct (Z.eq_dec i pos) as [->|Hne]; [exact C|].
            apply D. lia.
          + intros i; members; intros [->|Hi]; [lia|]. apply K in Hi. lia. }
    apply andb_true_iff in Heqb1. destruct Heqb1 as [_ L1].
    apply Z.ltb_lt in L1.
    wstep H. wstep H.
    { apply IH in H; [|lia|lia|lia]. destruct H as (R & H). split.
      - intros i; members; intros [->|[->|Hi]]; [lia|lia|].
        apply R in Hi. lia.
      - intros Hr. destruct (H Hr) as (A & B & D & F & G & K).
        split; [lia|]. split; [lia|].
        split; [|split; [assumption|split; [assumption|]]].
        + intros i Hi. destruct (Z.eq_dec i pos) as [->|Hne]; [exact C|].
          apply D. lia.
        + intros i; members; intros [->|[->|Hi]]; [lia|lia|].
          apply K in Hi. lia. }
    wstep H.
    2:{ wstep H. split; [intros i; members; lia|].
        intros X; exfalso; apply X; reflexivity. }
    apply wbind_inv in H. destruct H as (lu & H & ->).
    destruct (unicode_escape buffer length 4 (pos + 1)) as [ro l4] eqn:U.
    apply unicode_escape_exact in U; [|lia]. destruct U as (RU & U).
    cbn [fst snd] in *. destruct ro as [p|].
    2:{ wstep H. split.
        - intros i; rewrite app_nil_r; members.
          intros [->|[->|Hi]]; [lia|lia|]. apply RU in Hi. lia.
        - intros X; exfalso; apply X; reflexivity. }
    destruct U as (Up & Uh & Ur).
    apply IH in H; [|lia|lia|lia]. destruct H as (R & H). split.
    + intros i; members; intros [->|[->|[Hi|Hi]]]; [lia|lia| |].
      * apply RU in Hi. lia.
      * apply R in Hi. lia.
    + intros Hr. destruct (H Hr) as (A & B & D & F & G & K).
      split; [lia|]. split; [lia|].
      split; [|split; [assumption|split; [assumption|]]].
      * intros i Hi. destruct (Z.eq_dec i pos) as [->|Hne]; [exact C|].
        destruct (Z.eq_dec i (pos + 1)) as [->|Hne1].
        { apply Ascii.eqb_eq in Heqb2. rewrite Heqb2.
          destruct simple; reflexivity. }
        destruct (Z_lt_le_dec i p) as [Hlt|Hge].
        -- apply hex_digit_in_string, Uh. lia.
        -- apply D. lia.
      * intros i; members; intros [->|[->|[Hi|Hi]]]; [lia|lia| |].
        -- apply Ur in Hi. lia.
        -- apply K in Hi. lia.
Qed.

(** Completeness of the scans on plain input *)

Lemma digit_dispatch c :
  is_digit c = true →
  is_token_delimiter c = false ∧ (c =c= "-") = false ∧ (c =c= ".") = false ∧
  ((c =c= "e") || (c =c= "E")) = false ∧
  ((code c <? 48) || (57 <? code c)) = false.
Proof.
  assert (H : ∀ c, (negb (is_digit c) ||
                    (negb (is_token_delimiter c) && negb (c =c= "-") &&
                     negb (c =c= ".") && negb ((c =c= "e") || (c =c= "E")) &&
                     negb ((code c <? 48) || (57 <? code c)))) = true).
  { apply for_all_bytes. vm_compute. reflexivity. }
  intros Hc. specialize (H c). rewrite Hc in H. cbn [negb orb] in H.
  repeat (apply andb_true_iff in H; destruct H as [H ?]).
  repeat match goal with
  | X : negb _ = true |- _ => apply negb_true_iff in X
  end.
  auto.
Qed.

Lemma dot_dispatch c :
  c = "."%char →
  is_token_delimiter c = false ∧ (c =c= "-") = false ∧ (c =c= ".") = true.
Proof. intros ->. repeat split; reflexivity. Qed.

Lemma parse_number_loop_decimal n start pos q dot has_dot has_digit :
  0 ≤ start ≤ pos → pos ≤ q ≤ length →
  (Z.to_nat (length - pos) ≤ n)%nat →
  (∀ i, pos ≤ i < q →
     is_digit (buffer i) = true ∨ (i = dot ∧ buffer i = "."%char)) →
  (has_dot = true → dot < pos) →
  (q < length → is_token_delimiter (buffer q) = true) →
  (parse_number_loop buffer length n start pos has_dot has_digit false).1
  = q - start.
Proof.
  revert pos has_dot has_digit.
  induction n as [|n IH]; intros pos d g Hs Hq Hn Hb Hd He;
    cbn [parse_number_loop].
  - cbn [wret fst]. rewrite sz_small by (unfold STRING_NPOS in *; lia). lia.
  - assert (S0 : pos ⊖ start = pos - start)
      by (apply sz_small; unfold STRING_NPOS in *; lia).
    destruct (pos <? length) eqn:E.
    2:{ apply Z.ltb_ge in E. cbn [wret fst]. lia. }
    apply Z.ltb_lt in E. rewrite wbind_fst. cbn [peek fst].
    assert (S1 : pos ⊕ 1 = pos + 1)
      by (apply sz_small; unfold STRING_NPOS in *; lia).
    destruct (Z.eq_dec pos q) as [->|Hne].
    { rewrite (He E). cbn [wret fst]. lia. }
    destruct (Hb pos) as [Hc|[-> Hc]]; [lia| |].
    + destruct (digit_dispatch _ Hc) as (A & B & C & D & F).
      rewrite A, B, C, D, F. cbn [andb]. rewrite S1.
      apply IH; try lia.
      * intros i Hi. apply Hb. lia.
      * intros X. specialize (Hd X). lia.
      * exact He.
    + destruct (dot_dispatch _ Hc) as (A & B & C).
      rewrite A, B, C. cbn [andb].
      destruct d; [specialize (Hd eq_refl); lia|]. cbn [orb]. rewrite S1.
      apply IH; try lia.
      * intros i Hi. destruct (Hb i) as [X|[X _]]; [lia|left; exact X|lia].
      * exact He.
Qed.

Lemma parse_string_loop_plain n start pos q simple :
  0 ≤ start ≤ pos → pos ≤ q ≤ length →
  (Z.to_nat (length - pos) ≤ n)%nat →
  (∀ i, pos ≤ i < q →
     ends_string simple (buffer i) = false ∧
     ((buffer i =c= "\") = true → i + 1 < length →
      is_simple_escape (buffer (i + 1)) = true)) →
  (q < length → ends_string simple (buffer q) = true) →
  (simple = false → q < length) →
  (parse_string_loop buffer length n start pos simple).1 = q - start.
Proof.
  revert pos. induction n as [|n IH]; intros pos Hs Hq Hn Hb He Hstrict;
    cbn [parse_string_loop].
  - destruct simple; [|specialize (Hstrict eq_refl); lia].
    cbn [wret fst]. rewrite sz_small by (unfold STRING_NPOS in *; lia). lia.
  - assert (S0 : pos ⊖ start = pos - start)
      by (apply sz_small; unfold STRING_NPOS in *; lia).
    destruct (pos <? length) eqn:E.
    2:{ apply Z.ltb_ge in E.
        destruct simple; [|specialize (Hstrict eq_refl); lia].
        cbn [wret fst]. lia. }
    apply Z.ltb_lt in E. rewrite wbind_fst. cbn [peek fst].
    assert (S1 : pos ⊕ 1 = pos + 1)
      by (apply sz_small; unfold STRING_NPOS in *; lia).
    destruct (Z.eq_dec pos q) as [->|Hne].
    { specialize (He E). unfold ends_string in He.
      destruct (simple && _); [cbn [wret fst]; lia|].
      cbn [orb] in He. rewrite He. cbn [wret fst]. lia. }
    destruct (Hb pos) as (C & Esc); [lia|].
    unfold ends_string in C. apply orb_false_iff in C. destruct C as [C1 C2].
    rewrite C1, C2, S1.
    assert (Next : (parse_string_loop buffer length n start (pos + 1) simple).1
                   = q - start).
    { apply IH; try lia; try assumption. intros i Hi. apply Hb. lia. }
    destruct ((buffer pos =c= "\") && (pos + 1 <? length)) eqn:B;
      [|exact Next].
    apply andb_true_iff in B. destruct B as [B1 B2]. apply Z.ltb_lt in B2.
    rewrite wbind_fst. cbn [peek fst]. rewrite (Esc B1 B2). exact Next.
Qed.

End ScanFacts.

(** The result and the reads of skip_whitespace. *)
Lemma skip_whitespace_exact buffer length pos :
  0 ≤ pos → length ≤ STRING_NPOS →
  pos ≤ (skip_whitespace buffer length pos).1 ≤ Z.max pos length ∧
  (∀ i, pos ≤ i < (skip_whitespace buffer length pos).1 →
     is_whitespace (buffer i) = true) ∧
  ((skip_whitespace buffer length pos).1 < length →
     is_whitespace (buffer (skip_whitespace buffer length pos).1) = false) ∧
  (∀ i, i ∈ (skip_whitespace buffer length pos).2 ↔
        pos ≤ i ≤ (skip_whitespace buffer length pos).1 ∧ i < length).
Proof.
  intros Hp Hl.
  destruct (skip_whitespace_loop_exact buffer length Hl
              (Z.to_nat (length - pos)) pos Hp (Nat.le_refl _))
    as (A & B & C & D & F).
  unfold skip_whitespace. auto.
Qed.

(** X5.  skip_whitespace returns the first index from [pos] on that is
    the end of the buffer or holds a byte other than space, tab, line
    feed and carriage return; the bytes it inspects are exactly those
    from [pos] to the result that lie inside the buffer. *)
Theorem skip_whitespace_finds_first_significant buffer length pos :
  0 ≤ pos → length ≤ STRING_NPOS →
  pos ≤ (skip_whitespace buffer length pos).1 ≤ Z.max pos length ∧
  (∀ i, pos ≤ i < (skip_whitespace buffer length pos).1 →
     is_whitespace (buffer i) = true) ∧
  ((skip_whitespace buffer length pos).1 < length →
     is_whitespace (buffer (skip_whitespace buffer length pos).1) = false) ∧
  (∀ i, i ∈ (skip_whitespace buffer length pos).2 ↔
        pos ≤ i ≤ (skip_whitespace buffer length pos).1 ∧ i < length).
Proof. apply skip_whitespace_exact. Qed.

Lemma skip_whitespace_finds_first_significant_witness :
  0 ≤ 0 ∧ 4 ≤ STRING_NPOS ∧
  (skip_whitespace (memory "  x " zeros) 4 0).1 = 2 ∧
  is_whitespace (memory "  x " zeros 2) = false ∧
  (3 ∈ (skip_whitespace (memory "  x " zeros) 4 0).2 ↔
   0 ≤ 3 ≤ (skip_whitespace (memory "  x " zeros) 4 0).1 ∧ 3 < 4).
Proof.
  assert (H0 : 0 ≤ 0) by lia.
  assert (H1 : 4 ≤ STRING_NPOS) by (unfold STRING_NPOS; lia).
  split; [exact H0|]. split; [exact H1|]. split; [reflexivity|].
  destruct (skip_whitespace_finds_first_significant
              (memory "  x " zeros) 4 0 H0 H1) as (_ & _ & A & B).
  split; [apply A; vm_compute; reflexivity|apply B].
Defined.

(** The result and the reads of parse_number. *)
Lemma parse_number_exact buffer length pos :
  0 ≤ pos ≤ length → length ≤ STRING_NPOS →
  (∀ i, i ∈ (parse_number buffer length pos).2 → pos ≤ i < length) ∧
  ((parse_number buffer length pos).1 ≠ STRING_NPOS →
   0 ≤ (parse_number buffer length pos).1 ∧
   pos + (parse_number buffer length pos).1 ≤ length ∧
   (∀ i, pos ≤ i < pos + (parse_number buffer length pos).1 →
      number_byte (buffer i) = true) ∧
   (pos + (parse_number buffer length pos).1 < length →
      is_token_delimiter
        (buffer (pos + (parse_number buffer length pos).1)) = true) ∧
   (∀ i, i ∈ (parse_number buffer length pos).2 →
      i ≤ pos + (parse_number buffer length pos).1)).
Proof.
  intros Hp Hl. unfold parse_number.
  destruct (parse_number_loop buffer length (Z.to_nat (length - pos)) pos pos
              false false false) as [r l] eqn:E.
  apply parse_number_loop_exact in E; [|assumption|lia|lia|lia].
  cbn [fst snd]. destruct E as (R & E). split; [exact R|].
  intros Hr. destruct (E Hr) as (A & B & C & D & F).
  split; [lia|]. split; [lia|]. split; [assumption|]. split; assumption.
Qed.

(** X6.  What parse_number accepts is a run of bytes from the set
    0-9 . e E + - that ends at a delimiter or at the end of the buffer;
    the scan inspects no byte outside the buffer and, when it accepts,
    none after the byte that follows the number. *)
Theorem parse_number_span buffer length pos :
  0 ≤ pos ≤ length → length ≤ STRING_NPOS →
  (∀ i, i ∈ (parse_number buffer length pos).2 → pos ≤ i < length) ∧
  ((parse_number buffer length pos).1 ≠ STRING_NPOS →
   0 ≤ (parse_number buffer length pos).1 ∧
   pos + (parse_number buffer length pos).1 ≤ length ∧
   (∀ i, pos ≤ i < pos + (parse_number buffer length pos).1 →
      number_byte (buffer i) = true) ∧
   (pos + (parse_number buffer length pos).1 < length →
      is_token_delimiter
        (buffer (pos + (parse_number buffer length pos).1)) = true) ∧
   (∀ i, i ∈ (parse_number buffer length pos).2 →
      i ≤ pos + (parse_number buffer length pos).1)).
Proof. apply parse_number_exact. Qed.

Lemma parse_number_span_witness :
  0 ≤ 1 ≤ 8 ∧ 8 ≤ STRING_NPOS ∧
  (parse_number (memory "[1.5e+3]" zeros) 8 1).1 = 6 ∧
  number_byte (memory "[1.5e+3]" zeros 5) = true ∧
  is_token_delimiter (memory "[1.5e+3]" zeros (1 + 6)) = true.
Proof.
  assert (H0 : 0 ≤ 1 ≤ 8) by lia.
  assert (H1 : 8 ≤ STRING_NPOS) by (unfold STRING_NPOS; lia).
  assert (R : (parse_number (memory "[1.5e+3]" zeros) 8 1).1 = 6)
    by reflexivity.
  split; [exact H0|]. split; [exact H1|]. split; [exact R|].
  destruct (parse_number_span (memory "[1.5e+3]" zeros) 8 1 H0 H1)
    as (_ & A).
  rewrite R in A. destruct A as (_ & _ & A & B & _); [discriminate|].
  split; [apply A; lia|apply B; lia].
Defined.

(** parse_number on decimal digits with at most one point. *)
Lemma parse_number_of_decimal buffer length pos q dot :
  0 ≤ pos ≤ q → q ≤ length → length ≤ STRING_NPOS →
  (∀ i, pos ≤ i < q →
     is_digit (buffer i) = true ∨ (i = dot ∧ buffer i = "."%char)) →
  (q < length → is_token_delimiter (buffer q) = true) →
  (parse_number buffer length pos).1 = q - pos.
Proof.
  intros Hp Hq Hl Hb He. unfold parse_number.
  apply (parse_number_loop_decimal buffer length Hl _ pos pos q dot);
    first [assumption | lia | discriminate].
Qed.

(** X7.  parse_number accepts every run of decimal digits with at most
    one point in it that ends at a delimiter or at the end of the
    buffer, and returns its length; no digit is required before or
    after the point, or at all. *)
Theorem parse_number_decimal buffer length pos q dot :
  0 ≤ pos ≤ q → q ≤ length → length ≤ STRING_NPOS →
  (∀ i, pos ≤ i < q →
     is_digit (buffer i) = true ∨ (i = dot ∧ buffer i = "."%char)) →
  (q < length → is_token_delimiter (buffer q) = true) →
  (parse_number buffer length pos).1 = q - pos.
Proof. apply parse_number_of_decimal. Qed.

Lemma parse_number_decimal_witness :
  0 ≤ 1 ≤ 2 ∧ 2 ≤ 3 ∧ 3 ≤ STRING_NPOS ∧
  (parse_number (memory "[.]" zeros) 3 1).1 = 2 - 1.
Proof.
  assert (H0 : 0 ≤ 1 ≤ 2) by lia. assert (H1 : 2 ≤ 3) by lia.
  assert (H2 : 3 ≤ STRING_NPOS) by (unfold STRING_NPOS; lia).
  split; [exact H0|]. split; [exact H1|]. split; [exact H2|].
  apply (parse_number_decimal (memory "[.]" zeros) 3 1 2 1 H0 H1 H2).
  - intros i Hi. right. assert (i = 1) as -> by lia. split; reflexivity.
  - intros _. reflexivity.
Defined.

(** The result and the reads of parse_string. *)
Lemma parse_string_exact buffer length pos simple :
  0 ≤ pos ≤ length → length ≤ STRING_NPOS →
  (∀ i, i ∈ (parse_string buffer length pos simple).2 → pos ≤ i ≤ length) ∧
  ((parse_string buffer length pos simple).1 ≠ STRING_NPOS →
   0 ≤ (parse_string buffer length pos simple).1 ∧
   pos + (parse_string buffer length pos simple).1 ≤ length ∧
   (∀ i, pos ≤ i < pos + (parse_string buffer length pos simple).1 →
      ends_string simple (buffer i) = false) ∧
   (pos + (parse_string buffer length pos simple).1 < length →
      ends_string simple
        (buffer (pos + (parse_string buffer length pos simple).1)) = true) ∧
   (simple = false →
      pos + (parse_string buffer length pos simple).1 < length) ∧
   (∀ i, i ∈ (parse_string buffer length pos simple).2 →
      i ≤ pos + (parse_string buffer length pos simple).1)).
Proof.
  intros Hp Hl. unfold parse_string.
  destruct (parse_string_loop buffer length (Z.to_nat (length - pos)) pos pos
              simple) as [r l] eqn:E.
  apply parse_string_loop_exact in E; [|assumption|lia|lia|lia].
  cbn [fst snd]. destruct E as (R & E). split; [exact R|].
  intros Hr. destruct (E Hr) as (A & B & C & D & F & G).
  split; [lia|]. split; [lia|]. split; [assumption|].
  split; [assumption|]. split; assumption.
Qed.

(** X8.  What parse_string measures ends at the first byte that ends a
    string: in the strict grammar the first double quote, which must lie
    inside the buffer, whether or not a backslash precedes it; in the
    permissive grammar the first double quote, delimiter, '=' or ':',
    or the end of the buffer.  The scan inspects no byte beyond index
    [length], and when it accepts none beyond the end of the string. *)
Theorem parse_string_span buffer length pos simple :
  0 ≤ pos ≤ length → length ≤ STRING_NPOS →
  (∀ i, i ∈ (parse_string buffer length pos simple).2 → pos ≤ i ≤ length) ∧
  ((parse_string buffer length pos simple).1 ≠ STRING_NPOS →
   0 ≤ (parse_string buffer length pos simple).1 ∧
   pos + (parse_string buffer length pos simple).1 ≤ length ∧
   (∀ i, pos ≤ i < pos + (parse_string buffer length pos simple).1 →
      ends_string simple (buffer i) = false) ∧
   (pos + (parse_string buffer length pos simple).1 < length →
      ends_string simple
        (buffer (pos + (parse_string buffer length pos simple).1)) = true) ∧
   (simple = false →
      pos + (parse_string buffer length pos simple).1 < length) ∧
   (∀ i, i ∈ (parse_string buffer length pos simple).2 →
      i ≤ pos + (parse_string buffer length pos simple).1)).
Proof. apply parse_string_exact. Qed.

(** The strict scan of a string that holds the bytes a, backslash,
    double quote, b stops at the escaped quote. *)
Lemma parse_string_span_witness :
  0 ≤ 1 ≤ 6 ∧ 6 ≤ STRING_NPOS ∧
  (parse_string (memory (q ++ "a\" ++ q ++ "b" ++ q) zeros) 6 1 false).1 = 2 ∧
  ends_string false (memory (q ++ "a\" ++ q ++ "b" ++ q) zeros (1 + 2)) = true.
Proof.
  assert (H0 : 0 ≤ 1 ≤ 6) by lia.
  assert (H1 : 6 ≤ STRING_NPOS) by (unfold STRING_NPOS; lia).
  assert (R : (parse_string (memory (q ++ "a\" ++ q ++ "b" ++ q) zeros) 6 1
                 false).1 = 2) by reflexivity.
  split; [exact H0|]. split; [exact H1|]. split; [exact R|].
  destruct (parse_string_span (memory (q ++ "a\" ++ q ++ "b" ++ q) zeros) 6 1
              false H0 H1) as (_ & A).
  rewrite R in A. destruct A as (_ & _ & _ & A & _ & _); [discriminate|].
  apply A. lia.
Defined.

(** X9.  parse_string accepts text in which every backslash is followed
    by one of the eight one-letter escapes: the result is the distance
    to the first byte that ends a string, or in the permissive grammar
    to the end of the buffer when there is none. *)
Theorem parse_string_plain buffer length pos q simple :
  0 ≤ pos ≤ q → q ≤ length → length ≤ STRING_NPOS →
  (∀ i, pos ≤ i < q →
     ends_string simple (buffer i) = false ∧
     ((buffer i =c= "\") = true → i + 1 < length →
      is_simple_escape (buffer (i + 1)) = true)) →
  (q < length → ends_string simple (buffer q) = true) →
  (simple = false → q < length) →
  (parse_string buffer length pos simple).1 = q - pos.
Proof.
  intros Hp Hq Hl Hb He Hs. unfold parse_string.
  apply (parse_string_loop_plain buffer length Hl _ pos pos q simple);
    try assumption; lia.
Qed.

Lemma parse_string_plain_witness :
  0 ≤ 0 ≤ 3 ∧ 3 ≤ 3 ∧ 3 ≤ STRING_NPOS ∧
  (parse_string (memory "a\n" zeros) 3 0 true).1 = 3 - 0.
Proof.
  assert (H0 : 0 ≤ 0 ≤ 3) by lia. assert (H1 : 3 ≤ 3) by lia.
  assert (H2 : 3 ≤ STRING_NPOS) by (unfold STRING_NPOS; lia).
  split; [exact H0|]. split; [exact H1|]. split; [exact H2|].
  apply (parse_string_plain (memory "a\n" zeros) 3 0 3 true H0 H1 H2).
  - intros i Hi.
    assert (Hc : i = 0 ∨ i = 1 ∨ i = 2) by lia.
    destruct Hc as [-> | [-> | -> ]]; (split; [reflexivity|]); intros X Y;
      first [discriminate X|reflexivity].
  - intros X. lia.
  - discriminate.
Defined.

(** * The entry points on plain inputs *)

Section CountBound.
Variable buffer : Z → ascii.
Variable size : Z.
Variable capacity : Z.
Hypothesis size_nonneg : 0 ≤ size.
Hypothesis size_small : size + 1 < 4294967296.

Lemma json_scan_bound fuel tokens pos st' :
  json_scan fuel buffer size capacity (initial tokens) = Some (pos, st') →
  pos ≠ STRING_NPOS → current st' ≤ size.
Proof.
  rewrite json_scan_unfold. intros H Hr.
  destruct (spec_all buffer size capacity size_nonneg size_small false fuel)
    as ((Hv & _) & _).
  assert (C0 : current (json_initial capacity tokens) = 0)
    by (unfold json_initial; rewrite !current_store_st; reflexivity).
  destruct (Hv 0 (json_initial capacity tokens) pos st')
    as [P1 P2 P3 P4 P5 P6 P7]; [|exact H|exact Hr|].
  - constructor.
    + unfold STRING_NPOS. lia.
    + lia.
    + unfold phi. lia.
    + apply WF_start. exact C0.
    + lia.
  - unfold phi, zero_width in P3. rewrite C0 in P3. lia.
Qed.

Lemma sjson_scan_bound fuel tokens pos st' :
  sjson_scan fuel buffer size capacity (initial tokens) = Some (pos, st') →
  pos ≠ STRING_NPOS → current st' ≤ size + 1.
Proof.
  intros H Hr.
  destruct (spec_all buffer size capacity size_nonneg size_small true fuel)
    as ((Hv & _) & Ho & _).
  pose proof (skip_whitespace_spec buffer size size_small 0 ltac:(lia)) as S.
  unfold sjson_scan in H. unfold_parser_in H.
  set (p := (skip_whitespace buffer size 0).1) in *.
  repeat step H.
  - lazymatch type of H with
    | _ ?X = _ =>
        destruct (object_body_call buffer size capacity true size_small _ Ho
                    p X pos st') as [P1 P2 P3 P4 P5]; [|lia|exact H|exact Hr|]
    end.
    + constructor.
      * unfold STRING_NPOS. lia.
      * autorewrite with st; cbn [initial current]; rewrite ?u32_small by lia; lia.
      * unfold phi. autorewrite with st; cbn [initial current]; rewrite ?u32_small by lia; lia.
      * apply WF_emit_complex;
          [|autorewrite with st; cbn [initial current]; rewrite ?u32_small by lia; lia..
           |intros; lia|left; reflexivity].
        apply WF_store_above; [|autorewrite with st; cbn [initial current]; lia].
        apply WF_start. reflexivity.
      * left. reflexivity.
    + unfold phi in P3. autorewrite with st in P3. cbn [initial current] in P3.
      rewrite u32_small in P3 by lia. lia.
  - lazymatch type of H with
    | _ ?X = _ =>
        destruct (Hv p X pos st') as [P1 P2 P3 P4 P5 P6 P7];
          [|exact H|exact Hr|]
    end.
    + constructor.
      * unfold STRING_NPOS. lia.
      * autorewrite with st; cbn [initial current]; lia.
      * unfold phi. autorewrite with st; cbn [initial current]; lia.
      * apply WF_start. reflexivity.
      * autorewrite with st; cbn [initial current]; lia.
    + unfold phi, zero_width in P3. autorewrite with st in P3.
      cbn [initial current] in P3. lia.
  - lazymatch type of H with
    | _ ?X = _ =>
        destruct (Hv p X pos st') as [P1 P2 P3 P4 P5 P6 P7];
          [|exact H|exact Hr|]
    end.
    + constructor.
      * unfold STRING_NPOS. lia.
      * autorewrite with st; cbn [initial current]; lia.
      * unfold phi. autorewrite with st; cbn [initial current]; lia.
      * apply WF_start. reflexivity.
      * autorewrite with st; cbn [initial current]; lia.
    + unfold phi, zero_width in P3. autorewrite with st in P3.
      cbn [initial current] in P3. lia.
Qed.

End CountBound.

(** X10.  A parse cannot produce more tokens than the buffer has bytes:
    json_parse returns at most [size], sjson_parse, which adds the
    implicit root, at most [size + 1]. *)
Theorem count_bounded_by_size fuel buffer size array capacity n st' :
  0 ≤ size → size + 1 < 4294967296 →
  (json_parse fuel buffer size array capacity = Some (n, st') → 0 ≤ n ≤ size) ∧
  (sjson_parse fuel buffer size array capacity = Some (n, st') →
   0 ≤ n ≤ size + 1).
Proof.
  intros H0 H1. split; intros H; apply count_or_zero_inv in H;
    destruct H as (pos & H & ->);
    (destruct (pos =? STRING_NPOS) eqn:E; [lia|]); apply Z.eqb_neq in E.
  - pose proof (json_scan_bound buffer size capacity H0 H1 _ _ _ _ H E).
    destruct (json_scan_shape buffer size capacity H0 H1 _ _ _ _ H E). lia.
  - pose proof (sjson_scan_bound buffer size capacity H0 H1 _ _ _ _ H E).
    destruct (sjson_scan_shape buffer size capacity H0 H1 _ _ _ _ H E). lia.
Qed.

Lemma count_bounded_by_size_witness :
  0 ≤ 5 ∧ 5 + 1 < 4294967296 ∧
  ∃ st', json_parse 8 (memory "[1,2]" zeros) 5 [] 0 = Some (3, st') ∧
         0 ≤ 3 ≤ 5.
Proof.
  assert (H0 : 0 ≤ 5) by lia. assert (H1 : 5 + 1 < 4294967296) by lia.
  split; [exact H0|]. split; [exact H1|].
  eexists. split; [vm_compute; reflexivity|].
  refine (proj1 (count_bounded_by_size 8 (memory "[1,2]" zeros) 5 [] 0 3 _
                   H0 H1) _).
  vm_compute. reflexivity.
Defined.

Lemma inspects_reads r st i :
  inspects (Some (r, st)) i = true ↔ i ∈ reads st.
Proof.
  cbn [inspects]. rewrite existsb_exists. split.
  - intros (x & Hx & E). apply Z.eqb_eq in E. subst x.
    apply list_elem_of_In. exact Hx.
  - intros H. exists i. split; [apply list_elem_of_In; exact H|apply Z.eqb_refl].
Qed.

(** X11.  A buffer that holds nothing but whitespace (the empty buffer
    included) has no value: both entry points return 0, sjson_parse
    without writing to the array, and neither inspects a byte outside
    the buffer. *)
Theorem blank_input_is_rejected fuel buffer size array capacity :
  0 ≤ size → size ≤ STRING_NPOS →
  (∀ i, 0 ≤ i < size → is_whitespace (buffer i) = true) →
  count (json_parse (S fuel) buffer size array capacity) = Some 0 ∧
  result (sjson_parse (S fuel) buffer size array capacity) = Some (0, array) ∧
  ∀ i, inspects (json_parse (S fuel) buffer size array capacity) i = true ∨
       inspects (sjson_parse (S fuel) buffer size array capacity) i = true →
       0 ≤ i < size.
Proof.
  intros H0 H1 Hw.
  destruct (skip_whitespace_exact buffer size 0
              ltac:(lia) H1) as (A & B & C & D).
  destruct (skip_whitespace buffer size 0) as [r l] eqn:E. cbn [fst snd] in *.
  assert (r = size) as ->.
  { destruct (Z_lt_le_dec r size) as [Hlt|Hge]; [|lia].
    specialize (C Hlt). rewrite Hw in C by lia. discriminate. }
  unfold json_parse, sjson_parse, json_scan, sjson_scan, count_or_zero.
  rewrite !parse_value_S. unfold_parser. rewrite E. cbn [fst snd].
  rewrite Z.ltb_irrefl. cbv beta iota zeta.
  rewrite parse_value_S. unfold_parser.
  rewrite (skip_whitespace_beyond buffer size size) by lia. cbn [fst snd].
  rewrite Z.ltb_irrefl. cbv beta iota zeta.
  rewrite Z.eqb_refl.
  split; [reflexivity|]. split; [reflexivity|].
  intros i [Hi|Hi]; apply inspects_reads in Hi;
    autorewrite with st in Hi; cbn [initial reads] in Hi;
    revert Hi; members; rewrite !D; intros; lia.
Qed.

Lemma blank_input_is_rejected_witness :
  0 ≤ 2 ∧ 2 ≤ STRING_NPOS ∧
  count (json_parse 1 (memory "  " zeros) 2 [] 0) = Some 0 ∧
  result (sjson_parse 1 (memory "  " zeros) 2 [] 0) = Some (0, []).
Proof.
  assert (H0 : 0 ≤ 2) by lia.
  assert (H1 : 2 ≤ STRING_NPOS) by (unfold STRING_NPOS; lia).
  split; [exact H0|]. split; [exact H1|].
  destruct (blank_input_is_rejected 0 (memory "  " zeros) 2 [] 0 H0 H1)
    as (A & B & _).
  - intros i Hi. assert (Hc : i = 0 ∨ i = 1) by lia.
    destruct Hc as [-> | ->]; reflexivity.
  - split; [exact A|exact B].
Defined.


(** X12.  json_parse succeeds only on a buffer whose first significant
    byte opens an object, an array or a string, or is a digit, a point,
    t or f: anything else, the n of null and the minus sign of a
    negative number included, makes it return 0. *)
Theorem strict_value_starts fuel buffer size array capacity n st' :
  size ≤ STRING_NPOS →
  json_parse fuel buffer size array capacity = Some (n, st') → n ≠ 0 →
  (skip_whitespace buffer size 0).1 < size ∧
  value_start (buffer (skip_whitespace buffer size 0).1) = true.
Proof.
  intros Hs H Hn. destruct fuel as [|fuel]; [discriminate H|].
  unfold json_parse, json_scan, count_or_zero in H.
  rewrite parse_value_S in H. unfold_parser_in H.
  set (p := (skip_whitespace buffer size 0).1) in *.
  pose proof (skip_whitespace_exact buffer size 0
                ltac:(lia) Hs) as (A & _).
  fold p in A.
  assert (Hp : p < size → (p ⊕ 1) ⊖ 1 = p).
  { intros Hlt. rewrite (sz_small (p + 1)) by (unfold STRING_NPOS in *; lia).
    replace (p + 1 - 1) with p by lia.
    apply sz_small. unfold STRING_NPOS in *. lia. }
  destruct (p <? size) eqn:L; cbv beta iota zeta in H.
  2:{ cbn in H. injection H as <- _. contradiction. }
  apply Z.ltb_lt in L. split; [exact L|]. unfold value_start.
  cbn [peek fst snd] in H.
  destruct (buffer p =c= "{") eqn:C1; [reflexivity|].
  destruct (buffer p =c= "[") eqn:C2; [reflexivity|].
  destruct (buffer p =c= dquote) eqn:C3; [rewrite !orb_true_r; reflexivity|].
  cbv beta iota zeta in H. cbn [negb] in H.
  destruct (is_number_start (buffer p)) eqn:C4; cbv beta iota zeta in H.
  - rewrite (Hp L) in H.
    destruct (buffer p =c= "-") eqn:C5.
    + apply Ascii.eqb_eq in C5.
      rewrite (minus_rejected_by_parse_number buffer size p L C5) in H.
      cbn in H. injection H as <- _. contradiction.
    + unfold is_number_start in C4. rewrite C5 in C4. cbn [orb] in C4.
      unfold is_digit. rewrite <- !orb_assoc. cbn [orb].
      apply orb_true_iff in C4. destruct C4 as [-> | ->];
        rewrite ?orb_true_r; reflexivity.
  - destruct ((buffer p =c= "t") || (buffer p =c= "f")) eqn:C5.
    + apply orb_true_iff in C5. destruct C5 as [-> | ->];
        rewrite ?orb_true_r; reflexivity.
    + cbn in H. injection H as <- _. contradiction.
Qed.

Lemma strict_value_starts_witness :
  5 ≤ STRING_NPOS ∧
  ∃ st', json_parse 8 (memory "[1,2]" zeros) 5 [] 0 = Some (3, st') ∧
         3 ≠ 0 ∧
         (skip_whitespace (memory "[1,2]" zeros) 5 0).1 < 5 ∧
         value_start (memory "[1,2]" zeros
                        (skip_whitespace (memory "[1,2]" zeros) 5 0).1) = true.
Proof.
  assert (H0 : 5 ≤ STRING_NPOS) by (unfold STRING_NPOS; lia).
  assert (H1 : 3 ≠ 0) by lia.
  split; [exact H0|]. eexists. split; [vm_compute; reflexivity|].
  split; [exact H1|].
  eapply (strict_value_starts 8 (memory "[1,2]" zeros) 5 [] 0 3 _ H0);
    [vm_compute; reflexivity|exact H1].
Defined.

Lemma skip_whitespace_at_byte buffer length pos :
  pos < length → is_whitespace (buffer pos) = false →
  skip_whitespace buffer length pos = (pos, [pos]).
Proof.
  intros Hp W. unfold skip_whitespace.
  destruct (Z.to_nat (length - pos)) as [|n] eqn:E; [lia|].
  cbn [skip_whitespace_loop]. apply Z.ltb_lt in Hp. rewrite Hp.
  unfold wbind, peek. rewrite W. reflexivity.
Qed.

Lemma decimal_start buffer q dot :
  1 ≤ q →
  (∀ i, 0 ≤ i < q →
     is_digit (buffer i) = true ∨ (i = dot ∧ buffer i = "."%char)) →
  is_number_start (buffer 0) = true ∧ (buffer 0 =c= "{") = false ∧
  (buffer 0 =c= "[") = false.
Proof.
  intros Hq Hb. destruct (Hb 0) as [H|[_ H]]; [lia| |].
  - assert (A : ∀ c, (negb (is_digit c) ||
                      (is_number_start c && negb (c =c= "{") &&
                       negb (c =c= "["))) = true).
    { apply for_all_bytes. vm_compute. reflexivity. }
    specialize (A (buffer 0)). rewrite H in A. cbn [negb orb] in A.
    repeat (apply andb_true_iff in A; destruct A as [A ?]).
    repeat match goal with
    | X : negb _ = true |- _ => apply negb_true_iff in X
    end. auto.
  - rewrite H. repeat split; reflexivity.
Qed.








(** * The tokens do not depend on the array *)

Section TokenAgreement.
Variable capacity : Z.

Local Abbreviation below := (below capacity).
Local Abbreviation keyed := (keyed capacity).

Lemma below_add_reads l1 l2 s1 s2 :
  below s1 s2 → below (add_reads l1 s1) (add_reads l2 s2).
Proof. intros H. exact H. Qed.

Lemma keyed_add_reads l1 l2 s1 s2 :
  keyed s1 s2 → keyed (add_reads l1 s1) (add_reads l2 s2).
Proof. intros H. exact H. Qed.

Lemma slot_length s1 s2 i :
  base.length (tokens s1) = base.length (tokens s2) →
  slot capacity s1 i = None → slot capacity s2 i = None.
Proof.
  unfold slot. intros L. destruct ((0 <=? i) && (i <? capacity)); [|auto].
  rewrite !lookup_ge_None. lia.
Qed.

Lemma length_store_st idx f s :
  base.length (tokens (store_st (get_token capacity idx) f s))
  = base.length (tokens s).
Proof.
  unfold store_st, get_token. destruct (idx <? capacity); [|reflexivity].
  cbn [tokens]. apply length_alter.
Qed.

(** The token at [current] is written in both arrays and the counter
    moves on. *)
Lemma below_emit f1 f2 i1 i2 s1 s2 :
  i1 = current s1 → i2 = current s2 → f1 = f2 →
  overwrites f1 → in_step s1 s2 → 0 ≤ current s1 →
  below s1 s2 → keyed s1 s2 →
  below (incr_st (store_st (get_token capacity i1) f1 s1))
        (incr_st (store_st (get_token capacity i2) f2 s2)).
Proof.
  intros -> -> <- Hf [Ec _] Hc [L B] K. rewrite <- Ec. split.
  - cbn [incr_st tokens]. rewrite !length_store_st. exact L.
  - intros i Hi. rewrite current_incr_st, current_store_st in Hi.
    rewrite !slot_incr_st, !slot_store by assumption.
    assert (U : u32 (current s1 + 1) ≤ current s1 + 1).
    { unfold u32. apply Z.mod_le; lia. }
    destruct (decide (i = current s1)) as [->|Hne]; [|apply B; lia].
    destruct (slot capacity s1 (current s1)) as [t1|] eqn:E1.
    + destruct (slot capacity s2 (current s1)) as [t2|] eqn:E2.
      * cbn. f_equal. destruct (K t1 t2 E1 E2). apply Hf; assumption.
      * apply (slot_length s2 s1) in E2; [congruence|lia].
    + apply (slot_length s1 s2) in E1; [|lia]. rewrite E1. reflexivity.
Qed.

Lemma keyed_store_id a1 b1 a2 b2 i1 i2 s1 s2 :
  i1 = current s1 → i2 = current s2 → a1 = a2 → b1 = b2 →
  in_step s1 s2 → 0 ≤ current s1 →
  keyed (store_st (get_token capacity i1) (write_id a1 b1) s1)
        (store_st (get_token capacity i2) (write_id a2 b2) s2).
Proof.
  intros -> -> <- <- [Ec _] Hc t1 t2. rewrite <- Ec. rewrite current_store_st.
  rewrite !slot_store by assumption. rewrite !decide_True by reflexivity.
  destruct (slot capacity s1 (current s1)); [|discriminate].
  destruct (slot capacity s2 (current s1)); [|discriminate].
  cbn. intros H1 H2. injection H1 as <-. injection H2 as <-.
  split; reflexivity.
Qed.

Lemma below_store idx1 idx2 f1 f2 s1 s2 :
  idx1 = idx2 → f1 = f2 → 0 ≤ idx1 → below s1 s2 →
  below (store_st (get_token capacity idx1) f1 s1)
        (store_st (get_token capacity idx2) f2 s2).
Proof.
  intros <- <- Hi [L B]. split.
  - rewrite !length_store_st. exact L.
  - intros i. rewrite current_store_st. intros Hc.
    rewrite !slot_store by assumption. rewrite (B i Hc). reflexivity.
Qed.

Lemma keyed_store idx1 idx2 f1 f2 s1 s2 :
  idx1 = idx2 → f1 = f2 → 0 ≤ idx1 → keeps_id f1 → keyed s1 s2 →
  keyed (store_st (get_token capacity idx1) f1 s1)
        (store_st (get_token capacity idx2) f2 s2).
Proof.
  intros <- <- Hi Hf K t1 t2. rewrite current_store_st.
  rewrite !slot_store by assumption.
  destruct (decide (current s1 = idx1)) as [e|n]; [|apply K].
  destruct (slot capacity s1 (current s1)) as [u1|] eqn:E1; [|discriminate].
  destruct (slot capacity s2 (current s1)) as [u2|] eqn:E2; [|discriminate].
  cbn. intros H1 H2. injection H1 as <-. injection H2 as <-.
  destruct (K u1 u2 E1 E2). destruct (Hf u1), (Hf u2). lia.
Qed.

Lemma overwrites_primitive ty a b : overwrites (write_primitive ty a b).
Proof. intros t1 t2 H1 H2. unfold write_primitive. congruence. Qed.

Lemma overwrites_complex ty a : overwrites (write_complex a ty).
Proof. intros t1 t2 H1 H2. unfold write_complex. congruence. Qed.

End TokenAgreement.

Ltac in_step_facts :=
  repeat match goal with
  | H : in_step _ _ |- _ => destruct H as [? ?]
  end.

Ltac solve_in_step :=
  apply in_step_intro; autorewrite with st; in_step_facts; congruence.

Ltac same_arg :=
  autorewrite with st; in_step_facts; first [reflexivity | congruence].

Ltac solve_below :=
  lazymatch goal with
  | H : below _ ?a ?b |- below _ ?a ?b => exact H
  | |- below _ (add_reads _ _) (add_reads _ _) =>
      apply below_add_reads; solve_below
  | |- below _ (incr_st (store_st _ _ _)) (incr_st (store_st _ _ _)) =>
      apply below_emit;
        [ same_arg | same_arg | same_arg
        | first [apply overwrites_primitive | apply overwrites_complex]
        | solve_in_step | nn | solve_below | solve_keyed ]
  | |- below _ (store_st _ _ _) (store_st _ _ _) =>
      apply below_store; [same_arg | same_arg | nn | solve_below]
  end
with solve_keyed :=
  lazymatch goal with
  | H : keyed _ ?a ?b |- keyed _ ?a ?b => exact H
  | |- keyed _ (add_reads _ _) (add_reads _ _) =>
      apply keyed_add_reads; solve_keyed
  | |- keyed _ (store_st _ (write_id _ _) _) (store_st _ (write_id _ _) _) =>
      apply keyed_store_id;
        [same_arg | same_arg | same_arg | same_arg | solve_in_step | nn]
  end.

(** What is known once a call has not failed. *)
Ltac succeeded :=
  repeat match goal with
  | E : (?r =? STRING_NPOS) = false, X : ?r ≠ STRING_NPOS → _ |- _ =>
      specialize (X (proj1 (Z.eqb_neq _ _) E))
  end.

Section TokenSimulation.
Variable buffer : Z → ascii.
Variable length : Z.
Variable simple : bool.
Variable capacity : Z.
Hypothesis length_size : length ≤ STRING_NPOS.

Local Abbreviation below := (below capacity).
Local Abbreviation keyed := (keyed capacity).
Local Abbreviation same_value := (same_value capacity).
Local Abbreviation same_call := (same_call capacity).
Local Abbreviation same_array_loop := (same_array_loop capacity).
Local Abbreviation same_object_loop := (same_object_loop length capacity).

(** The next pair of calls, one in each run. *)
Ltac tcall :=
  match goal with
  | Hs : same_call ?p1 ?p2 |- context [?p1 ?a ?X1] =>
      match goal with
      | |- context [p2 ?b ?X2] =>
          let A := fresh "A" in
          assert (A : agree_tokens capacity (p1 a X1) (p2 b X2))
            by (apply Hs; [solve_in_step|nn|solve_below]);
          let r1 := fresh "r" in let t1 := fresh "t" in
          let r2 := fresh "r" in let t2 := fresh "t" in
          destruct (p1 a X1) as [[r1 t1]|] eqn:?;
          destruct (p2 b X2) as [[r2 t2]|] eqn:?;
          cbn [agree_tokens] in A; try contradiction;
          [destruct A as (? & ? & ?); subst r2|];
          cbv beta iota zeta
      end
  | Hs : same_value ?p1 ?p2 |- context [?p1 ?a ?X1] =>
      match goal with
      | |- context [p2 ?b ?X2] =>
          let A := fresh "A" in
          assert (A : agree_tokens capacity (p1 a X1) (p2 b X2))
            by (apply Hs; [solve_in_step|nn|solve_below|solve_keyed]);
          let r1 := fresh "r" in let t1 := fresh "t" in
          let r2 := fresh "r" in let t2 := fresh "t" in
          destruct (p1 a X1) as [[r1 t1]|] eqn:?;
          destruct (p2 b X2) as [[r2 t2]|] eqn:?;
          cbn [agree_tokens] in A; try contradiction;
          [destruct A as (? & ? & ?); subst r2|];
          cbv beta iota zeta
      end
  end.

Ltac tstep :=
  lazymatch goal with
  | |- ?t =>
      let c := scrutinee t in
      lazymatch type of c with
      | bool => destruct c eqn:?; cbv beta iota zeta
      end
  end.

Ltac tleaf :=
  lazymatch goal with
  | |- True => exact I
  | |- _ = _ ∧ in_step _ _ ∧ _ =>
      split; [reflexivity|]; split; [solve_in_step|];
      let X := fresh in intros X; succeeded;
      first [exfalso; apply X; reflexivity | solve_below | solve [auto]]
  end.

Lemma same_object_body l1 l2 :
  same_object_loop l1 l2 →
  same_call (parse_object_body buffer length l1)
            (parse_object_body buffer length l2).
Proof.
  intros Hl pos s1 s2 HE Hc HB. unfold_parser.
  apply Hl; [solve_in_step|nn|lia| |intros _; solve_below].
  intros _ X. congruence.
Qed.

Lemma same_value_body po1 po2 pa1 pa2 :
  same_call po1 po2 → same_call pa1 pa2 →
  same_value (parse_value_body buffer length capacity simple po1 pa1)
             (parse_value_body buffer length capacity simple po2 pa2).
Proof.
  intros Hpo Hpa pos s1 s2 HE Hc HB HK. unfold agree_tokens.
  unfold_parser.
  repeat first [tstep | tcall | tleaf].
Qed.

(** The next pair of iterations, one in each run. *)
Ltac tloop Hs tac :=
  lazymatch type of Hs with
  | _ ?l1 ?l2 =>
      match goal with
      | |- context [l1 ?a ?b ?X1] =>
          match goal with
          | |- context [l2 ?a' ?b' ?X2] =>
              let A := fresh "A" in
              assert (A : agree_tokens capacity (l1 a b X1) (l2 a' b' X2))
                by (replace b' with b by (autorewrite with st; congruence);
                    replace a' with a by (autorewrite with st; congruence);
                    apply Hs; tac);
              destruct (l1 a b X1) as [[? ?]|];
              destruct (l2 a' b' X2) as [[? ?]|];
              cbn [agree_tokens] in A; try contradiction;
              cbv beta iota zeta; try exact A; try exact I
          end
      end
  end.

Ltac use_unary_value U :=
  lazymatch type of U with
  | unary_value _ ?pv =>
      match goal with
      | X : pv _ _ = Some _ |- _ =>
          apply U in X; [destruct X as (? & ? & ?)|nn]
      end
  end.

Lemma same_array_loop_body pv1 pv2 l1 l2 :
  unary_value capacity pv1 → unary_value capacity pv2 →
  same_value pv1 pv2 → same_array_loop l1 l2 →
  same_array_loop (parse_array_loop_body buffer length capacity simple pv1 l1)
                  (parse_array_loop_body buffer length capacity simple pv2 l2).
Proof.
  intros U1 U2 Hpv Hl pos last s1 s2 HE Hc Hlast HB. unfold agree_tokens.
  assert (Hc2 : 0 ≤ current s2) by (destruct HE; congruence).
  unfold_parser.
  repeat first [tstep | tcall | tleaf].
  all: succeeded.
  all: use_unary_value U1; use_unary_value U2.
  all: in_step_facts.
  all: tloop Hl ltac:(first [solve_in_step | nn | solve_below]).
Qed.

Lemma same_array_body l1 l2 :
  same_array_loop l1 l2 →
  same_call (parse_array_body buffer length l1)
            (parse_array_body buffer length l2).
Proof.
  intros Hl pos s1 s2 HE Hc HB. unfold agree_tokens. unfold_parser.
  repeat first [tstep | tleaf].
  tloop Hl ltac:(first [solve_in_step | nn | lia | solve_below]).
Qed.

Ltac valid_both :=
  let Hp := fresh "Hp" in let Hn := fresh "Hn" in
  intros Hp Hn;
  first
    [ exfalso; apply Hn; reflexivity
    | apply (scan_failed buffer length length_size) in Hp;
      repeat match goal with
      | Hv : ?r ≠ STRING_NPOS → _ |- _ => specialize (Hv Hp)
      end;
      autorewrite with st in *; split; congruence ].

Lemma scan_not_failed r :
  (skip_whitespace buffer length r).1 ≠ STRING_NPOS → r ≠ STRING_NPOS.
Proof.
  intros H ->. apply H. rewrite skip_whitespace_beyond by assumption.
  reflexivity.
Qed.

Ltac below_after :=
  let Hp := fresh "Hp" in
  intros Hp; apply scan_not_failed in Hp;
  repeat match goal with
  | Hv : ?r ≠ STRING_NPOS → _ |- _ => specialize (Hv Hp)
  end;
  solve_below.

Lemma same_object_loop_body pv1 pv2 l1 l2 :
  unary_value capacity pv1 → unary_value capacity pv2 →
  same_value pv1 pv2 → same_object_loop l1 l2 →
  same_object_loop
    (parse_object_loop_body buffer length capacity simple pv1 l1)
    (parse_object_loop_body buffer length capacity simple pv2 l2).
Proof.
  intros U1 U2 Hpv Hl pos last s1 s2 HE Hc Hlast V HB. unfold agree_tokens.
  assert (Hc2 : 0 ≤ current s2) by (destruct HE; congruence).
  unfold_parser.
  destruct (pos <? length) eqn:Hpos; cbv beta iota zeta.
  2:{ destruct simple; tleaf. }
  apply Z.ltb_lt in Hpos.
  assert (HB' : below s1 s2) by (apply HB; unfold STRING_NPOS in *; lia).
  destruct (last =? 0) eqn:Hl0; cbn [negb]; cbv beta iota zeta.
  - repeat first [tstep | tcall | tleaf].
    all: use_unary_value U1; use_unary_value U2.
    all: in_step_facts.
    all: tloop Hl ltac:(first [solve [solve_in_step | nn] | valid_both
                              | below_after]).
  - apply Z.eqb_neq in Hl0. destruct (V Hpos Hl0) as [V1 V2].
    repeat first
      [ progress (autorewrite with st; rewrite ?V1, ?V2; cbn [negb];
                  cbv beta iota zeta)
      | tstep | tleaf ].
    in_step_facts.
    tloop Hl ltac:(first [solve [solve_in_step | nn | lia] | valid_both
                         | intros _; solve_below]).
Qed.

(** Two runs on the same buffer with the same capacity produce the same
    tokens, whatever the two arrays held. *)
Lemma same_all fuel :
  same_value (parse_value buffer length capacity simple fuel)
             (parse_value buffer length capacity simple fuel) ∧
  same_object_loop (parse_object_loop buffer length capacity simple fuel)
                   (parse_object_loop buffer length capacity simple fuel) ∧
  same_array_loop (parse_array_loop buffer length capacity simple fuel)
                  (parse_array_loop buffer length capacity simple fuel).
Proof.
  induction fuel as [|n (IHv & IHo & IHa)].
  - repeat split; repeat intro; exact I.
  - split; [|split].
    + apply same_value_body.
      * apply same_object_body, IHo.
      * apply same_array_body, IHa.
    + apply same_object_loop_body; try assumption; apply unary_all.
    + apply same_array_loop_body; try assumption; apply unary_all.
Qed.

End TokenSimulation.

Section SameTokens.
Variable buffer : Z → ascii.
Variable size : Z.
Variable capacity : Z.
Hypothesis size_is_size_t : size ≤ STRING_NPOS.

Lemma json_scan_same_tokens fuel tokens1 tokens2 :
  base.length tokens1 = base.length tokens2 →
  agree_tokens capacity
    (json_scan fuel buffer size capacity (initial tokens1))
    (json_scan fuel buffer size capacity (initial tokens2)).
Proof.
  intros L.
  destruct (same_all buffer size false capacity size_is_size_t fuel)
    as (Hv & _ & _).
  unfold json_scan. unfold_parser. apply Hv.
  - split; autorewrite with st; reflexivity.
  - autorewrite with st. cbn. lia.
  - split.
    + rewrite !length_store_st. exact L.
    + intros i. autorewrite with st. cbn [initial current]. lia.
  - apply keyed_store; [reflexivity|reflexivity|lia
                       |apply keeps_id_primitive|].
    apply keyed_store_id;
      first [reflexivity | split; reflexivity | cbn; lia].
Qed.

Lemma sjson_scan_same_tokens fuel tokens1 tokens2 :
  base.length tokens1 = base.length tokens2 →
  (∀ t1 t2, tokens1 !! 0%nat = Some t1 → tokens2 !! 0%nat = Some t2 →
            id t1 = id t2 ∧ id_length t1 = id_length t2) →
  agree_tokens capacity
    (sjson_scan fuel buffer size capacity (initial tokens1))
    (sjson_scan fuel buffer size capacity (initial tokens2)).
Proof.
  intros L K0.
  destruct (same_all buffer size true capacity size_is_size_t fuel)
    as (Hv & Ho & _).
  assert (B0 : below capacity (initial tokens1) (initial tokens2)).
  { split; [exact L|]. intros i. cbn. lia. }
  assert (Y0 : keyed capacity (initial tokens1) (initial tokens2)).
  { intros t1 t2. cbn [initial current].
    intros H1 H2. apply slot_Some in H1, H2. cbn [tokens] in H1, H2.
    apply K0; tauto. }
  unfold sjson_scan. unfold_parser.
  destruct (_ <? _); cbv beta iota zeta.
  - destruct (negb _); cbv beta iota zeta.
    + apply (same_object_body buffer size capacity _ _ Ho).
      * split; autorewrite with st; reflexivity.
      * autorewrite with st. apply u32_nonneg.
      * apply below_emit;
          lazymatch goal with
          | |- overwrites _ => apply overwrites_complex
          | |- in_step _ _ => split; autorewrite with st; reflexivity
          | |- _ ≤ _ => autorewrite with st; cbn [initial current]; lia
          | |- below _ _ _ =>
              apply below_store; [reflexivity|reflexivity|lia|];
              repeat apply below_add_reads; exact B0
          | |- keyed _ _ _ =>
              apply keyed_store_id;
                first [ split; autorewrite with st; reflexivity
                      | autorewrite with st; cbn [initial current];
                        first [reflexivity | lia] ]
          | |- _ = _ => autorewrite with st; reflexivity
          end.
    + apply Hv.
      * split; autorewrite with st; reflexivity.
      * autorewrite with st; cbn [initial current]; lia.
      * repeat apply below_add_reads. exact B0.
      * repeat apply keyed_add_reads. exact Y0.
  - apply Hv.
    + split; autorewrite with st; reflexivity.
    + autorewrite with st; cbn [initial current]; lia.
    + repeat apply below_add_reads. exact B0.
    + repeat apply keyed_add_reads. exact Y0.
Qed.

End SameTokens.

Lemma same_tokens_below capacity (m1 m2 : M Z) s1 s2 n t1 :
  agree_tokens capacity (m1 s1) (m2 s2) →
  bind m1 count_or_zero s1 = Some (n, t1) →
  ∃ t2, bind m2 count_or_zero s2 = Some (n, t2) ∧
        ∀ i : nat, Z.of_nat i < n → Z.of_nat i < capacity →
                   tokens t1 !! i = tokens t2 !! i.
Proof.
  unfold agree_tokens, bind.
  destruct (m1 s1) as [[r1 u1]|], (m2 s2) as [[r2 u2]|];
    try contradiction; try discriminate.
  intros (-> & [Ec Er] & B). unfold count_or_zero.
  destruct (r2 =? STRING_NPOS) eqn:E; cbn; intros H1; injection H1 as <- <-.
  - exists u2. split; [reflexivity|]. intros i Hi. lia.
  - apply Z.eqb_neq in E. exists u2.
    split; [unfold get_current; congruence|].
    intros i Hi Hc. destruct (B E) as [_ B'].
    specialize (B' (Z.of_nat i) ltac:(lia)). unfold slot in B'.
    replace ((0 <=? Z.of_nat i) && (Z.of_nat i <? capacity)) with true in B'.
    + rewrite Nat2Z.id in B'. exact B'.
    + symmetry. apply andb_true_iff.
      split; [apply Z.leb_le|apply Z.ltb_lt]; lia.
Qed.

(** X14.  The tokens that a parse produces do not depend on what the
    array held before the call: with two arrays of the same length and
    the same capacity json_parse returns the same count and leaves the
    same tokens at every index below the count and the capacity.  The
    same holds of sjson_parse when the two arrays agree on the key span
    of slot 0, the one field that it may leave as it was. *)
Theorem tokens_depend_on_buffer_only fuel buffer size capacity
    array1 array2 n st1 :
  size ≤ STRING_NPOS → base.length array1 = base.length array2 →
  (json_parse fuel buffer size array1 capacity = Some (n, st1) →
   ∃ st2,
     json_parse fuel buffer size array2 capacity = Some (n, st2) ∧
     ∀ i : nat, Z.of_nat i < n → Z.of_nat i < capacity →
                tokens st1 !! i = tokens st2 !! i) ∧
  ((∀ t1 t2, array1 !! 0%nat = Some t1 → array2 !! 0%nat = Some t2 →
             id t1 = id t2 ∧ id_length t1 = id_length t2) →
   sjson_parse fuel buffer size array1 capacity = Some (n, st1) →
   ∃ st2,
     sjson_parse fuel buffer size array2 capacity = Some (n, st2) ∧
     ∀ i : nat, Z.of_nat i < n → Z.of_nat i < capacity →
                tokens st1 !! i = tokens st2 !! i).
Proof.
  intros Hs L. split.
  - apply same_tokens_below, json_scan_same_tokens; assumption.
  - intros K. apply same_tokens_below, sjson_scan_same_tokens; assumption.
Qed.

Lemma tokens_depend_on_buffer_only_witness :
  5 ≤ STRING_NPOS ∧
  ∃ st1 st2,
    json_parse 8 (memory "[1,2]" zeros) 5
      (replicate 3 (mk_token 7 7 7 7 7 7 JSON_STRING)) 3 = Some (3, st1) ∧
    json_parse 8 (memory "[1,2]" zeros) 5
      (replicate 3 (mk_token 9 8 7 6 5 4 JSON_OBJECT)) 3 = Some (3, st2) ∧
    ∀ i : nat, Z.of_nat i < 3 → Z.of_nat i < 3 →
               tokens st1 !! i = tokens st2 !! i.
Proof.
  assert (H0 : 5 ≤ STRING_NPOS) by (unfold STRING_NPOS; lia).
  split; [exact H0|].
  eexists. 
  assert (E : json_parse 8 (memory "[1,2]" zeros) 5
                (replicate 3 (mk_token 7 7 7 7 7 7 JSON_STRING)) 3
              = Some (3, mk_state
                 [mk_token 0 0 0 0 1 0 JSON_ARRAY;
                  mk_token 0 0 1 1 0 2 JSON_PRIMITIVE;
                  mk_token 0 0 3 1 0 0 JSON_PRIMITIVE] 3
                 [0; 0; 1; 1; 1; 1; 1; 2; 2; 2; 3; 3; 3; 4; 4; 4; 4]))
    by (vm_compute; reflexivity).
  assert (L : base.length (replicate 3 (mk_token 7 7 7 7 7 7 JSON_STRING))
              = base.length (replicate 3 (mk_token 9 8 7 6 5 4 JSON_OBJECT)))
    by reflexivity.
  destruct (proj1 (tokens_depend_on_buffer_only 8 (memory "[1,2]" zeros) 5 3
                     (replicate 3 (mk_token 7 7 7 7 7 7 JSON_STRING))
                     (replicate 3 (mk_token 9 8 7 6 5 4 JSON_OBJECT)) 3 _
                     H0 L) E) as (st2 & B & C).
  exists st2. split; [exact E|]. split; [exact B|exact C].
Defined.

(** * How far the strict parser reads *)

Lemma no_separator_reads buffer simple pos i :
  i ∈ (no_separator buffer simple pos).2 → i = pos.
Proof.
  unfold no_separator. rewrite wbind_snd. cbn [peek fst snd].
  destruct (negb _); [destruct (negb simple)|];
    rewrite ?wbind_snd; cbn [peek wret fst snd]; members; tauto.
Qed.

Section LexerReads.
Variable buffer : Z → ascii.
Variable length : Z.
Hypothesis length_size : length ≤ STRING_NPOS.

Lemma skip_whitespace_reads pos i :
  0 ≤ pos → i ∈ (skip_whitespace buffer length pos).2 → pos ≤ i < length.
Proof.
  intros Hp Hi.
  destruct (skip_whitespace_exact buffer length pos Hp
              length_size) as (_ & _ & _ & A).
  apply A in Hi. lia.
Qed.

Lemma parse_number_reads pos i :
  0 ≤ pos ≤ length → i ∈ (parse_number buffer length pos).2 →
  pos ≤ i < length.
Proof.
  intros Hp. apply (parse_number_exact buffer length pos Hp length_size).
Qed.

Lemma parse_string_reads pos simple i :
  0 ≤ pos ≤ length → i ∈ (parse_string buffer length pos simple).2 →
  pos ≤ i ≤ length.
Proof.
  intros Hp. apply (parse_string_exact buffer length pos simple Hp length_size).
Qed.

Lemma string_equal_reads lit pos i :
  0 ≤ pos → pos + Z.of_nat (String.length lit) ≤ length →
  i ∈ (string_equal buffer pos lit).2 →
  pos ≤ i < pos + Z.of_nat (String.length lit).
Proof.
  revert pos. induction lit as [|a rest IH]; intros pos Hp Hl;
    cbn [string_equal String.length] in *.
  - cbn [wret snd]. intros X. apply elem_of_nil in X. contradiction.
  - rewrite !wbind_snd. cbn [peek wret fst snd app]. rewrite app_nil_r.
    rewrite sz_small by (unfold STRING_NPOS in *; lia).
    rewrite elem_of_cons. intros [->|Hi]; [lia|].
    apply IH in Hi; lia.
Qed.

Lemma literal_follows_reads c first pos rest n i :
  0 ≤ pos ≤ length → Z.of_nat (String.length rest) = n →
  i ∈ (literal_follows buffer length c first pos rest n).2 →
  pos ≤ i < length.
Proof.
  intros Hp Hn. unfold literal_follows.
  rewrite (sz_small (length - pos)) by (unfold STRING_NPOS in *; lia).
  destruct (_ && _) eqn:E.
  2:{ cbn [wret snd]. intros X. apply elem_of_nil in X. contradiction. }
  apply andb_true_iff in E. destruct E as [_ E]. apply Z.leb_le in E.
  rewrite wbind_snd. rewrite elem_of_app. intros [Hi|Hi].
  - apply string_equal_reads in Hi; lia.
  - destruct (string_equal buffer pos rest).1.
    + rewrite wbind_snd in Hi. cbn [peek wret fst snd] in Hi.
      rewrite sz_small in Hi by (unfold STRING_NPOS in *; lia).
      revert Hi. members. lia.
    + cbn [wret snd] in Hi. apply elem_of_nil in Hi. contradiction.
Qed.

Lemma skip_terminating_quote_strict pos string :
  skip_terminating_quote buffer length false pos string = (string ⊕ 1, []).
Proof. reflexivity. Qed.

Lemma implicit_terminator_strict pos :
  implicit_terminator buffer length false pos = (false, []).
Proof. reflexivity. Qed.

End LexerReads.

Ltac padv := unfold advances, remaining, STRING_NPOS in *; lia.

(** The members of a read log, down to the scans and calls that wrote
    them. *)
Ltac reads_walk :=
  repeat match goal with
  | X : _ ∈ reads (add_reads _ _) |- _ => rewrite reads_add_reads in X
  | X : _ ∈ reads (store_st _ _ _) |- _ => rewrite reads_store_st in X
  | X : _ ∈ reads (incr_st _) |- _ => rewrite reads_incr_st in X
  | X : _ ∈ _ ++ _ |- _ => apply elem_of_app in X; destruct X as [X|X]
  | X : _ ∈ _ :: _ |- _ => apply elem_of_cons in X; destruct X as [X|X]
  | X : _ ∈ [] |- _ => apply elem_of_nil in X; contradiction
  | X : ?i ∈ reads ?s, R : reads_within _ _ _ _ ?s |- _ =>
      apply R in X; destruct X as [X|X]
  | X : _ ∈ (skip_whitespace ?b ?l ?p).2 |- _ =>
      apply (skip_whitespace_reads b l ltac:(unfold STRING_NPOS; lia) p) in X;
        [|lia]
  | X : _ ∈ (parse_number ?b ?l ?p).2 |- _ =>
      apply (parse_number_reads b l ltac:(unfold STRING_NPOS; lia) p) in X;
        [|lia]
  | X : _ ∈ (parse_string ?b ?l ?p ?s).2 |- _ =>
      apply (parse_string_reads b l ltac:(unfold STRING_NPOS; lia) p s) in X;
        [|lia]
  | X : _ ∈ (literal_follows ?b ?l ?c ?f ?p ?r ?n).2 |- _ =>
      apply (literal_follows_reads b l ltac:(unfold STRING_NPOS; lia)
               c f p r n) in X; [|lia|reflexivity]
  | X : _ ∈ (no_separator ?b ?s ?p).2 |- _ =>
      apply (no_separator_reads b s p) in X
  | X : context [skip_terminating_quote ?b ?l false ?p ?n] |- _ =>
      rewrite (skip_terminating_quote_strict b l p n) in X; cbn [fst snd] in X
  | X : context [implicit_terminator ?b ?l false ?p] |- _ =>
      rewrite (implicit_terminator_strict b l p) in X; cbn [fst snd] in X
  end.

Section ReadsBound.
Variable buffer : Z → ascii.
Variable length : Z.
Variable capacity : Z.
Hypothesis length_nonneg : 0 ≤ length.
Hypothesis length_small : length + 1 < 4294967296.

Local Abbreviation pos_value := (pos_value length).
Local Abbreviation pos_call := (pos_call length).
Local Abbreviation pos_loop := (pos_loop length).
Local Abbreviation reads_value := (reads_value length).
Local Abbreviation reads_call := (reads_call length).
Local Abbreviation reads_loop := (reads_loop length).

Ltac strict :=
  repeat match goal with
  | I : (implicit_terminator _ _ false _).1 = true |- _ =>
      apply implicit_terminator_true in I; destruct I; discriminate
  end.

Ltac literal_facts :=
  repeat match goal with
  | x := (literal_follows ?b ?l ?c ?f ?p ?r ?n).1, E : ?x = true |- _ =>
      subst x;
      apply (literal_follows_spec b l ltac:(assumption) c f p r n) in E;
      [|rewrite ?sz_small by lia; lia|lia];
      rewrite ?sz_small in E by lia
  end.

(** What is known of the result and of the reads of each call made so
    far. *)
Ltac use_calls :=
  repeat match goal with
  | Hv : pos_value ?pv, Hr : reads_value ?pv,
    E : ?pv ?a ?X = Some (?r, ?s) |- _ =>
      pose proof (Hr a X r s ltac:(padv) E);
      apply (Hv a X r s) in E; [|padv]; unfold advances, STRING_NPOS in E
  | Hv : pos_call ?pv, Hr : reads_call ?pv,
    E : ?pv ?a ?X = Some (?r, ?s) |- _ =>
      pose proof (Hr a X r s ltac:(padv) E);
      apply (Hv a X r s) in E; [|padv]; unfold advances, STRING_NPOS in E
  | Hl : pos_loop ?l, Hr : reads_loop ?l,
    E : ?l ?a ?b ?X = Some (?r, ?s) |- _ =>
      pose proof (Hr a b X r s ltac:(padv) E);
      apply (Hl a b X r s) in E; [|padv]; unfold advances, STRING_NPOS in E
  end.

Ltac strict_strings :=
  repeat match goal with
  | H : _ ∨ _ ∧ _ ∧ (false = false → _) |- _ =>
      destruct H as [H|(? & ? & H)]; [|specialize (H eq_refl)]
  end.

Ltac reads_leaf :=
  strict_strings; reads_walk;
  first [left; assumption | right; unfold STRING_NPOS in *; lia].

Lemma reads_object_body loop :
  pos_loop loop → reads_loop loop →
  reads_call (parse_object_body buffer length loop).
Proof.
  intros Hl Hr pos st r st' Hp H i Hi. unfold_parser_in H.
  norm. use_calls. reads_leaf.
Qed.

Lemma reads_array_body loop :
  pos_loop loop → reads_loop loop →
  reads_call (parse_array_body buffer length loop).
Proof.
  intros Hl Hr pos st r st' Hp H i Hi. unfold_parser_in H.
  repeat step H; norm; use_calls; reads_leaf.
Qed.

Lemma reads_value_body po pa :
  pos_call po → pos_call pa → reads_call po → reads_call pa →
  reads_value (parse_value_body buffer length capacity false po pa).
Proof.
  intros Ho Ha Ro Ra pos st r st' Hp H i Hi. unfold_parser_in H.
  repeat step H; norm; literal_facts; use_calls; reads_leaf.
Qed.

Lemma reads_array_loop_body pv loop :
  pos_value pv → pos_loop loop → reads_value pv → reads_loop loop →
  reads_loop (parse_array_loop_body buffer length capacity false pv loop).
Proof.
  intros Hv Hl Rv Rl pos last st r st' Hp H i Hi. unfold_parser_in H.
  repeat step H; norm; use_calls; norm; use_calls; reads_leaf.
Qed.

Lemma reads_object_loop_body pv loop :
  pos_value pv → pos_loop loop → reads_value pv → reads_loop loop →
  reads_loop (parse_object_loop_body buffer length capacity false pv loop).
Proof.
  intros Hv Hl Rv Rl pos last st r st' Hp H i Hi. unfold_parser_in H.
  repeat step H; norm; strict; use_calls; norm; use_calls; reads_leaf.
Qed.

(** In the strict grammar no call reads further than the bound. *)
Lemma reads_all fuel :
  reads_value (parse_value buffer length capacity false fuel) ∧
  reads_loop (parse_object_loop buffer length capacity false fuel) ∧
  reads_loop (parse_array_loop buffer length capacity false fuel).
Proof.
  induction fuel as [|n (IHv & IHo & IHa)].
  - repeat split; intros ? **; discriminate.
  - destruct (pos_all buffer length capacity length_nonneg length_small n)
      as (Pv & Po & Pa).
    split; [|split].
    + apply reads_value_body.
      * apply pos_object_body; assumption.
      * apply pos_array_body; assumption.
      * apply reads_object_body; assumption.
      * apply reads_array_body; assumption.
    + apply reads_object_loop_body; assumption.
    + apply reads_array_loop_body; assumption.
Qed.

End ReadsBound.

(** X15.  The strict parser reads outside the buffer, but not far: every
    index that json_parse inspects lies in [0, 2 * size), so at most
    [size - 1] bytes past the end are ever looked at (and none when the
    buffer is empty). *)
Theorem strict_reads_are_bounded fuel buffer size array capacity i :
  0 ≤ size → size + 1 < 4294967296 →
  inspects (json_parse fuel buffer size array capacity) i = true →
  0 ≤ i < 2 * size.
Proof.
  intros H0 H1.
  destruct (json_parse fuel buffer size array capacity) as [[n st']|] eqn:E;
    [|discriminate].
  rewrite inspects_reads. intros Hi.
  apply count_or_zero_inv in E. destruct E as (pos & E & _).
  rewrite json_scan_unfold in E.
  destruct (reads_all buffer size capacity H0 H1 fuel) as (Rv & _ & _).
  destruct (Rv 0 _ pos st' ltac:(unfold STRING_NPOS; lia) E i Hi) as [X|X].
  - unfold json_initial in X. rewrite !reads_store_st in X.
    cbn [initial reads] in X. apply elem_of_nil in X. contradiction.
  - lia.
Qed.

Lemma strict_reads_are_bounded_witness :
  0 ≤ 2 ∧ 2 + 1 < 4294967296 ∧
  inspects (json_parse 8 (memory "[[" (fun _ => "]"%char)) 2 [] 0) 3 = true ∧
  0 ≤ 3 < 2 * 2.
Proof.
  assert (H0 : 0 ≤ 2) by lia. assert (H1 : 2 + 1 < 4294967296) by lia.
  assert (H2 : inspects (json_parse 8 (memory "[[" (fun _ => "]"%char)) 2
                           [] 0) 3 = true) by (vm_compute; reflexivity).
  split; [exact H0|]. split; [exact H1|]. split; [exact H2|].
  exact (strict_reads_are_bounded 8 (memory "[[" (fun _ => "]"%char)) 2 [] 0 3
           H0 H1 H2).
Defined.

(** * The slots that a strict parse leaves alone *)

Lemma lookup_store_ne capacity idx f st (j : nat) :
  0 ≤ idx → idx < Z.of_nat j →
  tokens (store_st (get_token capacity idx) f st) !! j = tokens st !! j.
Proof.
  intros Hi Hj. unfold store_st, get_token.
  destruct (idx <? capacity); [|reflexivity].
  cbn [tokens]. apply list_lookup_alter_ne. lia.
Qed.

Section FrameAbove.
Variable buffer : Z → ascii.
Variable length : Z.
Variable capacity : Z.
Hypothesis length_nonneg : 0 ≤ length.
Hypothesis length_small : length + 1 < 4294967296.

Local Abbreviation pos_value := (pos_value length).
Local Abbreviation pos_call := (pos_call length).
Local Abbreviation pos_loop := (pos_loop length).
Local Abbreviation frame_call := (frame_call length).

Ltac strict :=
  repeat match goal with
  | I : (implicit_terminator _ _ false _).1 = true |- _ =>
      apply implicit_terminator_true in I; destruct I; discriminate
  end.

Ltac literal_facts :=
  repeat match goal with
  | x := (literal_follows ?b ?l ?c ?f ?p ?r ?n).1, E : ?x = true |- _ =>
      subst x;
      apply (literal_follows_spec b l ltac:(assumption) c f p r n) in E;
      [|rewrite ?sz_small by lia; lia|lia];
      rewrite ?sz_small in E by lia
  end.

(** What is known of the result of each call made so far; the call is
    kept for [use_frames]. *)
Ltac use_pos_keep :=
  repeat match goal with
  | Hv : pos_value ?pv, E : ?pv ?a ?X = Some (?r, ?s) |- _ =>
      let P := fresh "P" in
      pose proof (Hv a X r s ltac:(padv) E) as P;
      unfold advances, STRING_NPOS in P;
      change (Datatypes.id (pv a X = Some (r, s))) in E
  | Hv : pos_call ?pv, E : ?pv ?a ?X = Some (?r, ?s) |- _ =>
      let P := fresh "P" in
      pose proof (Hv a X r s ltac:(padv) E) as P;
      unfold advances, STRING_NPOS in P;
      change (Datatypes.id (pv a X = Some (r, s))) in E
  | Hl : pos_loop ?l, E : ?l ?a ?b ?X = Some (?r, ?s) |- _ =>
      let P := fresh "P" in
      pose proof (Hl a b X r s ltac:(padv) E) as P;
      unfold advances, STRING_NPOS in P;
      change (Datatypes.id (l a b X = Some (r, s))) in E
  end.

Ltac counter :=
  autorewrite with st in *; rewrite ?u32_small in * by lia;
  unfold STRING_NPOS in *; lia.

Ltac use_frames :=
  repeat match goal with
  | Hf : frame_value ?pv, E : Datatypes.id (?pv ?a ?X = Some (?r, ?s)) |- _ =>
      let F := fresh "F" in
      assert (F := Hf a X r s ltac:(padv) ltac:(counter) E ltac:(padv));
      clear E; destruct F as (? & ? & ? & ?)
  | Hf : frame_call ?pv, E : Datatypes.id (?pv ?a ?X = Some (?r, ?s)) |- _ =>
      let F := fresh "F" in
      assert (F := Hf a X r s ltac:(padv) ltac:(counter) E ltac:(padv));
      clear E; destruct F as (? & ? & ? & ?)
  | Hf : frame_loop ?l, E : Datatypes.id (?l ?a ?b ?X = Some (?r, ?s)) |- _ =>
      let F := fresh "F" in
      assert (F := Hf a b X r s ltac:(padv) ltac:(counter) ltac:(counter)
                      E ltac:(padv));
      clear E; destruct F as (? & ? & ? & ?)
  end.

(** The slot [j] of the final array, traced back to the initial one. *)
Ltac frame_walk :=
  repeat first
    [ reflexivity
    | rewrite tokens_add_reads
    | rewrite tokens_incr_st
    | rewrite lookup_store_ne by counter
    | match goal with
      | F : ∀ j : nat, current ?s ≤ Z.of_nat j → tokens ?s !! j = _
        |- tokens ?s !! ?j = _ => rewrite (F j) by counter
      end ].

Ltac frame_leaf :=
  unfold produced; split; [counter|]; split; [counter|];
  split;
  [ repeat (progress (autorewrite with st in *;
                       rewrite ?length_store_st in *));
    congruence
  | let j := fresh "j" in let Hj := fresh "Hj" in
    intros j Hj; frame_walk ].

Lemma frame_object_body loop :
  pos_loop loop → frame_loop loop →
  frame_call (parse_object_body buffer length loop).
Proof.
  intros Hl Hf pos st r st' Hp Hc H Hr. unfold_parser_in H.
  norm. use_pos_keep. use_frames. frame_leaf.
Qed.

Lemma frame_array_body loop :
  pos_loop loop → frame_loop loop →
  frame_call (parse_array_body buffer length loop).
Proof.
  intros Hl Hf pos st r st' Hp Hc H Hr. unfold_parser_in H.
  repeat step H; norm; use_pos_keep; use_frames; frame_leaf.
Qed.

Lemma frame_value_body po pa :
  pos_call po → pos_call pa → frame_call po → frame_call pa →
  frame_value (parse_value_body buffer length capacity false po pa).
Proof.
  intros Ho Ha Fo Fa pos st r st' Hp Hc H Hr. unfold_parser_in H.
  repeat step H; norm; literal_facts; use_pos_keep; use_frames;
    try (exfalso; padv); frame_leaf.
Qed.

Lemma frame_array_loop_body pv loop :
  pos_value pv → pos_loop loop → frame_value pv → frame_loop loop →
  frame_loop (parse_array_loop_body buffer length capacity false pv loop).
Proof.
  intros Hv Hl Fv Fl pos last st r st' Hp Hc Hlast H Hr. unfold_parser_in H.
  repeat step H; norm; use_pos_keep; norm; use_pos_keep; use_frames;
    try (exfalso; padv); frame_leaf.
Qed.

Lemma frame_object_loop_body pv loop :
  pos_value pv → pos_loop loop → frame_value pv → frame_loop loop →
  frame_loop (parse_object_loop_body buffer length capacity false pv loop).
Proof.
  intros Hv Hl Fv Fl pos last st r st' Hp Hc Hlast H Hr. unfold_parser_in H.
  repeat step H; norm; strict; use_pos_keep; norm; use_pos_keep; use_frames;
    try (exfalso; padv); try frame_leaf.
  destruct (negb _); [exfalso; apply Hr; reflexivity|frame_leaf].
Qed.

(** In the strict grammar a call that does not fail leaves the slots
    from the counter on as they were. *)
Lemma frame_all fuel :
  frame_value (parse_value buffer length capacity false fuel) ∧
  frame_loop (parse_object_loop buffer length capacity false fuel) ∧
  frame_loop (parse_array_loop buffer length capacity false fuel).
Proof.
  induction fuel as [|n (IHv & IHo & IHa)].
  - split; [|split]; intros ? **; discriminate.
  - destruct (pos_all buffer length capacity length_nonneg length_small n)
      as (Pv & Po & Pa).
    split; [|split].
    + apply frame_value_body.
      * apply pos_object_body; assumption.
      * apply pos_array_body; assumption.
      * apply frame_object_body; assumption.
      * apply frame_array_body; assumption.
    + apply frame_object_loop_body; assumption.
    + apply frame_array_loop_body; assumption.
Qed.

End FrameAbove.

(** X16.  A successful strict parse writes only the slots of the tokens
    it returns: the array keeps its length, and every slot at an index
    at or above the returned count holds what it held before the
    call. *)
Theorem slots_from_count_on_are_kept fuel buffer size array capacity n st' :
  0 ≤ size → size + 1 < 4294967296 →
  json_parse fuel buffer size array capacity = Some (n, st') → n ≠ 0 →
  base.length (tokens st') = base.length array ∧
  ∀ j : nat, n ≤ Z.of_nat j → tokens st' !! j = array !! j.
Proof.
  intros H0 H1 H Hn. apply count_or_zero_inv in H.
  destruct H as (pos & H & ->).
  destruct (pos =? STRING_NPOS) eqn:E; [contradiction|].
  apply Z.eqb_neq in E. rewrite json_scan_unfold in H.
  destruct (frame_all buffer size capacity H0 H1 fuel) as (Fv & _ & _).
  assert (C0 : current (json_initial capacity array) = 0)
    by (unfold json_initial; rewrite !current_store_st; reflexivity).
  destruct (Fv 0 _ pos st' ltac:(unfold STRING_NPOS; lia)
              ltac:(rewrite C0; lia) H E) as (A & _ & L & F).
  rewrite C0 in A. split.
  - rewrite L. unfold json_initial. rewrite !length_store_st. reflexivity.
  - intros j Hj. rewrite (F j Hj). unfold json_initial.
    rewrite !lookup_store_ne by lia. reflexivity.
Qed.

Lemma slots_from_count_on_are_kept_witness :
  0 ≤ 3 ∧ 3 + 1 < 4294967296 ∧
  ∃ st',
    json_parse 8 (memory "[1]" zeros) 3
      (replicate 4 (mk_token 7 7 7 7 7 7 JSON_STRING)) 4 = Some (2, st') ∧
    2 ≠ 0 ∧
    tokens st' !! 3%nat = Some (mk_token 7 7 7 7 7 7 JSON_STRING).
Proof.
  assert (H0 : 0 ≤ 3) by lia. assert (H1 : 3 + 1 < 4294967296) by lia.
  assert (H2 : 2 ≠ 0) by lia.
  split; [exact H0|]. split; [exact H1|].
  eexists. split; [vm_compute; reflexivity|]. split; [exact H2|].
  refine (proj2 (slots_from_count_on_are_kept 8 (memory "[1]" zeros) 3
                   (replicate 4 (mk_token 7 7 7 7 7 7 JSON_STRING)) 4 2 _
                   H0 H1 _ H2) 3%nat _).
  - vm_compute. reflexivity.
  - vm_compute. discriminate.
Defined.

(** * The text that the tokens span *)

Section TextFacts.
Variable buffer : Z → ascii.
Variable length : Z.
Variable capacity : Z.
Variable simple : bool.

Local Abbreviation text := (text buffer length capacity simple).
Local Abbreviation key_pending := (key_pending buffer length capacity simple).

Lemma text_add_reads l st : text st → text (add_reads l st).
Proof. intros H. exact H. Qed.

Lemma key_pending_add_reads l st :
  key_pending st → key_pending (add_reads l st).
Proof. intros H. exact H. Qed.

(** A writer that leaves the value span and the type alone. *)
Lemma text_store idx f st :
  0 ≤ idx → keeps_id f →
  (∀ t, type (f t) = type t ∧ value (f t) = value t ∧
        value_length (f t) = value_length t) →
  text st → text (store_st (get_token capacity idx) f st).
Proof.
  intros Hi Hk Hf H i t Hc Ht. rewrite current_store_st in Hc.
  rewrite slot_store in Ht by assumption.
  destruct (decide (i = idx)) as [->|n]; [|apply H; assumption].
  destruct (slot capacity st idx) as [t0|] eqn:S; [|discriminate].
  injection Ht as <-. destruct (H idx t0 Hc S) as (A & B).
  destruct (Hf t0) as (F1 & F2 & F3). destruct (Hk t0) as (K1 & K2).
  unfold value_text, key_text in *.
  rewrite F1, F2, F3, K1, K2. split; assumption.
Qed.


(** The token at [current] is written and the counter moves on. *)
Lemma text_emit idx f st :
  idx = current st → 0 ≤ idx → keeps_id f →
  (∀ t, value_text buffer length simple (f t)) →
  text st → key_pending st →
  text (incr_st (store_st (get_token capacity idx) f st)).
Proof.
  intros -> H0 Hk Hf H Hp i t Hc Ht.
  rewrite current_incr_st, current_store_st in Hc.
  assert (U : u32 (current st + 1) ≤ current st + 1).
  { unfold u32. apply Z.mod_le; lia. }
  rewrite slot_incr_st in Ht. rewrite slot_store in Ht by assumption.
  destruct (decide (i = current st)) as [->|n]; [|apply H; [lia|exact Ht]].
  destruct (slot capacity st (current st)) as [t0|] eqn:S; [|discriminate].
  injection Ht as <-. split; [apply Hf|]. intros H1.
  specialize (Hp H1 t0 S). destruct (Hk t0) as (K1 & K2).
  unfold key_text in *. rewrite K1, K2. exact Hp.
Qed.

Lemma key_pending_store_id idx a b st :
  idx = current st → 0 ≤ idx →
  (a = 0 ∧ b = 0) ∨ string_span buffer length simple a b →
  a < 4294967296 → b < 4294967296 →
  key_pending (store_st (get_token capacity idx) (write_id a b) st).
Proof.
  intros -> H0 Hs Ha Hb H1 t. rewrite current_store_st in *.
  rewrite slot_store by assumption. rewrite decide_True by reflexivity.
  destruct (slot capacity st (current st)) as [t0|]; [|discriminate].
  cbn. intros H. injection H as <-. unfold key_text, write_id. cbn.
  destruct Hs as [[-> ->]|Hs]; [left; split; reflexivity|right].
  unfold string_span in Hs. rewrite !u32_small by lia. exact Hs.
Qed.

Lemma text_store_id idx a b st :
  0 ≤ idx → current st ≤ idx →
  text st → text (store_st (get_token capacity idx) (write_id a b) st).
Proof.
  intros H0 Hc H i t Hi Ht. rewrite current_store_st in Hi.
  rewrite slot_store in Ht by assumption.
  rewrite decide_False in Ht by lia. apply H; assumption.
Qed.

Lemma text_store_sibling idx s st :
  0 ≤ idx → text st →
  text (store_st (get_token capacity idx) (write_sibling s) st).
Proof.
  intros H0 H. apply text_store; try assumption.
  - apply keeps_id_sibling.
  - intros t. repeat split.
Qed.

Lemma text_start st : current st = 0 → text st.
Proof. intros H i t Hi. lia. Qed.

End TextFacts.


Lemma string_equal_holds buffer lit pos :
  0 ≤ pos → pos + Z.of_nat (String.length lit) ≤ STRING_NPOS →
  (string_equal buffer pos lit).1 = true → holds buffer lit pos.
Proof.
  revert pos. induction lit as [|a rest IH]; intros pos Hp Hl;
    cbn [string_equal String.length holds] in *; [intros; exact I|].
  rewrite !wbind_fst. cbn [peek wret fst].
  rewrite sz_small by (unfold STRING_NPOS in *; lia).
  intros H. apply andb_true_iff in H. destruct H as [H1 H2].
  apply Ascii.eqb_eq in H1. split; [exact H1|]. apply IH; [lia|lia|exact H2].
Qed.

Lemma literal_follows_text buffer length c first pos rest n :
  (literal_follows buffer length c first pos rest n).1 = true →
  0 ≤ pos ≤ length → length ≤ STRING_NPOS →
  Z.of_nat (String.length rest) = n →
  c = first ∧ holds buffer rest pos ∧ pos + n < length ∧
  is_token_delimiter (buffer (pos + n)) = true.
Proof.
  intros H Hp Hl Hn. unfold literal_follows in H.
  rewrite (sz_small (length - pos)) in H by (unfold STRING_NPOS in *; lia).
  destruct ((c =c= first) && (n + 1 <=? length - pos)) eqn:E;
    [|discriminate H].
  apply andb_true_iff in E. destruct E as [E1 E2].
  apply Ascii.eqb_eq in E1. apply Z.leb_le in E2.
  rewrite wbind_fst in H.
  destruct (string_equal buffer pos rest).1 eqn:Q; [|discriminate H].
  rewrite wbind_fst in H. cbn [peek wret fst] in H.
  rewrite sz_small in H by (unfold STRING_NPOS in *; lia).
  split; [exact E1|]. split; [|split; [lia|exact H]].
  apply string_equal_holds; [lia|unfold STRING_NPOS in *; lia|exact Q].
Qed.

Lemma skip_whitespace_range buffer length pos :
  length ≤ STRING_NPOS → 0 ≤ pos ≤ STRING_NPOS →
  0 ≤ (skip_whitespace buffer length pos).1 ≤ STRING_NPOS.
Proof.
  intros Hl Hp.
  destruct (skip_whitespace_exact buffer length pos ltac:(lia) Hl)
    as (A & _). lia.
Qed.

Lemma sz_range x : 0 ≤ sz x ≤ STRING_NPOS.
Proof.
  unfold sz, STRING_NPOS.
  pose proof (Z.mod_pos_bound x 18446744073709551616 ltac:(lia)). lia.
Qed.

(** Premises that arithmetic settles. *)
Ltac feed H :=
  repeat match type of H with
  | ?A → _ =>
      let X := fresh in
      assert (X : A) by (first [assumption | unfold STRING_NPOS in *; lia]);
      specialize (H X); clear X
  end.

Section TextSpecs.
Variable buffer : Z → ascii.
Variable length : Z.
Variable capacity : Z.
Variable simple : bool.
Hypothesis length_nonneg : 0 ≤ length.
Hypothesis length_small : length + 1 < 4294967296.

Local Abbreviation text := (text buffer length capacity simple).
Local Abbreviation key_pending := (key_pending buffer length capacity simple).
Local Abbreviation text_value := (text_value buffer length capacity simple).
Local Abbreviation text_call := (text_call buffer length capacity simple).
Local Abbreviation text_loop := (text_loop buffer length capacity simple).

(** What the scans of the run have found. *)
Ltac scan_facts :=
  repeat match goal with
  | H : context [parse_string ?b ?l ?p ?s] |- _ =>
      lazymatch goal with
      | _ : noted (parse_string b l p s) |- _ => fail
      | _ =>
          pose proof (parse_string_exact b l p s);
          assert (noted (parse_string b l p s)) by exact I
      end
  | H : context [parse_number ?b ?l ?p] |- _ =>
      lazymatch goal with
      | _ : noted (parse_number b l p) |- _ => fail
      | _ =>
          pose proof (parse_number_exact b l p);
          assert (noted (parse_number b l p)) by exact I
      end
  | E : (literal_follows ?b ?l ?c ?f ?p ?r ?n).1 = true |- _ =>
      lazymatch goal with
      | _ : noted (literal_follows b l c f p r n) |- _ => fail
      | _ =>
          pose proof (literal_follows_text b l c f p r n E);
          assert (noted (literal_follows b l c f p r n)) by exact I
      end
  end.

Lemma text_object_body loop :
  text_loop loop → text_call (parse_object_body buffer length loop).
Proof.
  intros Hl pos st r st' Hp Hc HT H. unfold_parser_in H.
  apply Hl in H; try assumption.
  - apply skip_whitespace_range; [unfold STRING_NPOS; lia|assumption].
  - lia.
Qed.

Ltac same_index := autorewrite with st; reflexivity.

Ltac solve_text tac :=
  lazymatch goal with
  | H : text ?s |- text ?s => exact H
  | |- text (add_reads _ _) => apply text_add_reads; solve_text tac
  | |- text (incr_st (store_st _ _ _)) =>
      apply text_emit;
        [ same_index | nn
        | first [apply keeps_id_primitive | apply keeps_id_complex]
        | let t := fresh "t" in intros t; tac
        | solve_text tac | solve_key tac ]
  | |- text (store_st _ (write_id _ _) _) =>
      apply text_store_id; [nn | autorewrite with st; lia | solve_text tac]
  | |- text (store_st _ (write_sibling _) _) =>
      apply text_store_sibling; [nn | solve_text tac]
  end
with solve_key tac :=
  lazymatch goal with
  | H : key_pending ?s |- key_pending ?s => exact H
  | |- key_pending (add_reads _ _) =>
      apply key_pending_add_reads; solve_key tac
  | |- key_pending (store_st _ (write_id _ _) _) =>
      apply key_pending_store_id; [same_index | nn | tac | lia | lia]
  end.

(** The facts of [scan_facts], with their premises settled. *)
Ltac open_facts :=
  repeat match goal with
  | H : _ ∧ _ |- _ => destruct H
  | H : ?A → _ |- _ =>
      let X := fresh in
      assert (X : A) by (first [assumption | reflexivity
                               | unfold STRING_NPOS in *; lia]);
      specialize (H X); clear X
  | H : (_ =c= _) = true |- _ => apply Ascii.eqb_eq in H
  end.

Ltac number_text :=
  unfold number_span; repeat apply conj;
  first [assumption | unfold STRING_NPOS in *; lia].

Ltac literal_text :=
  unfold literal_span, strlen; cbn [String.length holds] in *;
  repeat match goal with
  | H : _ ∧ _ |- _ => destruct H
  end;
  repeat apply conj;
  first [ exact I | reflexivity | assumption | unfold STRING_NPOS in *; lia
        | match goal with
          | H : is_token_delimiter (buffer ?a) = true
            |- is_token_delimiter (buffer ?b) = true =>
              replace b with a by lia; exact H
          | H : holds _ _ ?a |- holds _ _ ?b =>
              replace b with a by lia; exact H
          end ].

Ltac string_text :=
  unfold string_span; repeat apply conj;
  first [ assumption | unfold STRING_NPOS in *; lia
        | let Hs := fresh in
          intros Hs;
          first [ congruence
                | repeat apply conj;
                  first [ unfold STRING_NPOS in *; lia
                        | match goal with
                          | H : buffer ?a = dquote |- buffer ?b = dquote =>
                              replace b with a by lia; exact H
                          end
                        | auto ] ] ].

Ltac token_text :=
  unfold value_text, write_primitive, write_complex;
  cbn [type value value_length];
  rewrite ?u32_small by lia; open_facts;
  lazymatch goal with
  | |- True => exact I
  | |- (_ = 0 ∧ _ = 0) ∨ _ =>
      first [left; split; reflexivity | right; string_text]
  | |- string_span _ _ _ _ _ => string_text
  | |- _ ∨ _ =>
      first [ left; number_text | right; left; literal_text
            | right; right; literal_text ]
  end.

Ltac conclude tac :=
  unfold text_post; split; [unfold STRING_NPOS in *; lia|];
  split; [first [assumption | nn]|solve_text tac].

(** What is known after each call made so far. *)
Ltac use_texts tac :=
  repeat match goal with
  | Hs : text_call ?p, E : ?p ?a ?X = Some (?r, ?s) |- _ =>
      apply (Hs a X r s) in E;
        [ destruct E as (? & ? & ?)
        | unfold STRING_NPOS in *; lia | nn | solve_text tac ]
  | Hs : text_value ?p, E : ?p ?a ?X = Some (?r, ?s) |- _ =>
      apply (Hs a X r s) in E;
        [ destruct E as (? & ? & ?)
        | unfold STRING_NPOS in *; lia | nn | solve_text tac | solve_key tac ]
  | Hs : text_loop ?l, E : ?l ?a ?b ?X = Some (?r, ?s) |- _ =>
      apply (Hs a b X r s) in E;
        [ destruct E as (? & ? & ?)
        | unfold STRING_NPOS in *; lia | nn | nn | solve_text tac ]
  end.

Lemma text_value_body po pa :
  text_call po → text_call pa →
  text_value (parse_value_body buffer length capacity simple po pa).
Proof.
  intros Hpo Hpa pos st r st' Hp Hc HT HK H. unfold_parser_in H.
  repeat step H; scan_facts; norm; use_texts ltac:(token_text);
    conclude ltac:(token_text).
Qed.

Lemma text_array_body loop :
  text_loop loop → text_call (parse_array_body buffer length loop).
Proof.
  intros Hl pos st r st' Hp Hc HT H. unfold_parser_in H.
  repeat step H; scan_facts; norm; use_texts ltac:(token_text).
  all: try (conclude ltac:(token_text)).
  unfold text_post. split.
  - apply skip_whitespace_range; [unfold STRING_NPOS; lia|apply sz_range].
  - split; [nn|solve_text ltac:(token_text)].
Qed.

Lemma text_array_loop_body pv loop :
  text_value pv → text_loop loop →
  text_loop (parse_array_loop_body buffer length capacity simple pv loop).
Proof.
  intros Hv Hl pos last st r st' Hp Hc Hlast HT H. unfold_parser_in H.
  repeat step H; scan_facts; norm; use_texts ltac:(token_text); norm;
    use_texts ltac:(token_text).
  all: conclude ltac:(token_text).
Qed.

Lemma text_object_loop_body pv loop :
  text_value pv → text_loop loop →
  text_loop (parse_object_loop_body buffer length capacity simple pv loop).
Proof.
  intros Hv Hl pos last st r st' Hp Hc Hlast HT H. unfold_parser_in H.
  repeat step H; scan_facts; norm; use_texts ltac:(token_text); norm;
    use_texts ltac:(token_text).
  all: try (conclude ltac:(token_text)).
  - destruct (negb _); conclude ltac:(token_text).
  - unfold text_post. split; [destruct simple; unfold STRING_NPOS; lia|].
    split; [nn|solve_text ltac:(token_text)].
Qed.

(** Every call keeps the text of the tokens produced so far and gives
    the tokens it adds theirs. *)
Lemma text_all fuel :
  text_value (parse_value buffer length capacity simple fuel) ∧
  text_loop (parse_object_loop buffer length capacity simple fuel) ∧
  text_loop (parse_array_loop buffer length capacity simple fuel).
Proof.
  induction fuel as [|n (IHv & IHo & IHa)].
  - split; [|split]; intros ? **; discriminate.
  - split; [|split].
    + apply text_value_body;
        [apply text_object_body|apply text_array_body]; assumption.
    + apply text_object_loop_body; assumption.
    + apply text_array_loop_body; assumption.
Qed.

End TextSpecs.

Section TextEntry.

Variable buffer : Z → ascii.
Variable size : Z.
Variable capacity : Z.
Hypothesis size_nonneg : 0 ≤ size.
Hypothesis size_small : size + 1 < 4294967296.

Lemma json_scan_text fuel tokens pos st' :
  json_scan fuel buffer size capacity (initial tokens) = Some (pos, st') →
  text buffer size capacity false st'.
Proof.
  rewrite json_scan_unfold. intros H.
  destruct (text_all buffer size capacity false size_nonneg size_small fuel)
    as (Hv & _ & _).
  assert (C0 : current (json_initial capacity tokens) = 0)
    by (unfold json_initial; rewrite !current_store_st; reflexivity).
  destruct (Hv 0 (json_initial capacity tokens) pos st') as (_ & _ & T);
    [unfold STRING_NPOS; lia|lia| | |exact H|exact T].
  - apply text_start. exact C0.
  - intros H1. lia.
Qed.

Lemma sjson_scan_text fuel tokens pos st' :
  sjson_scan fuel buffer size capacity (initial tokens) = Some (pos, st') →
  text buffer size capacity true st'.
Proof.
  intros H.
  destruct (text_all buffer size capacity true size_nonneg size_small fuel)
    as (Hv & Ho & _).
  pose proof (text_object_body buffer size capacity true size_small _ Ho)
    as Hb.
  assert (T0 : text buffer size capacity true (initial tokens))
    by (apply text_start; reflexivity).
  assert (K0 : key_pending buffer size capacity true (initial tokens))
    by (intros H1; cbn [initial current] in H1; lia).
  unfold sjson_scan in H. unfold_parser_in H.
  pose proof (skip_whitespace_range buffer size 0
                ltac:(unfold STRING_NPOS; lia) ltac:(unfold STRING_NPOS; lia))
    as R.
  repeat step H.
  - unfold parse_object in H. apply Hb in H; [apply H|exact R| |].
    + autorewrite with st. cbn [initial current]. rewrite u32_small; lia.
    + apply text_emit.
      * rewrite current_store_st. reflexivity.
      * lia.
      * apply keeps_id_complex.
      * intros t. exact I.
      * apply text_store_id;
          [lia|autorewrite with st; cbn [initial current]; lia|exact T0].
      * apply key_pending_store_id;
          [reflexivity|lia|left; split; reflexivity|lia|lia].
  - apply Hv in H; [apply H|exact R
                   |autorewrite with st; cbn [initial current]; lia
                   |exact T0|exact K0].
  - apply Hv in H; [apply H|exact R
                   |autorewrite with st; cbn [initial current]; lia
                   |exact T0|exact K0].
Qed.

End TextEntry.

(** X17.  After a successful parse of either grammar on a buffer of
    fewer than 2^32 - 1 bytes, every token below the returned count that
    the array holds spans the text of its kind.  A string value and every
    key of a token after the root cover bytes that do not end a string,
    stop at the end of the buffer or at a byte that ends one, and in the
    strict grammar stand between two double quotes; a key may instead be
    empty at offset zero.  A primitive covers a run of number bytes up to
    a delimiter or the end of the buffer, or the word true or false
    followed by a delimiter. *)
Theorem tokens_span_their_text fuel buffer size array capacity n st' :
  0 ≤ size → size + 1 < 4294967296 →
  (json_parse fuel buffer size array capacity = Some (n, st') →
   ∀ i t, 0 ≤ i < n → slot capacity st' i = Some t →
     value_text buffer size false t ∧
     (1 ≤ i → key_text buffer size false t)) ∧
  (sjson_parse fuel buffer size array capacity = Some (n, st') →
   ∀ i t, 0 ≤ i < n → slot capacity st' i = Some t →
     value_text buffer size true t ∧
     (1 ≤ i → key_text buffer size true t)).
Proof.
  intros H0 H1. split; intros H i t Hi Ht; apply count_or_zero_inv in H;
    destruct H as (pos & H & ->);
    (destruct (pos =? STRING_NPOS); [lia|]).
  - apply (json_scan_text buffer size capacity H0 H1) in H.
    apply (H i t); [exact Hi|exact Ht].
  - apply (sjson_scan_text buffer size capacity H0 H1) in H.
    apply (H i t); [exact Hi|exact Ht].
Qed.

Lemma tokens_span_their_text_witness :
  let buffer :=
    memory ("{" ++ q ++ "a" ++ q ++ ":" ++ q ++ "b" ++ q ++ "}") zeros in
  0 ≤ 9 ∧ 9 + 1 < 4294967296 ∧
  ∃ st' t,
    json_parse 8 buffer 9 (replicate 4 (mk_token 7 7 7 7 7 7 JSON_ARRAY)) 4 =
      Some (2, st') ∧
    slot 4 st' 1 = Some t ∧
    value_text buffer 9 false t ∧ key_text buffer 9 false t.
Proof.
  intros buffer.
  assert (H0 : 0 ≤ 9) by lia. assert (H1 : 9 + 1 < 4294967296) by lia.
  split; [exact H0|]. split; [exact H1|].
  eexists. eexists.
  match goal with
  | |- ?A ∧ _ => assert (E : A) by (vm_compute; reflexivity)
  end.
  split; [exact E|].
  match goal with
  | |- ?A ∧ _ => assert (S : A) by (vm_compute; reflexivity)
  end.
  split; [exact S|].
  assert (I1 : 0 ≤ 1 < 2) by lia. assert (I2 : 1 ≤ 1) by lia.
  destruct (proj1 (tokens_span_their_text 8 buffer 9
                     (replicate 4 (mk_token 7 7 7 7 7 7 JSON_ARRAY))
                     4 2 _ H0 H1) E 1 _ I1 S) as (V & K).
  split; [exact V|exact (K I2)].
Defined.

(** * The strict parser accepts the values of the strict grammar *)

Section GrammarScans.
Variable buffer : Z → ascii.
Variable length : Z.
Hypothesis length_size : length ≤ STRING_NPOS.

Lemma unicode_escape_hex n pos :
  0 ≤ pos → pos + Z.of_nat n ≤ length →
  (∀ k, pos < k ≤ pos + Z.of_nat n → is_hex_digit (buffer k) = true) →
  (unicode_escape buffer length n pos).1 = Some (pos + Z.of_nat n).
Proof.
  revert pos. induction n as [|n IH]; intros pos Hp Hl Hh;
    cbn [unicode_escape].
  - cbn [wret fst]. f_equal. lia.
  - destruct (pos <? length) eqn:E; [|apply Z.ltb_ge in E; lia].
    rewrite sz_small by (unfold STRING_NPOS in *; lia).
    rewrite wbind_fst. cbn [peek fst]. rewrite Hh by lia.
    rewrite IH; [f_equal; lia|lia|lia|intros; apply Hh; lia].
Qed.

Lemma letter_u_is_no_escape c :
  (c =c= "u") = true → is_simple_escape c = false.
Proof. intros H. apply Ascii.eqb_eq in H. subst c. reflexivity. Qed.

(** parse_string on text whose backslashes are followed by an escape
    letter or by u and four hexadecimal digits. *)
Lemma parse_string_loop_escapes n start pos q simple :
  0 ≤ start ≤ pos → pos ≤ q ≤ length →
  (Z.to_nat (length - pos) ≤ n)%nat →
  (∀ i, pos ≤ i < q →
     ends_string simple (buffer i) = false ∧
     ((buffer i =c= "\") = true → i + 1 < length →
      is_simple_escape (buffer (i + 1)) = true ∨
      ((buffer (i + 1) =c= "u") = true ∧ i + 5 < q ∧
       ∀ k, i + 2 ≤ k ≤ i + 5 → is_hex_digit (buffer k) = true))) →
  (q < length → ends_string simple (buffer q) = true) →
  (simple = false → q < length) →
  (parse_string_loop buffer length n start pos simple).1 = q - start.
Proof.
  revert pos. induction n as [|n IH]; intros pos Hs Hq Hn Hb He Hstrict;
    cbn [parse_string_loop].
  - destruct simple; [|specialize (Hstrict eq_refl); lia].
    cbn [wret fst]. rewrite sz_small by (unfold STRING_NPOS in *; lia). lia.
  - assert (S0 : pos ⊖ start = pos - start)
      by (apply sz_small; unfold STRING_NPOS in *; lia).
    destruct (pos <? length) eqn:E.
    2:{ apply Z.ltb_ge in E.
        destruct simple; [|specialize (Hstrict eq_refl); lia].
        cbn [wret fst]. lia. }
    apply Z.ltb_lt in E. rewrite wbind_fst. cbn [peek fst].
    assert (S1 : pos ⊕ 1 = pos + 1)
      by (apply sz_small; unfold STRING_NPOS in *; lia).
    destruct (Z.eq_dec pos q) as [->|Hne].
    { specialize (He E). unfold ends_string in He.
      destruct (simple && _); [cbn [wret fst]; lia|].
      cbn [orb] in He. rewrite He. cbn [wret fst]. lia. }
    destruct (Hb pos) as (C & Esc); [lia|].
    unfold ends_string in C. apply orb_false_iff in C. destruct C as [C1 C2].
    rewrite C1, C2, S1.
    assert (Next : (parse_string_loop buffer length n start (pos + 1) simple).1
                   = q - start).
    { apply IH; try lia; try assumption. intros i Hi. apply Hb. lia. }
    destruct ((buffer pos =c= "\") && (pos + 1 <? length)) eqn:B;
      [|exact Next].
    apply andb_true_iff in B. destruct B as [B1 B2]. apply Z.ltb_lt in B2.
    rewrite wbind_fst. cbn [peek fst].
    destruct (Esc B1 B2) as [S|(U & Hq5 & Hh)]; [rewrite S; exact Next|].
    rewrite (letter_u_is_no_escape _ U), U. rewrite wbind_fst.
    rewrite (unicode_escape_hex 4 (pos + 1)); [|lia|lia|intros; apply Hh; lia].
    apply IH; try lia; try assumption. intros i Hi. apply Hb. lia.
Qed.

Lemma exponent_dispatch c :
  c = "e"%char ∨ c = "E"%char →
  is_token_delimiter c = false ∧ (c =c= "-") = false ∧ (c =c= ".") = false ∧
  ((c =c= "e") || (c =c= "E")) = true ∧ is_digit c = false.
Proof. intros [->| ->]; repeat split; reflexivity. Qed.

Lemma sign_dispatch c :
  c = "+"%char ∨ c = "-"%char →
  is_token_delimiter c = false ∧ is_digit c = false.
Proof. intros [->| ->]; repeat split; reflexivity. Qed.

(** parse_number on digits with at most one point, at [dot], and at
    most one exponent letter, at [ex], after a digit and followed by a
    sign or none. *)
Lemma parse_number_loop_exponent n start pos q dot ex
    has_dot has_digit has_exp :
  0 ≤ start ≤ pos → pos ≤ q ≤ length →
  (Z.to_nat (length - pos) ≤ n)%nat →
  (∀ i, pos ≤ i < q →
     is_digit (buffer i) = true ∨ (i = dot ∧ buffer i = "."%char) ∨
     (i = ex ∧ (buffer i = "e"%char ∨ buffer i = "E"%char)) ∨
     (i = ex + 1 ∧ (buffer i = "+"%char ∨ buffer i = "-"%char))) →
  dot < ex →
  (ex < q → (buffer ex = "e"%char ∨ buffer ex = "E"%char) ∧
            is_digit (buffer (ex - 1)) = true) →
  (q < length → is_token_delimiter (buffer q) = true) →
  (has_dot = true → dot < pos) →
  (has_exp = true → ex < pos) →
  (has_exp = false → pos ≤ ex) →
  (pos = ex + 1 → pos < q → is_digit (buffer pos) = true) →
  (has_digit = false → ex < q → pos ≤ ex - 1) →
  (parse_number_loop buffer length n start pos has_dot has_digit has_exp).1
  = q - start.
Proof.
  revert pos has_dot has_digit has_exp.
  induction n as [|n IH];
    intros pos d g x Hs Hq Hn Hb Hde Hex He I1 I2 I3 I4 I5;
    cbn [parse_number_loop].
  - cbn [wret fst]. rewrite sz_small by (unfold STRING_NPOS in *; lia). lia.
  - assert (S0 : pos ⊖ start = pos - start)
      by (apply sz_small; unfold STRING_NPOS in *; lia).
    destruct (pos <? length) eqn:E.
    2:{ apply Z.ltb_ge in E. cbn [wret fst]. lia. }
    apply Z.ltb_lt in E. rewrite wbind_fst. cbn [peek fst].
    assert (S1 : pos ⊕ 1 = pos + 1)
      by (apply sz_small; unfold STRING_NPOS in *; lia).
    destruct (Z.eq_dec pos q) as [->|Hne].
    { rewrite (He E). cbn [wret fst]. lia. }
    rewrite S1.
    assert (Rest : ∀ k, pos < k → ∀ i, k ≤ i < q →
              is_digit (buffer i) = true ∨ (i = dot ∧ buffer i = "."%char) ∨
              (i = ex ∧ (buffer i = "e"%char ∨ buffer i = "E"%char)) ∨
              (i = ex + 1 ∧ (buffer i = "+"%char ∨ buffer i = "-"%char))).
    { intros k Hk i Hi. apply Hb. lia. }
    destruct (Hb pos ltac:(lia)) as [D|[(Ed & D)|[(Ee & D)|(Es & D)]]].
    + destruct (digit_dispatch _ D) as (D1 & D2 & D3 & D4 & D5).
      rewrite D1, D2, D3, D4, D5. cbn [andb].
      assert (pos ≠ ex).
      { intros ->. destruct (Hex ltac:(lia)) as (X & _).
        destruct (exponent_dispatch _ X) as (_ & _ & _ & _ & X5). congruence. }
      apply IH; try assumption; try lia; try discriminate.
      * apply Rest. lia.
      * intros Hd. specialize (I1 Hd). lia.
      * intros Hx. specialize (I2 Hx). lia.
      * intros Hx. specialize (I3 Hx). lia.
    + destruct (dot_dispatch _ D) as (D1 & D2 & D3).
      rewrite D1, D2, D3. cbn [andb].
      assert (Fd : d = false).
      { destruct d; [|reflexivity]. specialize (I1 eq_refl). lia. }
      assert (Fx : x = false).
      { destruct x; [|reflexivity]. specialize (I2 eq_refl). lia. }
      rewrite Fd, Fx. cbn [orb].
      apply IH; try assumption; try lia; try discriminate.
      * apply Rest. lia.
      * intros Hg Hx. specialize (I5 Hg Hx).
        destruct (Z.eq_dec pos (ex - 1)) as [Eq|]; [|lia].
        destruct (Hex Hx) as (_ & X). rewrite <- Eq, D in X. discriminate X.
    + destruct (exponent_dispatch _ D) as (D1 & D2 & D3 & D4 & D5).
      rewrite D1, D2, D3, D4. cbn [andb].
      assert (Fg : g = true).
      { destruct g; [reflexivity|]. specialize (I5 eq_refl ltac:(lia)). lia. }
      assert (Fx : x = false).
      { destruct x; [|reflexivity]. specialize (I2 eq_refl). lia. }
      rewrite Fg, Fx. cbn [negb orb].
      assert (Plain : pos + 1 < q →
                      (parse_number_loop buffer length n start (pos + 2)
                         d true true).1 = q - start).
      { intros Hlt.
        apply IH; try assumption; try lia; try discriminate.
        apply Rest. lia. }
      assert (Signed : pos + 1 < length →
                (buffer (pos + 1) = "+"%char ∨ buffer (pos + 1) = "-"%char) →
                pos + 1 < q).
      { intros Hl Sg. destruct (Z.eq_dec (pos + 1) q) as [Eq|]; [|lia].
        rewrite Eq in Sg, Hl. rewrite (proj1 (sign_dispatch _ Sg)) in He.
        specialize (He Hl). discriminate He. }
      assert (Next : ¬ (buffer (pos + 1) = "+"%char ∨
                        buffer (pos + 1) = "-"%char) ∨ length ≤ pos + 1 →
                (parse_number_loop buffer length n start (pos + 1)
                   d true true).1 = q - start).
      { intros Hns. apply IH; try assumption; try lia; try discriminate.
        - apply Rest. lia.
        - intros _ Hlt.
          destruct (Hb (pos + 1) ltac:(lia)) as [D'|[(?&?)|[(?&?)|(_ & D')]]];
            [exact D'|lia|lia|].
          destruct Hns as [Hns|Hns]; [contradiction|lia]. }
      destruct (pos + 1 <? length) eqn:E1.
      2:{ apply Z.ltb_ge in E1. apply Next. right. lia. }
      apply Z.ltb_lt in E1. rewrite wbind_fst. cbn [peek fst].
      assert (S2 : pos + 1 ⊕ 1 = pos + 2).
      { rewrite sz_small by (unfold STRING_NPOS in *; lia). lia. }
      rewrite S2.
      destruct (buffer (pos + 1) =c= "+") eqn:P.
      { apply Ascii.eqb_eq in P. apply Plain, Signed; auto. }
      rewrite wbind_fst. cbn [peek fst].
      destruct (buffer (pos + 1) =c= "-") eqn:M.
      { apply Ascii.eqb_eq in M. apply Plain, Signed; auto. }
      apply Next. left. intros [Sg|Sg]; rewrite Sg in *; discriminate.
    + specialize (I4 Es ltac:(lia)).
      rewrite (proj2 (sign_dispatch _ D)) in I4. discriminate I4.
Qed.

End GrammarScans.

Section GrammarLexer.
Variable buffer : Z → ascii.
Variable length : Z.
Hypothesis length_size : length ≤ STRING_NPOS.

(** skip_whitespace stops at the first byte after the blanks. *)
Lemma skip_to a x :
  0 ≤ a → blank buffer a x → x < length →
  is_whitespace (buffer x) = false →
  (skip_whitespace buffer length a).1 = x.
Proof.
  intros Ha (Hx & Hb) Hl Hn.
  destruct (skip_whitespace_exact buffer length a Ha length_size)
    as (R & W & N & _).
  set (r := (skip_whitespace buffer length a).1) in *.
  destruct (Z.lt_trichotomy r x) as [Lt|[Eq|Gt]]; [|exact Eq|].
  - specialize (N ltac:(lia)). rewrite Hb in N by lia. discriminate N.
  - rewrite W in Hn by lia. discriminate Hn.
Qed.

Lemma plain_escape_is_simple c :
  is_plain_escape c = true → is_simple_escape c = true.
Proof.
  unfold is_plain_escape, is_simple_escape. intros H.
  destruct (c =c= dquote); [reflexivity|exact H].
Qed.

Lemma not_dquote c : c ≠ dquote → (c =c= dquote) = false.
Proof. intros H. apply Ascii.eqb_neq. exact H. Qed.

Lemma hex_digit_no_dquote c : is_hex_digit c = true → c ≠ dquote.
Proof.
  intros H E. subst c. discriminate H.
Qed.

(** parse_string on a string of the grammar. *)
Lemma string_scan p e :
  strict_string buffer length p e →
  (parse_string buffer length (p + 1) false).1 = e - p - 2.
Proof.
  intros ((Hp & Bp) & He & (Hq & Bq) & Hc). unfold parse_string.
  rewrite (parse_string_loop_escapes buffer length length_size _
             (p + 1) (p + 1) (e - 1) false); try lia.
  - intros i Hi. destruct (Hc i ltac:(lia)) as (Nq & Esc).
    split; [unfold ends_string; cbn [andb orb]; apply not_dquote, Nq|].
    intros B Hl. apply Ascii.eqb_eq in B.
    destruct (Esc B) as [P|(U & Hh)];
      [left; apply plain_escape_is_simple, P|right].
    split; [apply Ascii.eqb_eq, U|]. split; [|exact Hh].
    assert (N1 : i + 1 ≠ e - 1) by (intros X; rewrite X, Bq in U; discriminate U).
    assert (N : ∀ k, i + 2 ≤ k ≤ i + 5 → k ≠ e - 1).
    { intros k Hk X. apply (hex_digit_no_dquote (buffer k)); [apply Hh, Hk|].
      rewrite X. exact Bq. }
    pose proof (N (i + 2) ltac:(lia)). pose proof (N (i + 3) ltac:(lia)).
    pose proof (N (i + 4) ltac:(lia)). pose proof (N (i + 5) ltac:(lia)).
    lia.
  - intros _. unfold ends_string. rewrite Bq. reflexivity.
Qed.

(** parse_number on a number of the grammar. *)
Lemma number_scan p e :
  strict_number buffer length p e →
  (parse_number buffer length p).1 = e - p.
Proof.
  intros (a & b & c & Hp & (Ha & Da) & Frac & Exp & He & Hd).
  unfold parse_number.
  assert (Last : ∀ lo, lo < b → digits buffer lo b →
                 is_digit (buffer (b - 1)) = true).
  { intros lo Hlo (_ & D). apply D. lia. }
  assert (Before : is_digit (buffer (b - 1)) = true).
  { destruct Frac as [Eb|(_ & Hab & D)];
      [apply (Last p); [lia|]|apply (Last (a + 1)); [lia|exact D]].
    rewrite Eb. split; [lia|exact Da]. }
  destruct Frac as [Eb|(Dot & Hab & (_ & Db))];
    destruct Exp as [(Ee & Ec)|(Ex & Hc & Hce & (_ & Dc))].
  - subst e.
    apply (parse_number_loop_exponent buffer length length_size _ p p b
             (-1) b); try lia; try discriminate; try assumption.
    intros i Hi. left. apply Da. lia.
  - apply (parse_number_loop_exponent buffer length length_size _ p p e
             (-1) b); try lia; try discriminate; try assumption.
    + intros i Hi.
      assert (C : i < b ∨ i = b ∨ (i = b + 1 ∧ c = b + 2) ∨ c ≤ i) by lia.
      destruct C as [C|[C|[(C & C')|C]]].
      * left. apply Da. lia.
      * right. right. left. split; [exact C|]. rewrite C. exact Ex.
      * right. right. right. split; [exact C|]. rewrite C.
        destruct Hc as [Hc|(_ & Hc)]; [lia|exact Hc].
      * left. apply Dc. lia.
    + intros _. split; [exact Ex|exact Before].
  - subst e.
    apply (parse_number_loop_exponent buffer length length_size _ p p b
             a b); try lia; try discriminate; try assumption.
    intros i Hi.
    assert (C : i < a ∨ i = a ∨ a < i) by lia.
    destruct C as [C|[C|C]].
    + left. apply Da. lia.
    + right. left. split; [exact C|]. rewrite C. exact Dot.
    + left. apply Db. lia.
  - apply (parse_number_loop_exponent buffer length length_size _ p p e
             a b); try lia; try discriminate; try assumption.
    + intros i Hi.
      assert (C : i < a ∨ i = a ∨ a < i < b ∨ i = b ∨
                  (i = b + 1 ∧ c = b + 2) ∨ c ≤ i) by lia.
      destruct C as [C|[C|[C|[C|[(C & C')|C]]]]].
      * left. apply Da. lia.
      * right. left. split; [exact C|]. rewrite C. exact Dot.
      * left. apply Db. lia.
      * right. right. left. split; [exact C|]. rewrite C. exact Ex.
      * right. right. right. split; [exact C|]. rewrite C.
        destruct Hc as [Hc|(_ & Hc)]; [lia|exact Hc].
      * left. apply Dc. lia.
    + intros _. split; [exact Ex|exact Before].
Qed.

Lemma holds_string_equal lit pos :
  0 ≤ pos → pos + Z.of_nat (String.length lit) ≤ STRING_NPOS →
  holds buffer lit pos → (string_equal buffer pos lit).1 = true.
Proof.
  revert pos. induction lit as [|a rest IH]; intros pos Hp Hl;
    cbn [string_equal String.length holds] in *; [reflexivity|].
  intros (H1 & H2). rewrite !wbind_fst. cbn [peek wret fst].
  rewrite sz_small by (unfold STRING_NPOS in *; lia).
  rewrite IH by (first [lia | exact H2]).
  rewrite H1, Ascii.eqb_refl. reflexivity.
Qed.

(** The test for a literal behind its first byte. *)
Lemma literal_found first rest n pos :
  0 ≤ pos → holds buffer rest pos →
  Z.of_nat (String.length rest) = n →
  pos + n < length → is_token_delimiter (buffer (pos + n)) = true →
  (literal_follows buffer length first first pos rest n).1 = true.
Proof.
  intros Hp H2 Hn Hl Hd. unfold literal_follows.
  rewrite Ascii.eqb_refl.
  rewrite (sz_small (length - pos)) by (unfold STRING_NPOS in *; lia).
  replace (n + 1 <=? length - pos) with true
    by (symmetry; apply Z.leb_le; lia).
  cbn [andb]. rewrite wbind_fst.
  rewrite holds_string_equal;
    [|lia|unfold STRING_NPOS in *; lia|exact H2].
  rewrite wbind_fst. cbn [peek wret fst].
  rewrite sz_small by (unfold STRING_NPOS in *; lia). exact Hd.
Qed.

Lemma literal_other c first pos rest n :
  c ≠ first →
  (literal_follows buffer length c first pos rest n).1 = false.
Proof.
  intros H. unfold literal_follows.
  replace (c =c= first) with false by (symmetry; apply Ascii.eqb_neq, H).
  reflexivity.
Qed.

End GrammarLexer.

(** ** The first byte of a value *)

Lemma digit_start c :
  is_digit c = true →
  (c =c= "{") = false ∧ (c =c= "[") = false ∧ is_number_start c = true ∧
  is_whitespace c = false.
Proof.
  assert (H : ∀ c, (negb (is_digit c) ||
                    (negb (c =c= "{") && negb (c =c= "[") &&
                     is_number_start c && negb (is_whitespace c))) = true).
  { apply for_all_bytes. vm_compute. reflexivity. }
  intros Hc. specialize (H c). rewrite Hc in H. cbn [negb orb] in H.
  repeat (apply andb_true_iff in H; destruct H as [H ?]).
  repeat match goal with
  | X : negb _ = true |- _ => apply negb_true_iff in X
  end.
  auto.
Qed.

Section GrammarParser.
Variable buffer : Z → ascii.
Variable length : Z.
Variable capacity : Z.
Hypothesis length_nonneg : 0 ≤ length.
Hypothesis length_small : length + 1 < 4294967296.

Local Abbreviation strict_value := (strict_value buffer length).
Local Abbreviation accepts_value := (accepts_value buffer length).
Local Abbreviation accepts_body := (accepts_body buffer length).
Local Abbreviation accepts_object_loop :=
  (accepts_object_loop buffer length capacity).
Local Abbreviation accepts_array_loop := (accepts_array_loop buffer length).

Lemma small_length : length ≤ STRING_NPOS.
Proof. unfold STRING_NPOS. lia. Qed.

Local Abbreviation length_size := small_length.

(** Two different bytes at one index. *)
Ltac clash :=
  match goal with
  | B : buffer ?p = _, X : buffer ?p = _ |- _ =>
      rewrite B in X; discriminate X
  | B : buffer ?p = _, X : is_digit (buffer ?p) = true |- _ =>
      rewrite B in X; discriminate X
  end.

(** The tests of the parsers on a byte that is known. *)
Ltac known_byte c :=
  lazymatch c with
  | Ascii _ _ _ _ _ _ _ _ => idtac
  | dquote => idtac
  end.

Ltac decide_tests H :=
  unfold is_number_start in H;
  repeat match type of H with
  | context [?a =c= ?b] =>
      known_byte a;
      let v := eval vm_compute in (a =c= b) in
      lazymatch v with
      | true => change (a =c= b) with true in H
      | false => change (a =c= b) with false in H
      end
  | context [?a <=? code ?c] =>
      known_byte c;
      let v := eval vm_compute in (a <=? code c) in
      lazymatch v with
      | true => change (a <=? code c) with true in H
      | false => change (a <=? code c) with false in H
      end
  | context [code ?c <=? ?b] =>
      known_byte c;
      let v := eval vm_compute in (code c <=? b) in
      lazymatch v with
      | true => change (code c <=? b) with true in H
      | false => change (code c <=? b) with false in H
      end
  end;
  cbn [negb andb orb] in H; cbv beta iota in H.

(** The first byte tells the kind of a value. *)
Lemma strict_value_cases p e :
  strict_value p e →
  strict_string buffer length p e ∨ strict_number buffer length p e ∨
  strict_literal buffer length p e ∨
  byte_at buffer length p "{" ∨ byte_at buffer length p "[".
Proof. intros H. destruct H; auto. Qed.

Lemma strict_number_start p e :
  strict_number buffer length p e →
  (0 ≤ p < e ∧ e ≤ length) ∧ is_digit (buffer p) = true.
Proof.
  intros (a & b & c & Hp & (_ & D) & F & X & He & _).
  split; [|apply D; lia].
  destruct F as [F|(_ & F & _)]; destruct X as [(X & _)|(_ & X1 & X2 & _)];
    lia.
Qed.

Lemma strict_literal_start p e :
  strict_literal buffer length p e →
  0 ≤ p < length ∧ (buffer p = "t"%char ∨ buffer p = "f"%char).
Proof.
  intros (Hp & L & He & _).
  destruct L as [((B & _) & E)|((B & _) & E)]; (split; [lia|auto]).
Qed.

(** A value starts inside the buffer, at a byte that is no blank. *)
Lemma strict_value_start p e :
  strict_value p e →
  0 ≤ p < length ∧ is_whitespace (buffer p) = false.
Proof.
  intros H.
  destruct (strict_value_cases p e H)
    as [((Hp & B) & _)|[N|[L|[(Hp & B)|(Hp & B)]]]];
    try (split; [exact Hp|rewrite B; reflexivity]).
  - destruct (strict_number_start p e N) as (Hp & D).
    split; [lia|apply digit_start, D].
  - destruct (strict_literal_start p e L) as (Hp & [B|B]);
      (split; [exact Hp|rewrite B; reflexivity]).
Qed.

(** What stands behind an opening brace, and behind an opening
    bracket. *)
Lemma object_cases p e :
  byte_at buffer length p "{" → strict_value p e →
  ∃ a, blank buffer (p + 1) a ∧
       ((byte_at buffer length a "}" ∧ e = a + 1) ∨
        strict_members buffer length a e).
Proof.
  intros (_ & B) H.
  destruct H as [p e ((_ & X) & _)|p e N|p e L|p a _ Hb Ha
                |p a e _ Hb Hm|p a (_ & X) _ _|p a e (_ & X) _ _];
    try clash.
  - destruct (strict_number_start p e N) as (_ & X). clash.
  - destruct (strict_literal_start p e L) as (_ & [X|X]); clash.
  - exists a. auto.
  - exists a. auto.
Qed.

Lemma array_cases p e :
  byte_at buffer length p "[" → strict_value p e →
  ∃ a, blank buffer (p + 1) a ∧
       ((byte_at buffer length a "]" ∧ e = a + 1) ∨
        strict_elements buffer length a e).
Proof.
  intros (_ & B) H.
  destruct H as [p e ((_ & X) & _)|p e N|p e L|p a (_ & X) _ _
                |p a e (_ & X) _ _|p a _ Hb Ha|p a e _ Hb Hm];
    try clash.
  - destruct (strict_number_start p e N) as (_ & X). clash.
  - destruct (strict_literal_start p e L) as (_ & [X|X]); clash.
  - exists a. auto.
  - exists a. auto.
Qed.

Lemma lands_here e : e ≤ length → lands buffer length e e.
Proof. intros H. split; [split; [lia|intros; lia]|exact H]. Qed.

(** The end of a run that returns where the value ends. *)
Ltac landed H :=
  repeat step H; bool_facts; unfold STRING_NPOS in *; try lia;
  repeat match goal with
  | |- context [sz ?x] => rewrite (sz_small x) by lia
  end;
  autorewrite with st; rewrite ?u32_small by lia;
  (split; [|lia]);
  lazymatch goal with
  | |- lands _ _ ?e ?r => replace r with e by lia; apply lands_here; lia
  end.

Lemma value_body_accepts po pa :
  accepts_body "{" po → accepts_body "[" pa →
  accepts_value (parse_value_body buffer length capacity false po pa).
Proof.
  intros Ho Ha pos p e st r st' Hpos Hc Hb Hv H.
  destruct (strict_value_start p e Hv) as (Hp & Hw).
  unfold_parser_in H.
  rewrite (skip_to buffer length length_size pos p Hpos Hb (proj2 Hp) Hw) in H.
  replace (p <? length) with true in H by (symmetry; apply Z.ltb_lt; lia).
  cbn [peek fst snd] in H.
  rewrite (sz_small (p + 1)) in H by lia.
  rewrite ?(sz_small (p + 1 - 1)), ?Z.add_simpl_r in H by lia.
  destruct (strict_value_cases p e Hv) as [S|[N|[L|[B|B]]]].
  - pose proof S as ((_ & B) & He & (Hq & _) & _).
    rewrite B in H. decide_tests H.
    rewrite (string_scan buffer length length_size p e S) in H.
    unfold skip_terminating_quote in H. cbn [negb wret fst snd] in H.
    landed H.
  - destruct (strict_number_start p e N) as (He & D).
    destruct (digit_start _ D) as (D1 & D2 & D3 & _).
    rewrite D1, D2, D3 in H.
    rewrite (number_scan buffer length length_size p e N) in H.
    landed H.
  - destruct (strict_literal_start p e L) as (_ & B).
    destruct L as (_ & L & He & Hd).
    destruct L as [(L & ->)|(L & ->)]; destruct B as [B|B];
      try (destruct L as (X & _); clash);
      destruct L as (_ & L); rewrite B in H; decide_tests H.
    + rewrite (literal_found buffer length length_size "t" "rue" 3) in H;
        [|lia|exact L|reflexivity|lia
         |replace (p + 1 + 3) with (p + 4) by lia; exact Hd].
      landed H.
    + rewrite (literal_other buffer length "f" "t") in H by discriminate.
      rewrite (literal_found buffer length length_size "f" "alse" 4) in H;
        [|lia|exact L|reflexivity|lia
         |replace (p + 1 + 4) with (p + 5) by lia; exact Hd].
      landed H.
  - pose proof B as (_ & B'). rewrite B' in H. decide_tests H.
    apply (Ho p e) in H; [|autorewrite with st; rewrite u32_small; lia
                          |exact B|exact Hv].
    revert H. autorewrite with st. rewrite u32_small by lia.
    intros (A & C). split; [exact A|lia].
  - pose proof B as (_ & B'). rewrite B' in H. decide_tests H.
    apply (Ha p e) in H; [|autorewrite with st; rewrite u32_small; lia
                          |exact B|exact Hv].
    revert H. autorewrite with st. rewrite u32_small by lia.
    intros (A & C). split; [exact A|lia].
Qed.

Lemma strict_string_start a k :
  strict_string buffer length a k →
  (0 ≤ a < length ∧ a + 2 ≤ k ≤ length) ∧ buffer a = dquote.
Proof. intros ((Ha & B) & Hk & (Hq & _) & _). split; [lia|exact B]. Qed.

Lemma strict_members_start a e :
  strict_members buffer length a e →
  0 ≤ a < length ∧ buffer a = dquote.
Proof.
  intros H. destruct H as [a k c v w x e S _ _ _ _ _ _].
  destruct (strict_string_start a k S) as (Ha & B). split; [lia|exact B].
Qed.

(** A value does not start with a closing bracket. *)
Lemma value_is_no_bracket p e :
  strict_value p e → (buffer p =c= "]") = false.
Proof.
  intros H.
  destruct (strict_value_cases p e H)
    as [((_ & B) & _)|[N|[L|[(_ & B)|(_ & B)]]]];
    try (rewrite B; reflexivity).
  - destruct (strict_number_start p e N) as (_ & D).
    apply Ascii.eqb_neq. intros X. clash.
  - destruct (strict_literal_start p e L) as (_ & [B|B]);
      rewrite B; reflexivity.
Qed.

Lemma object_body_accepts loop :
  accepts_object_loop loop →
  accepts_body "{" (parse_object_body buffer length loop).
Proof.
  intros Hl p e st r st' Hc B Hv H.
  destruct (object_cases p e B Hv) as (a & Hb & Ca).
  destruct B as (Hp & _).
  assert (Hs : 0 ≤ a < length ∧ is_whitespace (buffer a) = false).
  { destruct Ca as [((Ha & Ba) & _)|M].
    - split; [exact Ha|rewrite Ba; reflexivity].
    - destruct (strict_members_start a e M) as (Ha & Ba).
      split; [exact Ha|rewrite Ba; reflexivity]. }
  destruct Hs as (Ha & Wa). pose proof Hb as (Hpa & _).
  unfold_parser_in H.
  rewrite (skip_to buffer length length_size (p + 1) a) in H;
    [|lia|exact Hb|lia|exact Wa].
  apply (Hl a 0 _ r st' e) in H;
    [|autorewrite with st; lia|lia|left; split; [reflexivity|tauto]].
  destruct H as (-> & He & C). split; [apply lands_here, He|].
  autorewrite with st in C. lia.
Qed.

Lemma array_body_accepts loop :
  accepts_array_loop loop →
  accepts_body "[" (parse_array_body buffer length loop).
Proof.
  intros Hl p e st r st' Hc B Hv H.
  destruct (array_cases p e B Hv) as (a & Hb & Ca).
  destruct B as (Hp & _). pose proof Hb as (Hpa & _).
  unfold_parser_in H.
  destruct Ca as [((Ha & Ba) & ->)|M].
  - rewrite (skip_to buffer length length_size (p + 1) a) in H;
      [|lia|exact Hb|lia|rewrite Ba; reflexivity].
    cbn [peek fst snd] in H. rewrite Ba in H. decide_tests H.
    rewrite (sz_small (a + 1)) in H by (unfold STRING_NPOS; lia).
    injection H as <- <-.
    destruct (skip_whitespace_exact buffer length (a + 1) ltac:(lia)
                length_size) as (R & W & _).
    split; [split; [split; [lia|exact W]|lia]|].
    autorewrite with st. lia.
  - destruct M as [v w x e Sv Bw Re].
    destruct (strict_value_start v w Sv) as (Ha & Wa).
    rewrite (skip_to buffer length length_size (p + 1) v) in H;
      [|lia|exact Hb|lia|exact Wa].
    cbn [peek fst snd] in H.
    rewrite (value_is_no_bracket v w Sv) in H.
    apply (Hl v v 0 _ r st' e) in H;
      [|lia|autorewrite with st; lia|lia|split; [lia|intros; lia]
       |exact (se_element buffer length v w x e Sv Bw Re)].
    destruct H as (-> & He & C). split; [apply lands_here, He|].
    autorewrite with st in C. lia.
Qed.

(** The blanks between the place where a call returns and the next
    byte that is no blank. *)
Lemma blank_from w r x :
  lands buffer length w r → blank buffer w x →
  is_whitespace (buffer x) = false → blank buffer r x.
Proof.
  intros ((Hr & Wr) & _) (Hx & Wx) N.
  assert (r ≤ x).
  { destruct (Z.le_gt_cases r x) as [|Gt]; [assumption|].
    rewrite Wr in N by lia. discriminate N. }
  split; [assumption|]. intros i Hi. apply Wx. lia.
Qed.

Lemma array_loop_body_accepts pv loop :
  accepts_value pv → accepts_array_loop loop →
  accepts_array_loop
    (parse_array_loop_body buffer length capacity false pv loop).
Proof.
  intros Hv Hl pos v last st r st' e Hpos Hc Hlast Hb He H.
  destruct He as [v w x e Sv Bw Re].
  destruct (strict_value_start v w Sv) as (Hv0 & Wv).
  pose proof Hb as (Hpv & _).
  unfold_parser_in H.
  replace (pos <? length) with true in H by (symmetry; apply Z.ltb_lt; lia).
  cbv beta iota in H.
  step H; [|discriminate H].
  apply (Hv pos v w) in E;
    [|lia|autorewrite with st; lia|exact Hb|exact Sv].
  destruct E as (L & C). autorewrite with st in C.
  pose proof L as ((Hw & _) & Hr).
  replace (r0 =? STRING_NPOS) with false in H
    by (symmetry; apply Z.eqb_neq; unfold STRING_NPOS; lia).
  cbv beta iota in H.
  assert (Hx : (0 ≤ x < length ∧ is_whitespace (buffer x) = false) ∧ w ≤ x).
  { destruct Bw as (Bw & _).
    destruct Re as [x (Hx & B)|x v' e (Hx & B) _ _];
      (split; [split; [exact Hx|rewrite B; reflexivity]|exact Bw]). }
  destruct Hx as ((Hx & Wx) & Hwx).
  rewrite (skip_to buffer length length_size r0 x) in H;
    [|lia|apply (blank_from w); assumption|lia|exact Wx].
  cbn [peek fst snd] in H.
  rewrite (sz_small (x + 1)) in H by (unfold STRING_NPOS; lia).
  destruct Re as [x (_ & B)|x v' e (_ & B) Bv Se];
    rewrite B in H; decide_tests H.
  - repeat step H; (split; [reflexivity|]; split; [lia|]);
      autorewrite with st; lia.
  - step H; cbv beta iota in H;
      (apply (Hl (x + 1) v' _ _ r st' e) in H;
       [|lia|autorewrite with st; lia|lia|exact Bv|exact Se]);
      autorewrite with st in H; (split; [tauto|]; split; [tauto|lia]).
Qed.

Lemma strict_members_rest_start x e :
  strict_members_rest buffer length x e →
  0 ≤ x < length ∧ is_whitespace (buffer x) = false.
Proof.
  intros H. destruct H as [x (Hx & B)|x a e (Hx & B) _ _];
    (split; [exact Hx|rewrite B; reflexivity]).
Qed.

Lemma object_loop_body_accepts pv loop :
  unary_value capacity pv → accepts_value pv → accepts_object_loop loop →
  accepts_object_loop
    (parse_object_loop_body buffer length capacity false pv loop).
Proof.
  intros Uv Hv Hl pos last st r st' e Hc Hlast Hcase H.
  unfold_parser_in H.
  assert (Hpos : 0 ≤ pos < length).
  { destruct Hcase as [(_ & [M|((Hp & _) & _)])|(_ & M & _)];
      [apply (strict_members_start pos e M)|exact Hp
      |apply (strict_members_rest_start pos e M)]. }
  replace (pos <? length) with true in H by (symmetry; apply Z.ltb_lt; lia).
  cbn [peek fst snd] in H.
  rewrite (sz_small (pos + 1)) in H by (unfold STRING_NPOS; lia).
  destruct Hcase as [(-> & [M|((_ & B) & ->)])|(Hl0 & M & V)].
  - destruct M as [a k c v w x e Sk Bk Bc Bv Sv Bw Re].
    destruct (strict_string_start a k Sk) as (Ha & B).
    rewrite B in H. decide_tests H.
    change (0 =? 0) with true in H. cbn [negb] in H. cbv beta iota in H.
    rewrite (string_scan buffer length length_size a k Sk) in H.
    replace (k - a - 2 =? STRING_NPOS) with false in H
      by (symmetry; apply Z.eqb_neq; unfold STRING_NPOS; lia).
    unfold skip_terminating_quote, no_separator, implicit_terminator in H.
    unfold wbind, wret, peek in H.
    cbn [negb andb fst snd] in H. cbv beta iota zeta in H.
    rewrite (sz_small (k - a - 2 + 1)) in H by (unfold STRING_NPOS; lia).
    rewrite (sz_small (a + 1 + (k - a - 2 + 1))) in H
      by (unfold STRING_NPOS; lia).
    replace (a + 1 + (k - a - 2 + 1)) with k in H by lia.
    destruct Bc as (Hcc & Bc). pose proof Bk as (Hkc & _).
    rewrite (skip_to buffer length length_size k c) in H;
      [|lia|exact Bk|lia|rewrite Bc; reflexivity].
    rewrite Bc in H. decide_tests H. cbn [fst snd] in H.
    cbv beta iota zeta in H.
    rewrite (sz_small (c + 1)) in H by (unfold STRING_NPOS; lia).
    destruct (strict_value_start v w Sv) as (Hv0 & Wv).
    pose proof Bv as (Hcv & _).
    step H; [|discriminate H].
    pose proof E as U. apply Uv in U; [|autorewrite with st; lia].
    destruct U as (_ & _ & U).
    apply (Hv (c + 1) v w) in E;
      [|lia|autorewrite with st; lia|exact Bv|exact Sv].
    destruct E as (L & C). autorewrite with st in C, U.
    pose proof L as ((Hw & _) & Hr).
    specialize (U ltac:(unfold STRING_NPOS; lia)).
    destruct (strict_members_rest_start x e Re) as (Hx & Wx).
    pose proof Bw as (Hwx & _).
    rewrite (skip_to buffer length length_size r0 x) in H;
      [|lia|apply (blank_from w); assumption|lia|exact Wx].
    apply (Hl x (current st) _ r st' e) in H;
      [|autorewrite with st; lia|lia
       |right; split; [lia|]; split; [exact Re|autorewrite with st; exact U]].
    autorewrite with st in H. split; [tauto|]. split; [tauto|lia].
  - rewrite B in H. decide_tests H.
    change (0 =? 0) with true in H. cbn [negb] in H. cbv beta iota in H.
    injection H as <- <-. split; [reflexivity|]. split; [lia|].
    autorewrite with st. lia.
  - destruct M as [x (_ & B)|x a e (_ & B) Ba Ma];
      rewrite B in H; decide_tests H;
      replace (last =? 0) with false in H
        by (symmetry; apply Z.eqb_neq; exact Hl0);
      cbn [negb] in H; cbv beta iota in H;
      rewrite ?tokens_add_reads in H; rewrite V in H;
      cbn [negb] in H; cbv beta iota in H.
    + injection H as <- <-. split; [reflexivity|]. split; [lia|].
      autorewrite with st. lia.
    + destruct (strict_members_start a e Ma) as (Ha & Bq).
      pose proof Ba as (Hxa & _).
      rewrite (skip_to buffer length length_size (x + 1) a) in H;
        [|lia|exact Ba|lia|rewrite Bq; reflexivity].
      apply (Hl a 0 _ r st' e) in H;
        [|autorewrite with st; lia|lia
         |left; split; [reflexivity|left; exact Ma]].
      autorewrite with st in H. split; [tauto|]. split; [tauto|lia].
Qed.

(** Every call of the strict parser that is given a value of the
    grammar returns at its end, or behind the blanks after it. *)
Lemma accepts_all fuel :
  accepts_value (parse_value buffer length capacity false fuel) ∧
  accepts_object_loop (parse_object_loop buffer length capacity false fuel) ∧
  accepts_array_loop (parse_array_loop buffer length capacity false fuel).
Proof.
  induction fuel as [|n (IHv & IHo & IHa)].
  - split; [|split]; intros ? **; discriminate.
  - destruct (unary_all buffer length capacity false n) as (Uv & _ & _).
    split; [|split].
    + apply value_body_accepts;
        [apply object_body_accepts|apply array_body_accepts]; assumption.
    + apply object_loop_body_accepts; assumption.
    + apply array_loop_body_accepts; assumption.
Qed.

(** The scan of json_parse does not fail on a value of the grammar. *)
Lemma json_scan_accepts fuel array pos st' p e :
  blank buffer 0 p → strict_value p e →
  json_scan fuel buffer length capacity (initial array) = Some (pos, st') →
  pos ≠ STRING_NPOS.
Proof.
  intros Hb Hv H. rewrite json_scan_unfold in H.
  destruct (accepts_all fuel) as (Av & _ & _).
  destruct (strict_value_start p e Hv) as (Hp & _).
  apply (Av 0 p e) in H; [|lia| |exact Hb|exact Hv].
  - destruct H as ((_ & Hl) & _). unfold STRING_NPOS. lia.
  - unfold json_initial. rewrite !current_store_st. cbn [initial current]. lia.
Qed.

(** The scan of json_parse fails on a literal that ends the buffer. *)
Lemma json_scan_literal_at_end fuel array pos st' p :
  blank buffer 0 p →
  (holds buffer "true" p ∧ length = p + 4) ∨
  (holds buffer "false" p ∧ length = p + 5) →
  0 ≤ p →
  json_scan fuel buffer length capacity (initial array) = Some (pos, st') →
  pos = STRING_NPOS.
Proof.
  intros Hb L Hp H. rewrite json_scan_unfold in H.
  destruct fuel as [|n]; [discriminate H|]. rewrite parse_value_S in H.
  unfold_parser_in H.
  assert (B : buffer p = "t"%char ∨ buffer p = "f"%char).
  { destruct L as [((B & _) & _)|((B & _) & _)]; auto. }
  rewrite (skip_to buffer length length_size 0 p) in H;
    [|lia|exact Hb|destruct L as [(_ & ->)|(_ & ->)]; lia
     |destruct B as [B|B]; rewrite B; reflexivity].
  replace (p <? length) with true in H
    by (symmetry; apply Z.ltb_lt; destruct L as [(_ & ->)|(_ & ->)]; lia).
  cbn [peek fst snd] in H. unfold literal_follows in H.
  rewrite (sz_small (p + 1)) in H by (unfold STRING_NPOS; lia).
  rewrite (sz_small (length - (p + 1))) in H
    by (unfold STRING_NPOS; destruct L as [(_ & ->)|(_ & ->)]; lia).
  destruct L as [((B' & _) & E)|((B' & _) & E)]; rewrite B' in H;
    decide_tests H.
  - replace (3 + 1 <=? length - (p + 1)) with false in H
      by (symmetry; apply Z.leb_gt; lia).
    cbn [wret fst snd] in H. injection H as <- _. reflexivity.
  - replace (4 + 1 <=? length - (p + 1)) with false in H
      by (symmetry; apply Z.leb_gt; lia).
    cbn [wret fst snd] in H. injection H as <- _. reflexivity.
Qed.

End GrammarParser.

(** ** An example value *)

Ltac at_index k :=
  let i := fresh "i" in let Hi := fresh "Hi" in
  intros i Hi; assert (i = k) as -> by lia.

Ltac here := split; [lia|intros; lia].

Ltac byte := split; [lia|reflexivity].

Lemma nested_example_is_a_value :
  strict_value (memory nested_example zeros) 14 0 14.
Proof.
  apply (sv_object _ _ 0 1 14); [byte|here|].
  apply (sm_member _ _ 1 4 4 5 13 13 14); [|here|byte|here| |here|].
  - split; [byte|]. split; [lia|]. split; [byte|]. at_index 2.
    split; discriminate.
  - apply (sv_array _ _ 5 6 13); [byte|here|].
    apply (se_element _ _ 6 7 7 13); [|here|].
    + apply sv_number. exists 7, 7, 7.
      split; [lia|]. split; [split; [lia|at_index 6; reflexivity]|].
      split; [left; reflexivity|]. split; [left; split; reflexivity|].
      split; [lia|]. intros _. reflexivity.
    + apply (se_next _ _ 7 8 13); [byte|here|].
      apply (se_element _ _ 8 12 12 13); [|here|].
      * apply sv_literal. split; [lia|]. split; [left|].
        -- split; [|reflexivity]. repeat split.
        -- split; [lia|reflexivity].
      * apply (se_end _ _ 12). byte.
  - apply (sm_end _ _ 13). byte.
Qed.



